(** * MediaLibraryCleaner: scanner, analyzer and upsert loop

    A shallow embedding of the Python sources
      - [src/scanner/scanner.py]   (class [MediaScanner]),
      - [src/analyzer/analyzer.py] (class [MediaAnalyzer]),
      - [src/database.py]          (models [MediaFile], [MediaIssue]),
      - [cli.py]                   (command [scan])
    followed by the properties established about them.

    Conventions.
      - A Python [str] is a list of code points; the model covers the
        code points below 256 (type [ascii]).  In that range [\d] is
        exactly [0-9], and the white space removed by [str.strip] is
        U+0009..U+000D, U+001C..U+0020, U+0085 and U+00A0.
      - Python [int] is [Z]; [None] in a nullable column or attribute is
        [None] of an [option].
      - An exception is a value [Raise e] of the type [result]. *)

From Stdlib Require Import ZArith QArith List Bool Arith Lia.
From Stdlib Require Import Ascii String DecimalString.
From Stdlib Require Import Sorting.Sorted Permutation.
Import ListNotations.
Close Scope Q_scope.

Set Implicit Arguments.

(* ================================================================== *)
(** * Python values                                                    *)
(* ================================================================== *)

Module Py.

(** Python [str], restricted to code points below 256. *)
Definition str := list ascii.

(** A string literal of the source. *)
Definition lit (s : string) : str := list_ascii_of_string s.
Arguments lit s%_string.

Definition str_eqb (a b : str) : bool :=
  if list_eq_dec ascii_dec a b then true else false.

(** The exceptions that matter to the modelled code; [OtherError] stands
    for any other subclass of [Exception]. *)
Inductive exn := TypeError | ValueError | OtherError.

Inductive result (A : Type) :=
| Ok (a : A)
| Raise (e : exn).
Arguments Ok {A} a.
Arguments Raise {A} e.

Definition bind {A B} (r : result A) (k : A -> result B) : result B :=
  match r with Ok a => k a | Raise e => Raise e end.

(** [x or 0] for a nullable integer. *)
Definition or0 (x : option Z) : Z :=
  match x with Some v => v | None => 0%Z end.

(** Truth value of a nullable integer: [None] and [0] are false. *)
Definition truthy_int (x : option Z) : bool :=
  match x with Some v => negb (v =? 0)%Z | None => false end.

(** Truth value of a nullable string: [None] and [''] are false. *)
Definition truthy_str (x : option str) : bool :=
  match x with Some (_ :: _) => true | _ => false end.

(** [x is None] *)
Definition is_none {A} (x : option A) : bool :=
  match x with None => true | Some _ => false end.

(** [str(n)] for an integer. *)
Definition str_of_Z (n : Z) : str :=
  lit (NilZero.string_of_int (Z.to_int n)).

Definition is_digit (c : ascii) : bool :=
  let n := nat_of_ascii c in (48 <=? n) && (n <=? 57).

Definition digit_val (c : ascii) : Z := Z.of_nat (nat_of_ascii c - 48).

(** [int(s)] on a string of decimal digits (most significant first). *)
Definition int_of_digits (s : str) : Z :=
  fold_left (fun acc c => (10 * acc + digit_val c)%Z) s 0%Z.

(** [str.isspace] on one code point below 256. *)
Definition is_space (c : ascii) : bool :=
  let n := nat_of_ascii c in
  ((9 <=? n) && (n <=? 13)) || ((28 <=? n) && (n <=? 32))
  || (n =? 133) || (n =? 160).

Fixpoint lstrip (s : str) : str :=
  match s with
  | c :: s' => if is_space c then lstrip s' else s
  | [] => []
  end.

(** [s.strip()] *)
Definition strip (s : str) : str := rev (lstrip (rev (lstrip s))).

(** [s.replace(old, new)] for one-character [old] and [new]. *)
Definition replace_char (old new : ascii) (s : str) : str :=
  map (fun c => if Ascii.eqb c old then new else c) s.

(** [c.lower()] on one code point below 256: A-Z, and the Latin-1
    capitals U+00C0..U+00DE other than the multiplication sign. *)
Definition lower_char (c : ascii) : ascii :=
  let n := nat_of_ascii c in
  if ((65 <=? n) && (n <=? 90))
     || ((192 <=? n) && (n <=? 222) && negb (n =? 215))
  then ascii_of_nat (n + 32) else c.

Definition lower (s : str) : str := map lower_char s.

Fixpoint starts_with (p s : str) : bool :=
  match p, s with
  | [], _ => true
  | a :: p', b :: s' => Ascii.eqb a b && starts_with p' s'
  | _ :: _, [] => false
  end.

(** [p in s] for strings. *)
Fixpoint contains (p s : str) : bool :=
  starts_with p s ||
  match s with
  | [] => false
  | _ :: s' => contains p s'
  end.

End Py.

Import Py.

(* ================================================================== *)
(** * src/database.py                                                  *)
(* ================================================================== *)

Module Database.

Section Models.

(** Python [float]; only stored and compared for equality here. *)
Variable float : Type.

(** [class MediaFile(Base)].  [file_path] and [file_name] are
    [nullable=False]; the other columns are nullable.  [file_size] is
    always written from [stat().st_size] by the scanner and is kept as
    an integer.  The two time stamps are readings of a clock. *)
Record MediaFile := mkMediaFile {
  id : Z;
  file_path : str;
  file_name : str;
  file_size : Z;
  file_hash : option str;
  media_type : option str;
  title : option str;
  year : option Z;
  season : option Z;
  episode : option Z;
  resolution_width : option Z;
  resolution_height : option Z;
  codec : option str;
  bitrate : option Z;
  duration : option float;
  created_at : Z;
  scanned_at : Z
}.

(** The [resolution] property.  [self.resolution_height >= 2160] with
    [resolution_height] equal to [None] raises [TypeError]. *)
Definition resolution (self : MediaFile) : result str :=
  match resolution_height self with
  | None => Raise TypeError
  | Some h =>
      if (h >=? 2160)%Z then Ok (lit "4K")
      else if (h >=? 1080)%Z then Ok (lit "1080p")
      else if (h >=? 720)%Z then Ok (lit "720p")
      else if (h >=? 480)%Z then Ok (lit "480p")
      else Ok (lit "SD")
  end.

End Models.

(** [class MediaIssue(Base)]: the columns set by the analyzer.  The
    primary key is assigned by the store and [resolved] defaults to
    [False]. *)
Record MediaIssue := mkMediaIssue {
  media_file_id : Z;
  issue_type : str;
  severity : str;
  description : str;
  duplicate_of_id : option Z
}.

End Database.

Import Database.


(* ================================================================== *)
(** * The fragment of Python's [re] used by the scanner                *)
(* ================================================================== *)

Module Re.

(** Character classes. *)
Inductive cls :=
| Digit
| Dot
| Chr (c : ascii)
| OneOf (cs : str).

(** [\d] is [0-9]; [.] is anything but a newline (no DOTALL flag). *)
Definition in_cls (k : cls) (c : ascii) : bool :=
  match k with
  | Digit => is_digit c
  | Dot => negb (Ascii.eqb c "010"%char)
  | Chr d => Ascii.eqb c d
  | OneOf cs => existsb (Ascii.eqb c) cs
  end.

(** One item of a pattern: a class, a greedy bounded repetition
    [k{lo,hi}] ([k{n}] is [Rep k n n]), the lazy [k*?], or an alternation
    of literal words such as [(19|20)]. *)
Inductive atom :=
| One (k : cls)
| Rep (k : cls) (lo hi : nat)
| LazyStar (k : cls)
| Alt (ws : list str).

(** A pattern is a sequence of items. *)
Definition regex := list atom.

(** The backtracking matcher, in continuation style: every function
    returns the number of characters consumed by the first successful
    attempt, in the order in which [re] tries them. *)

(** Lazy star: first try to go on without consuming. *)
Fixpoint lazy_star (k : cls) (cont : str -> option nat) (s : str)
  : option nat :=
  match cont s with
  | Some n => Some n
  | None =>
      match s with
      | c :: s' =>
          if in_cls k c then option_map S (lazy_star k cont s') else None
      | [] => None
      end
  end.

(** Greedy repetition: first try to consume one more, and fall back to
    going on from here once the lower bound is reached. *)
Fixpoint rep (k : cls) (lo hi : nat) (cont : str -> option nat) (s : str)
  : option nat :=
  let stop := if lo =? 0 then cont s else None in
  match hi with
  | 0 => stop
  | S hi' =>
      match s with
      | c :: s' =>
          if in_cls k c then
            match rep k (pred lo) hi' cont s' with
            | Some n => Some (S n)
            | None => stop
            end
          else stop
      | [] => stop
      end
  end.

(** Alternation of literal words, tried left to right. *)
Fixpoint alt (ws : list str) (cont : str -> option nat) (s : str)
  : option nat :=
  match ws with
  | [] => None
  | w :: ws' =>
      if starts_with w s then
        match cont (skipn (List.length w) s) with
        | Some n => Some (List.length w + n)
        | None => alt ws' cont s
        end
      else alt ws' cont s
  end.

(** One character of the class. *)
Definition one (k : cls) (cont : str -> option nat) (s : str) : option nat :=
  match s with
  | c :: s' => if in_cls k c then option_map S (cont s') else None
  | [] => None
  end.

(** Match the pattern at the beginning of [s]. *)
Fixpoint match_here (p : regex) : str -> option nat :=
  match p with
  | [] => fun _ => Some 0
  | One k :: r => one k (match_here r)
  | Rep k lo hi :: r => rep k lo hi (match_here r)
  | LazyStar k :: r => lazy_star k (match_here r)
  | Alt ws :: r => alt ws (match_here r)
  end.

(** [re.search]: the start positions are tried from left to right, the
    end of the string included.  The result is (start, length). *)
Fixpoint search_from (p : regex) (i : nat) (s : str) : option (nat * nat) :=
  match match_here p s with
  | Some n => Some (i, n)
  | None =>
      match s with
      | _ :: s' => search_from p (S i) s'
      | [] => None
      end
  end.

Definition search (p : regex) (s : str) : option (nat * nat) :=
  search_from p 0 s.

(** [m.group()] *)
Definition group (s : str) (m : nat * nat) : str :=
  firstn (snd m) (skipn (fst m) s).

(** [m.group(1)] for a pattern of the shape [x(...)], where [x] is one
    character class: the match without its first character. *)
Definition group1 (s : str) (m : nat * nat) : str :=
  firstn (snd m - 1) (skipn (fst m + 1) s).

(** [re.split(p, s)[0]]: the text before the first match, the whole
    string when there is none. *)
Definition split0 (p : regex) (s : str) : str :=
  match search p s with
  | Some (i, _) => firstn i s
  | None => s
  end.

End Re.


(* ================================================================== *)
(** * src/scanner/scanner.py                                           *)
(* ================================================================== *)

Module Scanner.

Import Re.

(** ** Identity fields from the file name stem *)

(** The patterns of [_extract_title], in the order of the source list:
    [\d{4}], [[Ss]\d{2}[Ee]\d{2}], [\[.*?\]], [\(.*?\)]. *)
Definition title_patterns : list regex :=
  [ [Rep Digit 4 4];
    [One (OneOf (lit "Ss")); Rep Digit 2 2; One (OneOf (lit "Ee")); Rep Digit 2 2];
    [One (Chr "["); LazyStar Dot; One (Chr "]")];
    [One (Chr "("); LazyStar Dot; One (Chr ")")] ].

(** The loop [for pattern in [...]: name = re.split(pattern, name)[0]]. *)
Definition title_cut (stem : str) : str :=
  fold_left (fun name pattern => split0 pattern name) title_patterns stem.

Definition _extract_title (stem : str) : str :=
  strip (replace_char "_" " " (replace_char "." " " (title_cut stem))).

(** [(19|20)\d{2}] *)
Definition year_pattern : regex := [Alt [lit "19"; lit "20"]; Rep Digit 2 2].

Definition _extract_year (stem : str) : option Z :=
  match search year_pattern stem with
  | Some m => Some (int_of_digits (group stem m))
  | None => None
  end.

(** [[Ss](\d{1,2})] *)
Definition season_pattern : regex := [One (OneOf (lit "Ss")); Rep Digit 1 2].

Definition _extract_season (stem : str) : option Z :=
  match search season_pattern stem with
  | Some m => Some (int_of_digits (group1 stem m))
  | None => None
  end.

(** [[Ee](\d{1,3})] *)
Definition episode_pattern : regex := [One (OneOf (lit "Ee")); Rep Digit 1 3].

Definition _extract_episode (stem : str) : option Z :=
  match search episode_pattern stem with
  | Some m => Some (int_of_digits (group1 stem m))
  | None => None
  end.

(** ** Content fingerprint *)

Definition bytes := list Byte.byte.

(** [s.encode()] for a string of code points below 128. *)
Definition encode (s : str) : bytes := map byte_of_ascii s.

(** The streaming interface of [xxhash.xxh64]. *)
Class XXH64 := {
  hasher : Type;
  xxh64 : hasher;
  update : hasher -> bytes -> hasher;
  hexdigest : hasher -> str
}.

(** A regular file is its content; [stat().st_size] is the length of the
    content (the file does not change while it is fingerprinted).
    [f.read(chunk_size)] on the fresh handle returns the first
    [chunk_size] bytes, and after [f.seek(-chunk_size, 2)] the last ones. *)
Definition _calculate_hash `{XXH64} (content : bytes) (chunk_size : nat)
  : str :=
  let file_size := List.length content in
  let h0 := update xxh64 (encode (str_of_Z (Z.of_nat file_size))) in
  let h1 := update h0 (firstn chunk_size content) in
  let h2 :=
    if chunk_size * 2 <? file_size
    then update h1 (firstn chunk_size (skipn (file_size - chunk_size) content))
    else h1 in
  hexdigest h2.

(** The default [chunk_size=8192]. *)
Definition chunk_size_default : nat := 8 * 1024.

(** ** Track metadata *)

(** What the scanner needs from Python floats and from the attribute
    values handed over by pymediainfo: the truth value of an attribute,
    [float(x)] (which may raise) and the division of a float by an
    integer. *)
Class MediaInfoLib := {
  float : Type;
  attr : Type;
  attr_truthy : attr -> bool;
  float_of : attr -> result float;
  float_div : float -> Z -> float
}.

Section Tracks.

Context `{MediaInfoLib}.

(** The attributes of a pymediainfo track read by the scanner; an
    attribute that the container does not declare reads as [None]. *)
Record Track := mkTrack {
  track_type : str;
  width : option Z;
  height : option Z;
  codec_id : option str;
  format : option str;
  bit_rate : option Z;
  t_duration : option attr;
  channel_s : option Z;
  language : option str
}.

(** The keys added for the audio track. *)
Record AudioDict := mkAudioDict {
  audio_codec : option str;
  audio_channels : option Z;
  audio_language : option str
}.

(** The dictionary returned by [_get_media_info]; the three audio keys
    are present only when an audio track was found. *)
Record MediaDict := mkMediaDict {
  md_resolution_width : option Z;
  md_resolution_height : option Z;
  md_codec : option str;
  md_bitrate : option Z;
  md_duration : option float;
  md_audio : option AudioDict
}.

(** [a or b] on nullable strings. *)
Definition or_str (a b : option str) : option str :=
  if truthy_str a then a else b.

(** One iteration of [for track in media_info.tracks]. *)
Definition pick (st : option Track * option Track) (track : Track)
  : option Track * option Track :=
  let '(video_track, audio_track) := st in
  if str_eqb (track_type track) (lit "Video") && is_none video_track
  then (Some track, audio_track)
  else if str_eqb (track_type track) (lit "Audio") && is_none audio_track
  then (video_track, Some track)
  else st.

(** The inner [try: duration = float(...) / 1000] with its
    [except (ValueError, TypeError)]. *)
Definition duration_of (video_track : Track) : result (option float) :=
  match t_duration video_track with
  | None => Ok None
  | Some d =>
      if attr_truthy d then
        match float_of d with
        | Ok f => Ok (Some (float_div f 1000))
        | Raise ValueError => Ok None
        | Raise TypeError => Ok None
        | Raise e => Raise e
        end
      else Ok None
  end.

(** The body of the outer [try] of [_get_media_info]; [parsed] is the
    outcome of [MediaInfo.parse(file_path)]. *)
Definition media_info_body (parsed : result (list Track))
  : result (option MediaDict) :=
  bind parsed (fun tracks =>
  let '(video_track, audio_track) := fold_left pick tracks (None, None) in
  match video_track with
  | None => Ok None
  | Some v =>
      bind (duration_of v) (fun duration =>
      Ok (Some {|
        md_resolution_width := width v;
        md_resolution_height := height v;
        md_codec := or_str (codec_id v) (format v);
        md_bitrate := bit_rate v;
        md_duration := duration;
        md_audio :=
          match audio_track with
          | Some a => Some {|
              audio_codec := or_str (format a) (codec_id a);
              audio_channels := channel_s a;
              audio_language := language a |}
          | None => None
          end |}))
  end).

(** [_get_media_info]: [except Exception] turns every exception of the
    body into [None]. *)
Definition _get_media_info (parsed : result (list Track))
  : option MediaDict :=
  match media_info_body parsed with
  | Ok r => r
  | Raise _ => None
  end.

(** The dictionary built by [_extract_file_info]: nine keys that are
    always present, and the keys of [_get_media_info] when it returned a
    dictionary ([info.update(media_info)]). *)
Record FileInfo := mkFileInfo {
  info_file_path : str;
  info_file_name : str;
  info_file_size : Z;
  info_file_hash : str;
  info_media_type : str;
  info_title : str;
  info_year : option Z;
  info_season : option Z;
  info_episode : option Z;
  info_media : option MediaDict
}.

(** A file as the scanner sees it. *)
Record File := mkFile {
  path : str;
  name : str;
  stem : str;
  content : bytes;
  parsed : result (list Track)
}.

Definition _extract_file_info `{XXH64} (file_path : File) (media_type : str)
  : FileInfo :=
  {| info_file_path := path file_path;
     info_file_name := name file_path;
     info_file_size := Z.of_nat (List.length (content file_path));
     info_file_hash := _calculate_hash (content file_path) chunk_size_default;
     info_media_type := media_type;
     info_title := _extract_title (stem file_path);
     info_year := _extract_year (stem file_path);
     info_season := _extract_season (stem file_path);
     info_episode := _extract_episode (stem file_path);
     info_media := _get_media_info (parsed file_path) |}.

End Tracks.

End Scanner.


(* ================================================================== *)
(** * src/analyzer/analyzer.py                                         *)
(* ================================================================== *)

Module Analyzer.

(** ** [list.sort(key=..., reverse=...)] *)

Section PySort.

Variables (A K : Type) (ltb : K -> K -> bool) (key : A -> K).

(** Insert [x] in front of the first element whose key is not smaller,
    so that [x] stays before the elements with an equal key. *)
Fixpoint insert_stable (x : A) (l : list A) : list A :=
  match l with
  | [] => [x]
  | y :: l' =>
      if ltb (key y) (key x) then y :: insert_stable x l'
      else x :: y :: l'
  end.

(** Stable ascending sort. *)
Fixpoint sort_stable (l : list A) : list A :=
  match l with
  | [] => []
  | x :: l' => insert_stable x (sort_stable l')
  end.

(** [l.sort(key=key, reverse=reverse)].  With [reverse=True] the list is
    sorted in descending order of the keys and elements with equal keys
    keep their original order: the list is reversed, sorted and reversed
    again. *)
Definition py_sort (reverse : bool) (l : list A) : list A :=
  if reverse then rev (sort_stable (rev l)) else sort_stable l.

End PySort.

(** Comparison of the key tuples [(a, b, c)] of integers. *)
Definition key3_ltb (a b : Z * Z * Z) : bool :=
  let '(a1, a2, a3) := a in
  let '(b1, b2, b3) := b in
  (a1 <? b1)%Z
  || ((a1 =? b1)%Z && ((a2 <? b2)%Z || ((a2 =? b2)%Z && (a3 <? b3)%Z))).

(** [range(lo, hi)] *)
Definition range (lo hi : Z) : list Z :=
  map (fun i => (lo + Z.of_nat i)%Z) (seq 0 (Z.to_nat (hi - lo))).

(** [sorted(xs)] on integers. *)
Definition sorted (xs : list Z) : list Z :=
  sort_stable Z.ltb (fun x => x) xs.

(** [min(xs)] and [max(xs)] of a non-empty collection. *)
Definition py_min (x : Z) (xs : list Z) : Z := fold_left Z.min xs x.
Definition py_max (x : Z) (xs : list Z) : Z := fold_left Z.max xs x.

Definition mem (x : Z) (xs : list Z) : bool := existsb (Z.eqb x) xs.

(** [s.add(x)] on a set kept as a duplicate-free list. *)
Definition set_add (x : Z) (xs : list Z) : list Z :=
  if mem x xs then xs else xs ++ [x].

(** ** Configuration *)

(** [difflib.SequenceMatcher(None, a, b).ratio()], the comparison of two
    ratios and the format [{similarity:.0%}]. *)
Class Difflib := {
  ratio_t : Type;
  ratio : str -> str -> ratio_t;
  ratio_geb : ratio_t -> ratio_t -> bool;
  percent : ratio_t -> str
}.

(** The configuration keys read by the analyzer; a key that is absent
    from the YAML file reads as [None] and [config.get] then returns its
    default. *)
Record Config `{Difflib} := mkConfig {
  quality_min_resolution : option Z;
  quality_min_bitrate_1080p : option Z;
  similarity_threshold_key : option ratio_t;
  use_filename_similarity : option bool;
  check_missing_episodes : option bool
}.

(** [config.get(key, default)] *)
Definition get {A} (value : option A) (default : A) : A :=
  match value with Some v => v | None => default end.

(** [config.get(key)] used as a condition. *)
Definition enabled (value : option bool) : bool :=
  match value with Some b => b | None => false end.

Section Checks.

Context `{Difflib} {float : Type}.

Local Abbreviation MediaFile := (MediaFile float).

Variable config : Config.

(** [self.similarity_threshold]; [default_threshold] is the float
    [0.85]. *)
Variable default_threshold : ratio_t.

Definition min_resolution : Z := get (quality_min_resolution config) 1080%Z.

Definition similarity_threshold : ratio_t :=
  get (similarity_threshold_key config) default_threshold.

(** ** [find_duplicates] *)

(** [hash_groups[k].append(f)] on a dictionary kept in insertion order. *)
Fixpoint group_append (k : str) (f : MediaFile)
  (groups : list (str * list MediaFile)) : list (str * list MediaFile) :=
  match groups with
  | [] => [(k, [f])]
  | (k', fs) :: rest =>
      if str_eqb k' k then (k', fs ++ [f]) :: rest
      else (k', fs) :: group_append k f rest
  end.

(** The first loop: records with a false [file_hash] ([None] or ['']) are
    left out. *)
Definition hash_groups (files : list MediaFile)
  : list (str * list MediaFile) :=
  fold_left
    (fun groups file =>
       match file_hash file with
       | Some h => if truthy_str (Some h) then group_append h file groups
                   else groups
       | None => groups
       end)
    files [].

(** The key of the sort: [(-(height or 0), -(bitrate or 0), file_size)]. *)
Definition rank_key (f : MediaFile) : Z * Z * Z :=
  ((- or0 (resolution_height f))%Z, (- or0 (bitrate f))%Z, file_size f).

(** [duplicates.sort(key=..., reverse=True)] *)
Definition sort_duplicates (duplicates : list MediaFile) : list MediaFile :=
  py_sort key3_ltb rank_key true duplicates.

(** The issues of one group. *)
Definition group_issues (duplicates : list MediaFile) : list MediaIssue :=
  if 1 <? List.length duplicates then
    match sort_duplicates duplicates with
    | best_file :: rest =>
        map (fun dup =>
               {| media_file_id := id dup;
                  issue_type := lit "duplicate";
                  severity := lit "high";
                  description := lit "Duplicate of " ++ file_name best_file;
                  duplicate_of_id := Some (id best_file) |})
            rest
    | [] => []
    end
  else [].

(** The exact pass: the second loop of [find_duplicates]. *)
Definition exact_duplicates (files : list MediaFile) : list MediaIssue :=
  flat_map (fun g => group_issues (snd g)) (hash_groups files).

(** ** [_find_similar_filenames] *)

(** [tuple(sorted([a, b]))] *)
Definition sorted_pair (a b : Z) : Z * Z :=
  if (b <? a)%Z then (b, a) else (a, b).

Definition pair_eqb (p q : Z * Z) : bool :=
  (fst p =? fst q)%Z && (snd p =? snd q)%Z.

(** The body of the inner loop for the pair [(file1, file2)]; the state
    is [checked_pairs] and the issues found so far. *)
Definition similar_step (file1 : MediaFile)
  (st : list (Z * Z) * list MediaIssue) (file2 : MediaFile)
  : list (Z * Z) * list MediaIssue :=
  let '(checked_pairs, issues) := st in
  let pair := sorted_pair (id file1) (id file2) in
  if existsb (pair_eqb pair) checked_pairs then st
  else
    let checked_pairs := pair :: checked_pairs in
    let similarity := ratio (file_name file1) (file_name file2) in
    if ratio_geb similarity similarity_threshold then
      let first_is_better :=
        (or0 (resolution_height file1) >=? or0 (resolution_height file2))%Z in
      let better_file := if first_is_better then file1 else file2 in
      let worse_file := if first_is_better then file2 else file1 in
      (checked_pairs,
       issues ++
       [{| media_file_id := id worse_file;
           issue_type := lit "duplicate";
           severity := lit "medium";
           description :=
             lit "Similar to " ++ file_name better_file ++ lit " ("
             ++ percent similarity ++ lit " match)";
           duplicate_of_id := Some (id better_file) |}])
    else (checked_pairs, issues).

(** [for i, file1 in enumerate(files): for file2 in files[i+1:]: ...] *)
Fixpoint similar_loop (files : list MediaFile)
  (st : list (Z * Z) * list MediaIssue) : list (Z * Z) * list MediaIssue :=
  match files with
  | [] => st
  | file1 :: rest => similar_loop rest (fold_left (similar_step file1) rest st)
  end.

Definition _find_similar_filenames (files : list MediaFile)
  : list MediaIssue :=
  snd (similar_loop files ([], [])).

Definition find_duplicates (files : list MediaFile) : list MediaIssue :=
  exact_duplicates files
  ++ (if enabled (use_filename_similarity config)
      then _find_similar_filenames files else []).

(** ** [find_low_resolution] *)

(** The SQL filter [resolution_height < min_resolution]; a comparison
    with NULL is not true. *)
Definition below_minimum (file : MediaFile) : bool :=
  match resolution_height file with
  | Some h => (h <? min_resolution)%Z
  | None => false
  end.

(** [f'{x}'] for a nullable integer. *)
Definition fmt_opt (x : option Z) : str :=
  match x with Some v => str_of_Z v | None => lit "None" end.

Definition low_res_issue (file : MediaFile) : MediaIssue :=
  {| media_file_id := id file;
     issue_type := lit "low_res";
     severity := lit "high";
     description :=
       lit "Resolution " ++ fmt_opt (resolution_height file)
       ++ lit "p is below minimum " ++ str_of_Z min_resolution ++ lit "p";
     duplicate_of_id := None |}.

Definition find_low_resolution (files : list MediaFile) : list MediaIssue :=
  map low_res_issue (filter below_minimum files).

(** ** [find_quality_issues] *)

Definition old_codecs : list str := [lit "xvid"; lit "divx"; lit "mpeg2"].

(** [file.codec and any(old in file.codec.lower() for old in old_codecs)] *)
Definition has_old_codec (file : MediaFile) : bool :=
  match codec file with
  | Some c =>
      truthy_str (Some c) && existsb (fun old => contains old (lower c)) old_codecs
  | None => false
  end.

Definition old_codec_issue (file : MediaFile) : MediaIssue :=
  {| media_file_id := id file;
     issue_type := lit "quality";
     severity := lit "medium";
     description := lit "Old codec: " ++ get (codec file) [];
     duplicate_of_id := None |}.

(** [config.get('quality.min_bitrate_1080p', 2000) * 1000] *)
Definition min_bitrate : Z :=
  (get (quality_min_bitrate_1080p config) 2000 * 1000)%Z.

(** [file.resolution_height == 1080 and file.bitrate] followed by
    [file.bitrate < min_bitrate]. *)
Definition has_low_bitrate (file : MediaFile) : bool :=
  match resolution_height file with
  | Some h =>
      (h =? 1080)%Z && truthy_int (bitrate file)
      && (or0 (bitrate file) <? min_bitrate)%Z
  | None => false
  end.

Definition low_bitrate_issue (file : MediaFile) : MediaIssue :=
  {| media_file_id := id file;
     issue_type := lit "quality";
     severity := lit "medium";
     description :=
       lit "Low bitrate: " ++ str_of_Z (or0 (bitrate file) / 1000)
       ++ lit " kbps";
     duplicate_of_id := None |}.

(** The issues of one record, in the order of the two [if] statements. *)
Definition quality_issues_of (file : MediaFile) : list MediaIssue :=
  (if has_old_codec file then [old_codec_issue file] else [])
  ++ (if has_low_bitrate file then [low_bitrate_issue file] else []).

Definition find_quality_issues (files : list MediaFile) : list MediaIssue :=
  flat_map quality_issues_of files.

(** ** [find_missing_episodes] *)

(** An entry of the returned list. *)
Record SeriesGap := mkSeriesGap {
  series : option str;
  gap_season : Z;
  missing_episodes : list Z
}.

Definition opt_str_eqb (a b : option str) : bool :=
  match a, b with
  | Some x, Some y => str_eqb x y
  | None, None => true
  | _, _ => false
  end.

(** The query: [media_type == 'tv'], season and episode not NULL. *)
Definition is_tv_episode (file : MediaFile) : bool :=
  opt_str_eqb (media_type file) (Some (lit "tv"))
  && negb (is_none (season file))
  && negb (is_none (episode file)).

(** [seasons[season].add(episode)] on a dictionary of sets kept in
    insertion order. *)
Fixpoint season_add (season episode : Z) (seasons : list (Z * list Z))
  : list (Z * list Z) :=
  match seasons with
  | [] => [(season, [episode])]
  | (s, eps) :: rest =>
      if (s =? season)%Z then (s, set_add episode eps) :: rest
      else (s, eps) :: season_add season episode rest
  end.

(** [series_episodes[title][season].add(episode)] *)
Fixpoint series_add (title : option str) (season episode : Z)
  (all : list (option str * list (Z * list Z)))
  : list (option str * list (Z * list Z)) :=
  match all with
  | [] => [(title, [(season, [episode])])]
  | (t, seasons) :: rest =>
      if opt_str_eqb t title
      then (t, season_add season episode seasons) :: rest
      else (t, seasons) :: series_add title season episode rest
  end.

Definition series_episodes (tv_files : list MediaFile)
  : list (option str * list (Z * list Z)) :=
  fold_left
    (fun acc file =>
       match season file, episode file with
       | Some s, Some e => series_add (title file) s e acc
       | _, _ => acc
       end)
    tv_files [].

(** The body of the inner loop for one season of one series. *)
Definition season_gap (series : option str) (entry : Z * list Z)
  : list SeriesGap :=
  let '(season, episodes) := entry in
  match episodes with
  | [] => []
  | e :: es =>
      let min_ep := py_min e es in
      let max_ep := py_max e es in
      let expected := range min_ep (max_ep + 1) in
      let missing_eps := filter (fun x => negb (mem x episodes)) expected in
      match missing_eps with
      | [] => []
      | _ :: _ =>
          [{| series := series;
              gap_season := season;
              missing_episodes := sorted missing_eps |}]
      end
  end.

Definition find_missing_episodes (files : list MediaFile) : list SeriesGap :=
  flat_map (fun entry => flat_map (season_gap (fst entry)) (snd entry))
           (series_episodes (filter is_tv_episode files)).

End Checks.

End Analyzer.


(* ================================================================== *)
(** * cli.py: the upsert loop of [scan]                                *)
(* ================================================================== *)

Module Cli.

Import Scanner.

Section Scan.

Context `{MediaInfoLib}.

Local Abbreviation MediaFile := (MediaFile float).

(** The table [media_files], in row order. *)
Definition table := list MediaFile.

(** [session.query(MediaFile).filter_by(file_path=p).first()] *)
Definition query_first (rows : table) (p : str) : option MediaFile :=
  find (fun r => str_eqb (file_path r) p) rows.

(** The key assigned to a new row ([id] is an [INTEGER PRIMARY KEY]
    that the insert leaves to SQLite): one more than the largest key in
    use, whatever its sign, and 1 for an empty table.  When the largest
    key is the largest 64-bit integer SQLite tries unused keys at random
    instead; the statements about new keys exclude that table by a
    hypothesis. *)
Definition next_id (rows : table) : Z :=
  match map (@id float) rows with
  | [] => 1%Z
  | key :: keys => (fold_left Z.max keys key + 1)%Z
  end.

(** [for key, value in info.items(): setattr(existing, key, value)].
    The keys of the media dictionary are assigned only when they are
    present; the audio keys become plain attributes of the object and
    reach no column. *)
Definition set_attrs (existing : MediaFile) (info : FileInfo) : MediaFile :=
  let keep {A} (f : MediaDict -> A) (old : A) : A :=
    match info_media info with Some md => f md | None => old end in
  {| id := id existing;
     file_path := info_file_path info;
     file_name := info_file_name info;
     file_size := info_file_size info;
     file_hash := Some (info_file_hash info);
     media_type := Some (info_media_type info);
     title := Some (info_title info);
     year := info_year info;
     season := info_season info;
     episode := info_episode info;
     resolution_width := keep md_resolution_width (resolution_width existing);
     resolution_height :=
       keep md_resolution_height (resolution_height existing);
     codec := keep md_codec (codec existing);
     bitrate := keep md_bitrate (bitrate existing);
     duration := keep md_duration (duration existing);
     created_at := created_at existing;
     scanned_at := scanned_at existing |}.

(** Whether the dictionary carries the audio keys. *)
Definition has_audio_keys (info : FileInfo) : bool :=
  match info_media info with
  | Some md => negb (is_none (md_audio md))
  | None => false
  end.

(** The constructor call of [media_file = MediaFile(...)] with the keys of
    [info] as keywords.  The declarative constructor raises [TypeError]
    for a keyword that is not an attribute of the class; [MediaFile] has
    no [audio_codec], [audio_channels] or [audio_language].  Columns
    without a keyword are NULL, and both time stamps default to the
    current time. *)
Definition new_media_file (now new_id : Z) (info : FileInfo)
  : result MediaFile :=
  if has_audio_keys info then Raise TypeError
  else
    let field {A} (f : MediaDict -> option A) : option A :=
      match info_media info with Some md => f md | None => None end in
    Ok {| id := new_id;
          file_path := info_file_path info;
          file_name := info_file_name info;
          file_size := info_file_size info;
          file_hash := Some (info_file_hash info);
          media_type := Some (info_media_type info);
          title := Some (info_title info);
          year := info_year info;
          season := info_season info;
          episode := info_episode info;
          resolution_width := field md_resolution_width;
          resolution_height := field md_resolution_height;
          codec := field md_codec;
          bitrate := field md_bitrate;
          duration := field md_duration;
          created_at := now;
          scanned_at := now |}.

(** Assign the attributes of the first row whose path is [p]. *)
Fixpoint update_first (rows : table) (p : str) (info : FileInfo) : table :=
  match rows with
  | [] => []
  | r :: rest =>
      if str_eqb (file_path r) p then set_attrs r info :: rest
      else r :: update_first rest p info
  end.

(** SQLite stores an integer in 64 bits, signed. *)
Definition int64 (z : Z) : bool := (- 2 ^ 63 <=? z)%Z && (z <? 2 ^ 63)%Z.

Definition opt_int64 (x : option Z) : bool :=
  match x with Some z => int64 z | None => true end.

(** The integers that the dictionary assigns to [Integer] columns all fit
    in 64 bits.  The keys of the media dictionary count only when they
    are present. *)
Definition storable (info : FileInfo) : bool :=
  int64 (info_file_size info)
  && opt_int64 (info_year info)
  && opt_int64 (info_season info)
  && opt_int64 (info_episode info)
  && match info_media info with
     | Some md =>
         opt_int64 (md_resolution_width md)
         && opt_int64 (md_resolution_height md)
         && opt_int64 (md_bitrate md)
     | None => true
     end.

(** The flush that sends the row written for [info] to SQLite.  The
    session flushes at its next query or at [session.commit()], and
    nothing that can raise runs in between.  [sqlite3] raises
    [OverflowError] for an integer outside 64 bits; the flush then fails,
    the transaction is rolled back and the session raises at every later
    use ([PendingRollbackError]).  Both exceptions are [OtherError] here.
    In the model the failure is raised where the row is written and is
    raised again at the same dictionary by every later attempt, which
    gives the same table and the same kind of exception at the end of the
    scan. *)
Definition flush (info : FileInfo) (rows : table) : result table :=
  if storable info then Ok rows else Raise OtherError.

(** The body of [for info in batch]: update in place or insert.  The
    session flushes pending rows before each query, so rows added earlier
    in the same batch are found. *)
Definition upsert (now : Z) (rows : table) (info : FileInfo)
  : result table :=
  match query_first rows (info_file_path info) with
  | Some _ => flush info (update_first rows (info_file_path info) info)
  | None =>
      bind (new_media_file now (next_id rows) info)
           (fun media_file => flush info (rows ++ [media_file]))
  end.

(** [for info in batch: ...; total_files += 1].  When the constructor
    raises, the changes made so far stay in the session; for a flush
    that fails see [flush]. *)
Fixpoint process_batch (now : Z) (session : table) (total_files : nat)
  (batch : list FileInfo) : table * nat * option exn :=
  match batch with
  | [] => (session, total_files, None)
  | info :: rest =>
      match upsert now session info with
      | Ok session' => process_batch now session' (S total_files) rest
      | Raise e => (session, total_files, Some e)
      end
  end.

(** The state of the loop over the completed futures: the committed
    table, the table as the open session sees it, the pending batch and
    the counter. *)
Record ScanState := mkScanState {
  committed : table;
  session : table;
  batch : list FileInfo;
  total_files : nat
}.

(** One iteration of [for future in as_completed(...)].  An exception of
    [future.result()] or of the batch is caught and logged; in the second
    case [session.commit()] and [batch = []] are not reached. *)
Definition scan_step (now batch_size : Z) (st : ScanState)
  (future : result FileInfo) : ScanState :=
  match future with
  | Raise _ => st
  | Ok file_info =>
      let batch' := batch st ++ [file_info] in
      if (batch_size <=? Z.of_nat (List.length batch'))%Z then
        match process_batch now (session st) (total_files st) batch' with
        | (session', total', None) =>
            {| committed := session'; session := session';
               batch := []; total_files := total' |}
        | (session', total', Some _) =>
            {| committed := committed st; session := session';
               batch := batch'; total_files := total' |}
        end
      else
        {| committed := committed st; session := session st;
           batch := batch'; total_files := total_files st |}
  end.

(** [if batch: ...] after the loop, outside the [try]: an exception leaves
    the [with] block, the session is closed and its uncommitted changes
    are rolled back. *)
Definition scan_finish (now : Z) (st : ScanState) : table * option exn :=
  match batch st with
  | [] => (committed st, None)
  | _ :: _ =>
      match process_batch now (session st) (total_files st) (batch st) with
      | (session', _, None) => (session', None)
      | (_, _, Some e) => (committed st, Some e)
      end
  end.

(** The scan of one root directory: [store] is the table before the
    scan, [futures] the outcomes of [_extract_file_info] in the order of
    completion.  The result is the table afterwards and the exception
    that ended the command, if any. *)
Definition scan_path (now batch_size : Z) (store : table)
  (futures : list (result FileInfo)) : table * option exn :=
  scan_finish now
    (fold_left (scan_step now batch_size) futures
       {| committed := store; session := store;
          batch := []; total_files := 0 |}).

End Scan.

End Cli.


(* ================================================================== *)
(** * More of Python: [str.split], [str.rfind], [pathlib]              *)
(* ================================================================== *)

Module PyPath.

(** [s.split(sep)] for a one-character separator; the result always has
    at least one piece. *)
Fixpoint split_char (sep : ascii) (s : str) : list str :=
  match s with
  | [] => [[]]
  | c :: s' =>
      if Ascii.eqb c sep then [] :: split_char sep s'
      else
        match split_char sep s' with
        | piece :: rest => (c :: piece) :: rest
        | [] => [[c]]
        end
  end.

(** [s.rfind(c)] for one character; [None] stands for -1. *)
Fixpoint rfind (c : ascii) (s : str) : option nat :=
  match s with
  | [] => None
  | x :: s' =>
      match rfind c s' with
      | Some i => Some (S i)
      | None => if Ascii.eqb x c then Some 0 else None
      end
  end.

(** [PurePath(name).suffix] for a name without separators, as in pathlib
    up to Python 3.13: the text from the last dot on, unless that dot is
    the first or the last character of the name. *)
Definition suffix (name : str) : str :=
  match rfind "." name with
  | Some i =>
      if (0 <? i) && (i <? List.length name - 1) then skipn i name else []
  | None => []
  end.

End PyPath.

(* ================================================================== *)
(** * src/config.py                                                    *)
(* ================================================================== *)

Module ConfigFile.

Import PyPath.

Section Yaml.

(** The values of the loaded YAML document that are neither [None] nor a
    dictionary. *)
Variable scalar : Type.

(** What [yaml.safe_load] returns; a dictionary is the list of its items,
    with one item per key. *)
#[warnings="-register-all"] Inductive value :=
| VNone
| VScalar (v : scalar)
| VDict (entries : list (str * value)).

(** [d.get(k)] *)
Fixpoint lookup (k : str) (entries : list (str * value)) : value :=
  match entries with
  | [] => VNone
  | (k', v) :: rest => if str_eqb k' k then v else lookup k rest
  end.

(** The loop [for k in keys] of [Config.get]. *)
Fixpoint get_keys (keys : list str) (current default : value) : value :=
  match keys with
  | [] => current
  | k :: rest =>
      match current with
      | VDict entries =>
          match lookup k entries with
          | VNone => default
          | found => get_keys rest found default
          end
      | _ => default
      end
  end.

(** [Config.get(key, default)] on the loaded document [config]. *)
Definition get (config : value) (key : str) (default : value) : value :=
  get_keys (split_char "." key) config default.

End Yaml.

Arguments VNone {scalar}.

End ConfigFile.

(* ================================================================== *)
(** * src/scanner/scanner.py: the directory walk                       *)
(* ================================================================== *)

Module ScannerWalk.

Import PyPath Scanner.

(** The default of [quality.allowed_extensions]. *)
Definition default_extensions : list str :=
  [lit ".mkv"; lit ".mp4"; lit ".avi"; lit ".m4v"].

(** [_should_process_file]: the lower-cased suffix must be in the
    allow-list as it is written, and no ignore pattern, lower-cased, may
    occur in the lower-cased name. *)
Definition _should_process_file (allowed_extensions ignore_patterns : list str)
  (filename : str) : bool :=
  let ext := lower (suffix filename) in
  if negb (existsb (str_eqb ext) allowed_extensions) then false
  else if existsb (fun pattern => contains (lower pattern) (lower filename))
                  ignore_patterns
  then false
  else true.

(** [scan_directory]: [tree] lists the files below the path in the order
    of [os.walk], and is [None] when the path does not exist
    ([FileNotFoundError]). *)
Definition scan_directory `{MediaInfoLib} `{XXH64}
  (allowed_extensions ignore_patterns : list str)
  (tree : option (list File)) (media_type : str) : result (list FileInfo) :=
  match tree with
  | None => Raise OtherError
  | Some files =>
      Ok (map (fun file_path => _extract_file_info file_path media_type)
              (filter (fun file =>
                         _should_process_file allowed_extensions
                                              ignore_patterns (name file))
                      files))
  end.

End ScannerWalk.

(* ================================================================== *)
(** * src/web/app.py                                                   *)
(* ================================================================== *)

Module Web.

Import Scanner ScannerWalk Cli.

Section App.

Context `{MediaInfoLib} `{XXH64}.

Local Abbreviation MediaFile := (MediaFile float).

(** An entry of the list returned by [/api/files]. *)
Record FileJson := mkFileJson {
  json_id : Z;
  json_file_name : str;
  json_file_path : str;
  json_media_type : option str;
  json_resolution : str;
  json_file_size : Z;
  json_codec : option str;
  json_issues : nat
}.

(** [len([i for i in f.issues if not i.resolved])]: the rows of
    [media_issues], each with its [resolved] flag, that point to [f]. *)
Definition open_issues (issues : list (MediaIssue * bool)) (f : MediaFile)
  : nat :=
  List.length
    (filter (fun i => (media_file_id (fst i) =? id f)%Z && negb (snd i))
            issues).

(** One element of the list comprehension of [get_files]; reading
    [f.resolution] may raise. *)
Definition file_json (issues : list (MediaIssue * bool)) (f : MediaFile)
  : result FileJson :=
  bind (resolution f) (fun label =>
  Ok {| json_id := id f;
        json_file_name := file_name f;
        json_file_path := file_path f;
        json_media_type := media_type f;
        json_resolution := label;
        json_file_size := file_size f;
        json_codec := codec f;
        json_issues := open_issues issues f |}).

(** A list comprehension whose element expression may raise. *)
Fixpoint comprehension {A B} (f : A -> result B) (l : list A)
  : result (list B) :=
  match l with
  | [] => Ok []
  | x :: l' =>
      bind (f x) (fun y => bind (comprehension f l') (fun ys => Ok (y :: ys)))
  end.

(** [get_files]: [session.query(MediaFile).limit(100).all()] and the list
    comprehension over it. *)
Definition get_files (rows : table) (issues : list (MediaIssue * bool))
  : result (list FileJson) :=
  comprehension (file_json issues) (firstn 100 rows).

(** The loop [for file_info in scanner.scan_directory(...)] of
    [background_scan]: the same update or insert as in [cli.py], with no
    [try] around it. *)
Fixpoint upsert_all (now : Z) (rows : table) (infos : list FileInfo)
  : result table :=
  match infos with
  | [] => Ok rows
  | file_info :: rest =>
      bind (upsert now rows file_info) (fun rows' => upsert_all now rows' rest)
  end.

(** [background_scan]: every path is scanned with the media type
    ['auto'] and committed on its own; an exception ends the task and
    rolls back the changes of the path at hand.  [paths] gives, for each
    path, the files below it ([None] for a path that does not exist). *)
Fixpoint background_scan (now : Z)
  (allowed_extensions ignore_patterns : list str)
  (store : table) (paths : list (option (list File))) : table * option exn :=
  match paths with
  | [] => (store, None)
  | tree :: rest =>
      match bind (scan_directory allowed_extensions ignore_patterns tree
                                 (lit "auto"))
                 (upsert_all now store) with
      | Ok rows' =>
          background_scan now allowed_extensions ignore_patterns rows' rest
      | Raise e => (store, Some e)
      end
  end.

End App.

End Web.


(* ================================================================== *)
(** * Notions used in the statements                                   *)
(* ================================================================== *)

Module Notions.

Import Re Scanner Analyzer Cli.

Section Generic.

Context `{Difflib} {float : Type}.

Local Abbreviation MediaFile := (MediaFile float).

(** The issues of a result list that target the record [f]. *)
Definition issues_for (f : MediaFile) (issues : list MediaIssue)
  : list MediaIssue :=
  filter (fun i => (media_file_id i =? id f)%Z) issues.

(** A configuration file that sets none of the analyzer's keys. *)
Definition default_config : Config :=
  {| quality_min_resolution := None;
     quality_min_bitrate_1080p := None;
     similarity_threshold_key := None;
     use_filename_similarity := None;
     check_missing_episodes := None |}.

(** A row with the columns that the duplicate and quality checks read;
    the other nullable columns are NULL. *)
Definition row (key : Z) (name : str) (size : Z) (hash : option str)
  (height rate : option Z) (codec_name : option str) : MediaFile :=
  {| id := key; file_path := lit "/media/" ++ name; file_name := name;
     file_size := size; file_hash := hash;
     media_type := None; title := None; year := None;
     season := None; episode := None;
     resolution_width := None; resolution_height := height;
     codec := codec_name; bitrate := rate; duration := None;
     created_at := 0; scanned_at := 0 |}.

(** Three copies with the fingerprint [H]: heights 720, 1080, 1080 and
    bitrates absent, 3000, 5000. *)
Definition copy_720 (size : Z) : MediaFile :=
  row 1 (lit "a.mkv") size (Some (lit "H")) (Some 720%Z) None None.
Definition copy_1080_3000 (size : Z) : MediaFile :=
  row 2 (lit "b.mkv") size (Some (lit "H")) (Some 1080%Z) (Some 3000%Z) None.
Definition copy_1080_5000 (size : Z) : MediaFile :=
  row 3 (lit "c.mkv") size (Some (lit "H")) (Some 1080%Z) (Some 5000%Z) None.

(** The episode [e] of season [s] of the series [t] is in the store: some
    record of kind [tv] carries exactly these three values. *)
Definition observed (files : list MediaFile) (t : option str) (s e : Z)
  : Prop :=
  exists f, In f files
            /\ media_type f = Some (lit "tv")
            /\ title f = t /\ season f = Some s /\ episode f = Some e.

(** [e] is a gap of the group [(t, s)]: it is not observed and lies
    strictly between two observed episodes, that is, strictly inside the
    range from the minimum to the maximum. *)
Definition gap (files : list MediaFile) (t : option str) (s e : Z) : Prop :=
  ~ observed files t s e
  /\ exists lo hi, observed files t s lo /\ observed files t s hi
                   /\ (lo < e < hi)%Z.

(** One iteration of the loop that fills [series_episodes]. *)
Definition add_file (acc : list (option str * list (Z * list Z)))
  (file : MediaFile) : list (option str * list (Z * list Z)) :=
  match season file, episode file with
  | Some s, Some e => series_add (title file) s e acc
  | _, _ => acc
  end.

(** An issue of the near pass refers from the record [worse] to the
    record [better] of the table. *)
Definition refers_to_better (files : list MediaFile) (i : MediaIssue)
  : Prop :=
  exists better worse,
    In better files /\ In worse files
    /\ media_file_id i = id worse
    /\ duplicate_of_id i = Some (id better)
    /\ id better <> id worse
    /\ (or0 (resolution_height worse) <= or0 (resolution_height better))%Z
    /\ issue_type i = lit "duplicate"
    /\ severity i = lit "medium".

(** A [tv] record of one series and season. *)
Definition episode_row (key : Z) (show : str) (s e : Z) : MediaFile :=
  {| id := key; file_path := lit "/tv/" ++ str_of_Z key;
     file_name := str_of_Z key;
     file_size := 1; file_hash := None;
     media_type := Some (lit "tv"); title := Some show; year := None;
     season := Some s; episode := Some e;
     resolution_width := None; resolution_height := None;
     codec := None; bitrate := None; duration := None;
     created_at := 0; scanned_at := 0 |}.

End Generic.

(** A stand-in for difflib in closed examples: the ratio of two names is
    whether they are equal. *)
Definition equality_difflib : Difflib :=
  {| ratio_t := bool;
     ratio := str_eqb;
     ratio_geb := fun a b => implb b a;
     percent := fun a => if a then lit "100%" else lit "0%" |}.

Section Tracks.

Context `{MediaInfoLib}.

(** [track.track_type == 'Video'] and [track.track_type == 'Audio']. *)
Definition is_video (t : Track) : bool := str_eqb (track_type t) (lit "Video").
Definition is_audio (t : Track) : bool := str_eqb (track_type t) (lit "Audio").

(** The audio keys taken from the track [a]. *)
Definition audio_of (a : Track) : AudioDict :=
  {| audio_codec := or_str (format a) (codec_id a);
     audio_channels := channel_s a;
     audio_language := language a |}.

End Tracks.

(** The last [n] bytes of a file. *)
Definition last_window (n : nat) (content : bytes) : bytes :=
  firstn n (skipn (List.length content - n) content).

(** A stand-in for xxhash in closed examples: the state is the list of
    the chunks fed so far and the digest prints their lengths. *)
Definition chunk_list_hasher : XXH64 :=
  {| hasher := list bytes;
     xxh64 := [];
     update := fun h chunk => h ++ [chunk];
     hexdigest := fun h =>
       flat_map (fun chunk => str_of_Z (Z.of_nat (List.length chunk))
                               ++ lit ";") h |}.

(** A stand-in for pymediainfo values and floats in closed examples: an
    attribute is an integer, as pymediainfo returns numeric attributes,
    a float is a rational, zero is false and [float(x)] is exact. *)
Definition int_mediainfo : MediaInfoLib :=
  {| float := Q;
     attr := Z;
     attr_truthy := fun a => negb (a =? 0)%Z;
     float_of := fun a => Ok (inject_Z a);
     float_div := fun f n => Qdiv f (inject_Z n) |}.

(** A stand-in for pymediainfo values and floats in closed examples: an
    attribute is a text, a float is a rational, and [float(x)] accepts
    non-empty texts of decimal digits. *)
Definition digits_mediainfo : MediaInfoLib :=
  {| float := Q;
     attr := str;
     attr_truthy := fun a => negb (is_none (hd_error a));
     float_of := fun a =>
       if forallb is_digit a && negb (is_none (hd_error a))
       then Ok (inject_Z (int_of_digits a)) else Raise ValueError;
     float_div := fun f n => Qdiv f (inject_Z n) |}.

(** [e] is missing from the set [eps]: it is not in the set and lies
    strictly between two of its members. *)
Definition inner (eps : list Z) (e : Z) : Prop :=
  ~ In e eps /\ exists lo hi, In lo eps /\ In hi eps /\ (lo < e < hi)%Z.

(** Lookup in the two-level dictionary [series_episodes]. *)
Definition smember (seasons : list (Z * list Z)) (s e : Z) : Prop :=
  exists eps, In (s, eps) seasons /\ In e eps.

Definition member (all : list (option str * list (Z * list Z)))
  (t : option str) (s e : Z) : Prop :=
  exists seasons, In (t, seasons) all /\ smember seasons s e.

(** Keys are unique and no set is empty. *)
Definition wf_seasons (seasons : list (Z * list Z)) : Prop :=
  NoDup (map fst seasons) /\ Forall (fun p => snd p <> []) seasons.

Definition wf (all : list (option str * list (Z * list Z))) : Prop :=
  NoDup (map fst all) /\ Forall (fun p => wf_seasons (snd p)) all.

(** The group of an entry of the result. *)
Definition gap_key (g : SeriesGap) : option str * Z :=
  (series g, gap_season g).

Section Store.

Context `{MediaInfoLib}.

(** The paths of a table, in row order. *)
Definition paths (rows : table) : list str := map (@file_path float) rows.

(** The dictionaries of the futures that did not raise. *)
Definition infos_of (futures : list (result FileInfo)) : list FileInfo :=
  flat_map (fun r => match r with Ok i => [i] | Raise _ => [] end) futures.

(** The loop over the futures. *)
Definition run (now batch_size : Z) (futures : list (result FileInfo))
  (st : ScanState) : ScanState :=
  fold_left (scan_step now batch_size) futures st.

(** The state in which [scan_path] starts. *)
Definition start (store : table) : ScanState :=
  {| committed := store; session := store; batch := []; total_files := 0 |}.

(** The table already holds [info]: its integers fit, a row has its path
    and assigning the attributes again changes nothing. *)
Definition absorbs (rows : table) (info : FileInfo) : Prop :=
  storable info = true
  /\ In (info_file_path info) (paths rows)
  /\ update_first rows (info_file_path info) info = rows.

(** [info] cannot be stored: one of its integers does not fit, or it
    carries the audio keys and its path is neither in the table nor
    among the dictionaries [pre] that precede it in the batch. *)
Definition blocked_at (known : list str) (pre : list FileInfo)
  (info : FileInfo) : Prop :=
  storable info = false
  \/ (has_audio_keys info = true
      /\ ~ In (info_file_path info) known
      /\ ~ In (info_file_path info) (map info_file_path pre)).

(** The batch of the state holds a dictionary that cannot be stored. *)
Definition stuck (st : ScanState) : Prop :=
  exists pre info post,
    batch st = pre ++ info :: post
    /\ blocked_at (paths (session st)) pre info.

(** No batch has failed so far: nothing is pending in the session. *)
Definition clean (st : ScanState) : Prop := committed st = session st.

End Store.

(** ** Patterns and cuts *)

(** Three properties of a matcher [k], read as "the rest of a pattern":
    the reported length fits in the text; a match survives when text is
    appended; and the first successful attempt is the same on every
    prefix of the text that contains it. *)
Definition k_bound (k : str -> option nat) : Prop :=
  forall s n, k s = Some n -> n <= List.length s.

Definition k_ext (k : str -> option nat) : Prop :=
  forall s t n, k s = Some n -> k (s ++ t) <> None.

Definition k_trunc (k : str -> option nat) : Prop :=
  forall s n m, k s = Some n -> n <= m -> k (firstn m s) = Some n.

(** Where [re.split(p, s)[0]] ends: the start of the first match of [p]
    in [s], the length of [s] when there is none. *)
Definition first_start (p : regex) (s : str) : nat :=
  match search p s with
  | Some (i, _) => i
  | None => List.length s
  end.

(** The start of the lexically first match among the four patterns of
    the title, the length of the stem when none matches. *)
Definition lexically_first_cut (stem : str) : nat :=
  fold_right Nat.min (List.length stem)
             (map (fun p => first_start p stem) title_patterns).

(** Separators replaced by spaces, then trimmed. *)
Definition clean_title (name : str) : str :=
  strip (replace_char "_" " " (replace_char "." " " name)).

(** The title as the specification words it: the stem truncated at the
    lexically first match among the four patterns, cleaned. *)
Definition title_by_first_match (stem : str) : str :=
  clean_title (firstn (lexically_first_cut stem) stem).

(** The text begins with [19] or [20] followed by two digits. *)
Definition year_here (s : str) : bool :=
  match s with
  | a :: b :: c :: d :: _ =>
      ((Ascii.eqb "1" a && Ascii.eqb "9" b)
       || (Ascii.eqb "2" a && Ascii.eqb "0" b))
      && is_digit c && is_digit d
  | _ => false
  end.

(** The text begins with the letter [x] in either case followed by a
    digit. *)
Definition tag_here (upper lower_case : ascii) (s : str) : bool :=
  match s with
  | a :: d :: _ =>
      (Ascii.eqb a upper || Ascii.eqb a lower_case) && is_digit d
  | _ => false
  end.

(** The longest run of at most [n] digits at the beginning of the text. *)
Fixpoint leading_digits (n : nat) (s : str) : str :=
  match n, s with
  | S n', c :: s' => if is_digit c then c :: leading_digits n' s' else []
  | _, _ => []
  end.

(** [i] is the first position of [s] at which [here] holds. *)
Definition first_at (here : str -> bool) (s : str) (i : nat) : Prop :=
  here (skipn i s) = true /\ forall j, j < i -> here (skipn j s) = false.

(** The end of the text kept after applying the patterns [ps] one after
    another, each to the text kept so far, starting from the first [c]
    characters of [s]. *)
Definition seq_cut (ps : list regex) (s : str) (c : nat) : nat :=
  fold_left (fun c p => first_start p (firstn c s)) ps c.

End Notions.


(* ================================================================== *)
(** * Further notions used in the statements                           *)
(* ================================================================== *)

Module MoreNotions.

Import Re PyPath Scanner ScannerWalk Analyzer Cli Web Notions.

Section Rows.

Context `{MediaInfoLib}.

Local Abbreviation MediaFile := (MediaFile float).


(** The row that [new_media_file] builds for a dictionary without audio
    keys. *)
Definition fresh_row (now key : Z) (info : FileInfo) : MediaFile :=
  let field {A} (f : MediaDict -> option A) : option A :=
    match info_media info with Some md => f md | None => None end in
  {| id := key;
     file_path := info_file_path info;
     file_name := info_file_name info;
     file_size := info_file_size info;
     file_hash := Some (info_file_hash info);
     media_type := Some (info_media_type info);
     title := Some (info_title info);
     year := info_year info;
     season := info_season info;
     episode := info_episode info;
     resolution_width := field md_resolution_width;
     resolution_height := field md_resolution_height;
     codec := field md_codec;
     bitrate := field md_bitrate;
     duration := field md_duration;
     created_at := now;
     scanned_at := now |}.

(** The rows for a list of dictionaries, with consecutive keys from
    [key] on. *)
Fixpoint fresh_rows (now key : Z) (infos : list FileInfo) : list MediaFile :=
  match infos with
  | [] => []
  | info :: rest => fresh_row now key info :: fresh_rows now (key + 1) rest
  end.



(** The time stamps of a row. *)
Definition stamps (r : MediaFile) : Z * Z := (created_at r, scanned_at r).

(** The columns filled from the media dictionary. *)
Definition media_columns (r : MediaFile)
  : option Z * option Z * option str * option Z * option float :=
  (resolution_width r, resolution_height r, codec r, bitrate r, duration r).

(** Under the view [proj] of a row, the table [b] is the table [a]
    followed by rows whose view satisfies [Q]. *)
Definition grows {A : Type} (proj : MediaFile -> A) (Q : A -> Prop)
  (a b : list MediaFile) : Prop :=
  exists more, map proj b = map proj a ++ more /\ Forall Q more.

(** The row has no height: the file was stored without media
    information. *)
Definition null_height (r : MediaFile) : bool :=
  is_none (resolution_height r).


End Rows.

(** ** Sample dictionaries for the closed instances *)

(** A dictionary as [_extract_file_info] returns it for a movie at path
    [p], with the media part [media]. *)
Definition sample_info (p : string)
  (media : option (@MediaDict digits_mediainfo)) : @FileInfo digits_mediainfo :=
  {| info_file_path := lit p; info_file_name := lit p;
     info_file_size := 1; info_file_hash := lit "h";
     info_media_type := lit "movie"; info_title := lit p;
     info_year := None; info_season := None; info_episode := None;
     info_media := media |}.

(** The media part of a 1080p video, with the audio keys [audio]. *)
Definition sample_media (audio : option AudioDict)
  : @MediaDict digits_mediainfo :=
  {| md_resolution_width := Some 1920%Z;
     md_resolution_height := Some 1080%Z;
     md_codec := None; md_bitrate := None; md_duration := None;
     md_audio := audio |}.

(** The audio keys of a stereo track. *)
Definition sample_audio : AudioDict :=
  {| audio_codec := None; audio_channels := Some 2%Z;
     audio_language := None |}.

(** An episode file below a library path, with no readable tracks. *)
Definition sample_file : @File digits_mediainfo :=
  {| path := lit "/tv/Show.S01E01.mkv";
     name := lit "Show.S01E01.mkv";
     stem := lit "Show.S01E01";
     content := [];
     parsed := Ok [] |}.

(** The text [p] occurs in the text [s]. *)
Definition occurs (p s : str) : Prop :=
  exists before after, s = before ++ p ++ after.

(** The entry of the allow-list is written in lower case. *)
Definition is_lower (e : str) : bool := str_eqb (lower e) e.

(** The text has no white space at either end. *)
Definition trimmed (t : str) : Prop :=
  (forall c, hd_error t = Some c -> is_space c = false)
  /\ (forall c, hd_error (rev t) = Some c -> is_space c = false).

(** The pattern matches at no position of the text. *)
Definition no_match (p : regex) (s : str) : Prop :=
  forall j, match_here p (skipn j s) = None.

(** The item tests single characters only, with a class that cannot
    tell [c] from [f c]. *)
Definition atom_respects (f : ascii -> ascii) (a : atom) : Prop :=
  match a with
  | One k | Rep k _ _ | LazyStar k => forall c, in_cls k (f c) = in_cls k c
  | Alt _ => False
  end.

(** A movie file with one video track and one audio track. *)
Definition sample_movie : @File digits_mediainfo :=
  {| path := lit "/m/Film.2001.mkv";
     name := lit "Film.2001.mkv";
     stem := lit "Film.2001";
     content := [];
     parsed :=
       Ok [@mkTrack digits_mediainfo (lit "Video") (Some 1920%Z)
                    (Some 1080%Z) None None None None None None;
           @mkTrack digits_mediainfo (lit "Audio") None None None None None
                    None (Some 2%Z) None] |}.

Section Library.

Context `{Difflib} {float : Type}.

Local Abbreviation MediaFile := (MediaFile float).


(** The fingerprint of the record is [h]. *)
Definition has_hash (h : str) (f : MediaFile) : bool :=
  match file_hash f with
  | Some k => str_eqb k h
  | None => false
  end.

(** An issue of the exact pass refers from the record [dup] to the
    record [best] with the same fingerprint, and no record of the table
    with this fingerprint has a sort key above the one of [best]: none
    is lower, or as high with a smaller bitrate, or alike in both with a
    larger size. *)
Definition refers_to_lowest (files : list MediaFile) (i : MediaIssue)
  : Prop :=
  exists best dup h,
    In best files /\ In dup files /\ h <> []
    /\ file_hash best = Some h /\ file_hash dup = Some h
    /\ media_file_id i = id dup
    /\ duplicate_of_id i = Some (id best)
    /\ issue_type i = lit "duplicate"
    /\ severity i = lit "high"
    /\ description i = lit "Duplicate of " ++ file_name best
    /\ (NoDup (map (@id float) files) -> id best <> id dup)
    /\ forall x, In x files -> file_hash x = Some h ->
                 key3_ltb (rank_key best) (rank_key x) = false
                 /\ (or0 (resolution_height best)
                     <= or0 (resolution_height x))%Z.

(** The pairs [(file1, file2)] with [file1] before [file2] in the list,
    in the order of the two nested loops. *)
Fixpoint all_pairs (files : list MediaFile) : list (MediaFile * MediaFile) :=
  match files with
  | [] => []
  | file1 :: rest => map (pair file1) rest ++ all_pairs rest
  end.

(** What the body of the inner loop adds for a pair that was not
    checked before. *)
Definition pair_issues (config : Config) (threshold : ratio_t)
  (pr : MediaFile * MediaFile) : list MediaIssue :=
  snd (similar_step config threshold (fst pr) ([], []) (snd pr)).

End Library.

Section Document.

Variable scalar : Type.

(** [v] is what the document [config] holds at the end of the path
    [keys]: every step but the last goes into a dictionary, by the key
    of the step. *)
Inductive at_path
  : ConfigFile.value scalar -> list str -> ConfigFile.value scalar -> Prop :=
| at_here (v : ConfigFile.value scalar) : at_path v [] v
| at_key (entries : list (str * ConfigFile.value scalar)) (k : str)
    (keys : list str) (v : ConfigFile.value scalar) :
    at_path (ConfigFile.lookup k entries) keys v ->
    at_path (ConfigFile.VDict entries) (k :: keys) v.

End Document.

End MoreNotions.
(* ================================================================== *)
(** * Properties of the models ([src/database.py])                     *)
(* ================================================================== *)

Module DatabaseSpec.

(** C10: the [resolution] property raises [TypeError] for a record whose
    [resolution_height] is [None]; for a present height it always returns
    one of the five labels, chosen by the thresholds 2160, 1080, 720 and
    480. *)
Theorem resolution_total_on_present_height :
  forall (float : Type) (self : MediaFile float),
    match resolution_height self with
    | None => resolution self = Raise TypeError
    | Some h =>
        (2160 <= h /\ resolution self = Ok (lit "4K"))
        \/ (1080 <= h < 2160 /\ resolution self = Ok (lit "1080p"))
        \/ (720 <= h < 1080 /\ resolution self = Ok (lit "720p"))
        \/ (480 <= h < 720 /\ resolution self = Ok (lit "480p"))
        \/ (h < 480 /\ resolution self = Ok (lit "SD"))
    end%Z.
Proof.
  intros float self. unfold resolution.
  destruct (resolution_height self) as [h|]; [|reflexivity].
  destruct (h >=? 2160)%Z eqn:E1; [left; split; [lia|reflexivity]|right].
  destruct (h >=? 1080)%Z eqn:E2; [left; split; [lia|reflexivity]|right].
  destruct (h >=? 720)%Z eqn:E3; [left; split; [lia|reflexivity]|right].
  destruct (h >=? 480)%Z eqn:E4; [left; split; [lia|reflexivity]|right].
  split; [lia|reflexivity].
Qed.

End DatabaseSpec.


(* ================================================================== *)
(** * Properties of the analyzer ([src/analyzer/analyzer.py])          *)
(* ================================================================== *)

Module AnalyzerSpec.

Import Analyzer Notions.

Section Issues.

Context `{Difflib} {float : Type}.

Local Abbreviation MediaFile := (MediaFile float).

Lemma issues_for_absent (g : MediaFile -> list MediaIssue)
  (f : MediaFile) (files : list MediaFile) :
  (forall x i, In i (g x) -> media_file_id i = id x) ->
  ~ In (id f) (map (@id float) files) ->
  issues_for f (flat_map g files) = [].
Proof.
  intros Hg. induction files as [|x files IH]; simpl; intros Hnot.
  - reflexivity.
  - unfold issues_for in *. rewrite filter_app, IH by tauto.
    rewrite app_nil_r.
    assert (Hx : id x <> id f) by tauto.
    assert (Hall : forall i, In i (g x) -> media_file_id i = id x)
      by (intros; now apply Hg).
    clear - Hx Hall.
    induction (g x) as [|i l IHl]; simpl; [reflexivity|].
    rewrite (Hall i) by (now left).
    destruct (Z.eqb_spec (id x) (id f)); [contradiction|].
    apply IHl. intros; apply Hall; now right.
Qed.

Lemma issues_for_own (g : MediaFile -> list MediaIssue) (f : MediaFile) :
  (forall x i, In i (g x) -> media_file_id i = id x) ->
  issues_for f (g f) = g f.
Proof.
  intros Hg. unfold issues_for.
  assert (Hall : forall i, In i (g f) -> media_file_id i = id f)
    by (intros; now apply Hg).
  clear Hg. induction (g f) as [|i l IHl]; simpl; [reflexivity|].
  rewrite (Hall i) by (now left). rewrite Z.eqb_refl.
  f_equal. apply IHl. intros; apply Hall; now right.
Qed.

(** Per-record checks: with unique keys, the issues that target a record
    of the table are exactly the ones its own check produced. *)
Lemma issues_for_flat_map (g : MediaFile -> list MediaIssue)
  (f : MediaFile) (files : list MediaFile) :
  (forall x i, In i (g x) -> media_file_id i = id x) ->
  NoDup (map (@id float) files) ->
  In f files ->
  issues_for f (flat_map g files) = g f.
Proof.
  intros Hg. induction files as [|x files IH]; simpl; intros Hnd Hin.
  - contradiction.
  - inversion Hnd as [|? ? Hx Hnd']; subst.
    unfold issues_for. rewrite filter_app. fold (issues_for f (g x)).
    fold (issues_for f (flat_map g files)).
    destruct Hin as [->|Hin].
    + rewrite issues_for_own, issues_for_absent by assumption.
      apply app_nil_r.
    + rewrite IH by assumption.
      assert (Hne : id x <> id f).
      { intros Heq. apply Hx. rewrite Heq. now apply in_map. }
      replace (issues_for f (g x)) with (@nil MediaIssue); [reflexivity|].
      symmetry. apply (issues_for_absent g f [x]) in Hg.
      * simpl in Hg. now rewrite app_nil_r in Hg.
      * simpl. tauto.
Qed.

Lemma find_low_resolution_flat_map config files :
  find_low_resolution config files
  = flat_map (fun x : MediaFile =>
                if below_minimum config x
                then [low_res_issue config x] else []) files.
Proof.
  unfold find_low_resolution.
  induction files as [|x files IH]; simpl; [reflexivity|].
  destruct (below_minimum config x); simpl; now rewrite IH.
Qed.

(** C6: the minimum is the value of [quality.min_resolution] in the
    configuration, and 1080 when the key is absent.  With the keys of the
    table unique, a record whose height is below this minimum is the
    target of exactly one issue of [find_low_resolution]: kind [low_res],
    severity [high], and a description that ends with the minimum
    followed by [p]; a record whose height equals or exceeds the minimum
    is the target of none. *)
Theorem find_low_resolution_spec :
  forall (config : Config) (files : list MediaFile) (f : MediaFile) (h : Z),
    NoDup (map (@id float) files) ->
    In f files ->
    resolution_height f = Some h ->
    let issues := issues_for f (find_low_resolution config files) in
    min_resolution config
    = match quality_min_resolution config with
      | Some configured => configured
      | None => 1080%Z
      end
    /\ ((h < min_resolution config)%Z ->
        exists i, issues = [i]
          /\ media_file_id i = id f
          /\ issue_type i = lit "low_res"
          /\ severity i = lit "high"
          /\ description i
             = lit "Resolution " ++ str_of_Z h ++ lit "p is below minimum "
               ++ str_of_Z (min_resolution config) ++ lit "p")
    /\ ((min_resolution config <= h)%Z -> issues = []).
Proof.
  intros config files f h Hnd Hin Hh issues.
  assert (Hissues : issues = if below_minimum config f
                             then [low_res_issue config f] else []).
  { unfold issues. rewrite find_low_resolution_flat_map.
    apply issues_for_flat_map; try assumption.
    intros x i. destruct (below_minimum config x); simpl; [|tauto].
    intros [<-|[]]. reflexivity. }
  unfold below_minimum in Hissues. rewrite Hh in Hissues.
  split; [|split].
  - reflexivity.
  - intros Hlt. apply Z.ltb_lt in Hlt. rewrite Hlt in Hissues.
    exists (low_res_issue config f). rewrite Hissues.
    repeat split. unfold low_res_issue; simpl. now rewrite Hh.
  - intros Hge. apply Z.ltb_ge in Hge. now rewrite Hge in Hissues.
Qed.

(** C8, as amended: the floor is the value of
    [quality.min_bitrate_1080p] in the configuration, 2000 when the key
    is absent, times 1000 (the key is in kbit/s, the comparison in
    bit/s).  A record of height exactly 1080 whose bitrate is present,
    not zero and below this floor is the target of a [quality] issue of
    severity [medium]; the issue is there whether or not the codec check
    fired, and comes after the codec issue when both fire. *)
Theorem find_quality_issues_low_bitrate :
  forall (config : Config) (files : list MediaFile) (f : MediaFile) (b : Z),
    NoDup (map (@id float) files) ->
    In f files ->
    resolution_height f = Some 1080%Z ->
    bitrate f = Some b ->
    b <> 0%Z ->
    (b < min_bitrate config)%Z ->
    min_bitrate config
    = (match quality_min_bitrate_1080p config with
       | Some configured => configured
       | None => 2000
       end * 1000)%Z
    /\ issues_for f (find_quality_issues config files)
       = (if has_old_codec f then [old_codec_issue f] else [])
         ++ [low_bitrate_issue f]
    /\ media_file_id (low_bitrate_issue f) = id f
    /\ issue_type (low_bitrate_issue f) = lit "quality"
    /\ severity (low_bitrate_issue f) = lit "medium"
    /\ issue_type (old_codec_issue f) = lit "quality"
    /\ severity (old_codec_issue f) = lit "medium".
Proof.
  intros config files f b Hnd Hin Hh Hb Hnz Hlt.
  split; [|split; [|repeat split]].
  - reflexivity.
  - unfold find_quality_issues.
    rewrite issues_for_flat_map; try assumption.
    + unfold quality_issues_of. f_equal.
      unfold has_low_bitrate. rewrite Hh, Hb. simpl.
      apply Z.eqb_neq in Hnz. rewrite Hnz. simpl.
      apply Z.ltb_lt in Hlt. now rewrite Hlt.
    + intros x i. unfold quality_issues_of.
      destruct (has_old_codec x), (has_low_bitrate config x); simpl;
        intuition; subst; reflexivity.
Qed.

(** ** The near pass *)

Lemma similar_step_refers (config : Config) (threshold : ratio_t)
  (files : list MediaFile) (file1 file2 : MediaFile)
  (st : list (Z * Z) * list MediaIssue) :
  In file1 files -> In file2 files -> id file1 <> id file2 ->
  Forall (refers_to_better files) (snd st) ->
  Forall (refers_to_better files)
         (snd (similar_step config threshold file1 st file2)).
Proof.
  intros H1 H2 Hne Hall. destruct st as [checked issues].
  unfold similar_step.
  destruct (existsb _ checked); [exact Hall|].
  destruct (ratio_geb _ _); [|exact Hall].
  cbn [snd] in *. apply Forall_app. split; [exact Hall|].
  constructor; [|constructor].
  destruct (or0 (resolution_height file1) >=? or0 (resolution_height file2))%Z
    eqn:E.
  - exists file1, file2. cbn. repeat split; try assumption. lia.
  - exists file2, file1. cbn. repeat split; try assumption;
      [congruence | lia].
Qed.

(** With unique keys, every issue of the near pass refers from one record
    of the table to another one whose height is not smaller. *)
Lemma find_similar_filenames_refers (config : Config) (threshold : ratio_t)
  (files : list MediaFile) :
  NoDup (map (@id float) files) ->
  Forall (refers_to_better files)
         (_find_similar_filenames config threshold files).
Proof.
  intros Hnd. unfold _find_similar_filenames.
  assert (Hloop : forall l st,
             (forall x, In x l -> In x files) ->
             NoDup (map (@id float) l) ->
             Forall (refers_to_better files) (snd st) ->
             Forall (refers_to_better files)
                    (snd (similar_loop config threshold l st))).
  { induction l as [|file1 rest IH]; intros st Hsub Hl Hst; [exact Hst|].
    cbn [similar_loop]. inversion Hl as [|? ? Hnot Hrest]; subst.
    apply IH; [intros x Hx; apply Hsub; now right | exact Hrest |].
    assert (Hfold : forall l' st',
               (forall x, In x l' -> In x rest) ->
               Forall (refers_to_better files) (snd st') ->
               Forall (refers_to_better files)
                      (snd (fold_left (similar_step config threshold file1)
                                      l' st'))).
    { induction l' as [|file2 l' IH']; intros st' Hsub' Hst';
        [exact Hst'|].
      cbn [fold_left]. apply IH'; [intros x Hx; apply Hsub'; now right|].
      apply similar_step_refers; try assumption.
      - apply Hsub. now left.
      - apply Hsub. right. apply Hsub'. now left.
      - intros Heq. apply Hnot. rewrite Heq. apply in_map, Hsub'. now left. }
    apply Hfold; [tauto | exact Hst]. }
  apply Hloop; [tauto | exact Hnd | constructor].
Qed.

(** C1: on three copies with one fingerprint, heights 720, 1080, 1080 and
    bitrates absent, 3000, 5000, whatever their sizes, [find_duplicates]
    takes the 720 copy as [best_file] and reports both 1080 copies as
    duplicates of it.  The key of the sort negates height and bitrate and
    the sort is also called with [reverse=True], so the order is the
    inverse of (height descending, bitrate descending, size ascending). *)
Theorem find_duplicates_picks_lowest_ranked :
  forall (threshold : ratio_t) (s1 s2 s3 : Z),
    find_duplicates default_config threshold
      ([copy_720 s1; copy_1080_3000 s2; copy_1080_5000 s3] : list MediaFile)
    = [ {| media_file_id := 2; issue_type := lit "duplicate";
           severity := lit "high";
           description := lit "Duplicate of a.mkv";
           duplicate_of_id := Some 1%Z |};
        {| media_file_id := 3; issue_type := lit "duplicate";
           severity := lit "high";
           description := lit "Duplicate of a.mkv";
           duplicate_of_id := Some 1%Z |} ].
Proof. intros. reflexivity. Qed.

(** C9: on the same three copies every issue of the exact pass refers to
    a record other than its target, but the record it refers to has the
    smaller height: it is the one ranked last, not the superior one. *)
Theorem duplicate_of_refers_to_inferior_copy :
  forall (threshold : ratio_t) (s1 s2 s3 : Z),
    let files : list MediaFile :=
      [copy_720 s1; copy_1080_3000 s2; copy_1080_5000 s3] in
    let issues := find_duplicates default_config threshold files in
    List.length issues = 2
    /\ Forall
         (fun i =>
            exists target better : MediaFile,
              In target files /\ In better files
              /\ media_file_id i = id target
              /\ duplicate_of_id i = Some (id better)
              /\ id better <> id target
              /\ (or0 (resolution_height better)
                  < or0 (resolution_height target))%Z)
         issues.
Proof.
  intros threshold s1 s2 s3 files issues. split; [reflexivity|].
  repeat constructor.
  - exists (copy_1080_3000 s2), (copy_720 s1). simpl.
    repeat split; auto; try discriminate; lia.
  - exists (copy_1080_5000 s3), (copy_720 s1). simpl.
    repeat split; auto; try discriminate; lia.
Qed.

End Issues.

(** ** Closed instances *)

(** A 720 row and a 1080 row under the default minimum: one [low_res]
    issue for the first, none for the second.  Under a configured
    minimum of 2160 the 1080 row gets the issue, which names 2160. *)
Lemma find_low_resolution_spec_witness :
  let low : MediaFile unit := copy_720 100 in
  let full : MediaFile unit := copy_1080_3000 100 in
  let config := @default_config equality_difflib in
  let strict : @Config equality_difflib :=
    {| quality_min_resolution := Some 2160%Z;
       quality_min_bitrate_1080p := None;
       similarity_threshold_key := None;
       use_filename_similarity := None;
       check_missing_episodes := None |} in
  (exists i,
      issues_for low (find_low_resolution config [low; full]) = [i]
      /\ media_file_id i = 1%Z
      /\ issue_type i = lit "low_res"
      /\ severity i = lit "high"
      /\ description i = lit "Resolution 720p is below minimum 1080p")
  /\ issues_for full (find_low_resolution config [low; full]) = []
  /\ min_resolution strict = 2160%Z
  /\ (exists i,
         issues_for full (find_low_resolution strict [low; full]) = [i]
         /\ description i = lit "Resolution 1080p is below minimum 2160p").
Proof.
  intros low full config strict. split; [|split].
  - destruct (find_low_resolution_spec config [low; full] low (h := 720))
      as (_ & Hlow & _).
    + repeat constructor; simpl; intuition discriminate.
    + simpl; auto.
    + reflexivity.
    + apply Hlow. reflexivity.
  - destruct (find_low_resolution_spec config [low; full] full (h := 1080))
      as (_ & _ & Hok).
    + repeat constructor; simpl; intuition discriminate.
    + simpl; auto.
    + reflexivity.
    + apply Hok. discriminate.
  - destruct (find_low_resolution_spec strict [low; full] full (h := 1080))
      as (Hmin & Hlow & _).
    + repeat constructor; simpl; intuition discriminate.
    + simpl; auto.
    + reflexivity.
    + split; [exact Hmin|].
      destruct (Hlow eq_refl) as (i & Hi & _ & _ & _ & Hd).
      exists i. split; [exact Hi | exact Hd].
Defined.

(** C8, the claim as stated fails: a row of height 1080 with the recorded
    bitrate 0, which is below the floor of 2000000, gets no issue, because
    [file.bitrate] is tested for truth before the comparison. *)
Lemma zero_bitrate_is_not_reported :
  let f : MediaFile unit :=
    row 7 (lit "z.mkv") 100 None (Some 1080%Z) (Some 0%Z) None in
  let config := @default_config equality_difflib in
  resolution_height f = Some 1080%Z
  /\ bitrate f = Some 0%Z
  /\ (0 < min_bitrate config)%Z
  /\ find_quality_issues config [f] = [].
Proof. repeat split. Qed.

(** An XviD encode of height 1080 at 1500000 bit/s gets both issues.
    Under a configured floor of 5000 kbit/s a row at 3000000 bit/s gets
    the bitrate issue. *)
Lemma find_quality_issues_low_bitrate_witness :
  let f : MediaFile unit :=
    row 8 (lit "x.avi") 100 None (Some 1080%Z) (Some 1500000%Z)
        (Some (lit "XviD")) in
  let g : MediaFile unit :=
    row 9 (lit "y.mkv") 100 None (Some 1080%Z) (Some 3000000%Z) None in
  let config := @default_config equality_difflib in
  let strict : @Config equality_difflib :=
    {| quality_min_resolution := None;
       quality_min_bitrate_1080p := Some 5000%Z;
       similarity_threshold_key := None;
       use_filename_similarity := None;
       check_missing_episodes := None |} in
  (min_bitrate config = 2000000%Z
   /\ issues_for f (find_quality_issues config [copy_720 100; f])
      = [old_codec_issue f; low_bitrate_issue f])
  /\ (min_bitrate strict = 5000000%Z
      /\ issues_for g (find_quality_issues strict [g])
         = [low_bitrate_issue g]).
Proof.
  intros f g config strict. split.
  - destruct (find_quality_issues_low_bitrate config [copy_720 100; f] f
                (b := 1500000)) as (Hfloor & Hissues & _).
    + repeat constructor; simpl; intuition discriminate.
    + simpl; auto.
    + reflexivity.
    + reflexivity.
    + discriminate.
    + reflexivity.
    + split; [exact Hfloor | exact Hissues].
  - destruct (find_quality_issues_low_bitrate strict [g] g (b := 3000000))
      as (Hfloor & Hissues & _).
    + repeat constructor. intros [].
    + now left.
    + reflexivity.
    + reflexivity.
    + discriminate.
    + reflexivity.
    + split; [exact Hfloor | exact Hissues].
Defined.

End AnalyzerSpec.


(* ================================================================== *)
(** * Properties of the scanner ([src/scanner/scanner.py])             *)
(* ================================================================== *)

Module ScannerSpec.

Import Re Scanner Notions.

(** ** Track metadata *)

Section Tracks.

Context `{MediaInfoLib}.

Lemma video_is_not_audio (t : Track) : is_video t = true -> is_audio t = false.
Proof.
  unfold is_video, is_audio, str_eqb.
  destruct (list_eq_dec ascii_dec (track_type t) (lit "Video")) as [->|];
    [reflexivity | discriminate].
Qed.

(** The loop over the tracks keeps the first track of each kind. *)
Lemma fold_pick (tracks : list Track) (v a : option Track) :
  fold_left pick tracks (v, a)
  = (match v with Some _ => v | None => find is_video tracks end,
     match a with Some _ => a | None => find is_audio tracks end).
Proof.
  revert v a. induction tracks as [|t tracks IH]; intros v a.
  - now destruct v, a.
  - cbn [fold_left find]. unfold pick at 2.
    fold (is_video t). fold (is_audio t).
    destruct (is_video t) eqn:Ev.
    + rewrite (video_is_not_audio _ Ev).
      destruct v; cbn [is_none andb]; rewrite IH; reflexivity.
    + cbn [andb]. destruct (is_audio t) eqn:Ea; cbn [andb].
      * destruct a; cbn [is_none]; rewrite IH; reflexivity.
      * rewrite IH; reflexivity.
Qed.

Lemma find_first (P : Track -> bool) pre x post :
  Forall (fun t => P t = false) pre -> P x = true ->
  find P (pre ++ x :: post) = Some x.
Proof.
  induction 1 as [|t pre Ht _ IH]; intros Hx; simpl.
  - now rewrite Hx.
  - rewrite Ht. now apply IH.
Qed.

(** [_get_media_info] in terms of the first video and audio tracks. *)
Lemma get_media_info_unfold (tracks : list Track) :
  _get_media_info (Ok tracks)
  = match find is_video tracks with
    | None => None
    | Some v =>
        match duration_of v with
        | Raise _ => None
        | Ok d =>
            Some {| md_resolution_width := width v;
                    md_resolution_height := height v;
                    md_codec := or_str (codec_id v) (format v);
                    md_bitrate := bit_rate v;
                    md_duration := d;
                    md_audio := option_map audio_of (find is_audio tracks) |}
        end
    end.
Proof.
  unfold _get_media_info, media_info_body. cbn [bind].
  rewrite fold_pick.
  destruct (find is_video tracks) as [v|]; [|reflexivity].
  destruct (duration_of v) as [d|e]; cbn [bind]; [|reflexivity].
  now destruct (find is_audio tracks).
Qed.

(** C7, as amended: [_get_media_info] returns [None] when parsing raises
    and when no track is a video track.  Otherwise the first video track
    [v] in declaration order decides: a duration that is true and
    converts to the float [f] is stored as [f / 1000]; one that is
    missing or false (zero, empty), or whose conversion raises
    [ValueError] or [TypeError], is stored as absent while the other keys
    are still returned; and every returned dictionary takes width,
    height, codec and bitrate from [v] and the audio keys from the first
    audio track; later tracks of either kind have no influence. *)
Theorem get_media_info_soft_failure :
  (forall e, _get_media_info (Raise e) = None)
  /\ (forall tracks,
        Forall (fun t => is_video t = false) tracks ->
        _get_media_info (Ok tracks) = None)
  /\ (forall pre v post,
        Forall (fun t => is_video t = false) pre ->
        is_video v = true ->
        let tracks := pre ++ v :: post in
        (forall a f,
            t_duration v = Some a -> attr_truthy a = true ->
            float_of a = Ok f ->
            exists r, _get_media_info (Ok tracks) = Some r
                      /\ md_duration r = Some (float_div f 1000))
        /\ (forall a e,
              t_duration v = Some a -> attr_truthy a = true ->
              float_of a = Raise e -> e = ValueError \/ e = TypeError ->
              exists r, _get_media_info (Ok tracks) = Some r
                        /\ md_duration r = None)
        /\ ((t_duration v = None
             \/ exists a, t_duration v = Some a /\ attr_truthy a = false) ->
            exists r, _get_media_info (Ok tracks) = Some r
                      /\ md_duration r = None)
        /\ (forall r,
              _get_media_info (Ok tracks) = Some r ->
              md_resolution_width r = width v
              /\ md_resolution_height r = height v
              /\ md_codec r = or_str (codec_id v) (format v)
              /\ md_bitrate r = bit_rate v)
        /\ (forall pre' a post' r,
              tracks = pre' ++ a :: post' ->
              Forall (fun t => is_audio t = false) pre' ->
              is_audio a = true ->
              _get_media_info (Ok tracks) = Some r ->
              md_audio r = Some (audio_of a))).
Proof.
  split; [reflexivity|]. split.
  - intros tracks Hno. rewrite get_media_info_unfold.
    replace (find is_video tracks) with (@None Track); [reflexivity|].
    symmetry. induction Hno as [|t l Ht _ IH]; simpl; [reflexivity|].
    now rewrite Ht.
  - intros pre v post Hpre Hv tracks.
    assert (Hfind : find is_video tracks = Some v)
      by (now apply find_first).
    assert (Hkeys : forall r,
               _get_media_info (Ok tracks) = Some r ->
               exists d,
                 r = {| md_resolution_width := width v;
                        md_resolution_height := height v;
                        md_codec := or_str (codec_id v) (format v);
                        md_bitrate := bit_rate v;
                        md_duration := d;
                        md_audio :=
                          option_map audio_of (find is_audio tracks) |}).
    { intros r. rewrite get_media_info_unfold, Hfind.
      destruct (duration_of v) as [d|]; [|discriminate].
      intros Hr. injection Hr as <-. now exists d. }
    split; [|split; [|split; [|split]]].
    + intros a f Ha Ht Hf. rewrite get_media_info_unfold, Hfind.
      unfold duration_of. rewrite Ha, Ht, Hf. eexists; split; reflexivity.
    + intros a e Ha Ht Hf He. rewrite get_media_info_unfold, Hfind.
      unfold duration_of. rewrite Ha, Ht, Hf.
      destruct He as [-> | ->]; eexists; split; reflexivity.
    + intros Hfalse. rewrite get_media_info_unfold, Hfind.
      unfold duration_of. destruct Hfalse as [->|(a & -> & ->)];
        eexists; split; reflexivity.
    + intros r Hr. destruct (Hkeys r Hr) as [d ->]. repeat split.
    + intros pre' a post' r Htracks Hpre' Ha Hr.
      destruct (Hkeys r Hr) as [d ->]. cbn [md_audio].
      rewrite Htracks, (find_first is_audio) by assumption. reflexivity.
Qed.

End Tracks.

(** ** Content fingerprint *)

Section Fingerprint.

Context `{XXH64}.

Lemma calculate_hash_windows (n : nat) (c1 c2 : bytes) :
  List.length c1 = List.length c2 ->
  firstn n c1 = firstn n c2 ->
  (n * 2 < List.length c1 -> last_window n c1 = last_window n c2) ->
  _calculate_hash c1 n = _calculate_hash c2 n.
Proof.
  intros Hlen Hfirst Hlast. unfold _calculate_hash.
  rewrite <- Hlen, <- Hfirst.
  destruct (n * 2 <? List.length c1) eqn:E; [|reflexivity].
  apply Nat.ltb_lt in E. specialize (Hlast E).
  unfold last_window in Hlast. rewrite <- Hlen in Hlast.
  now rewrite Hlast.
Qed.

(** C3: two files of equal size with the same first 8 KiB and, when the
    size exceeds 16 KiB, the same last 8 KiB have the same fingerprint,
    whatever the bytes in between; the fingerprint is a function of the
    content, so hashing a file twice gives the same value; and the empty
    file has a fingerprint, the digest after feeding the text [0] and an
    empty read. *)
Theorem calculate_hash_is_a_function_of_size_and_windows :
  (forall c1 c2 : bytes,
      List.length c1 = List.length c2 ->
      firstn chunk_size_default c1 = firstn chunk_size_default c2 ->
      (chunk_size_default * 2 < List.length c1 ->
       last_window chunk_size_default c1 = last_window chunk_size_default c2) ->
      _calculate_hash c1 chunk_size_default
      = _calculate_hash c2 chunk_size_default)
  /\ (forall c1 c2 : bytes,
        c1 = c2 ->
        _calculate_hash c1 chunk_size_default
        = _calculate_hash c2 chunk_size_default)
  /\ _calculate_hash [] chunk_size_default
     = hexdigest (update (update xxh64 (encode (lit "0"))) [])
  /\ Z.of_nat chunk_size_default = 8192%Z.
Proof.
  split; [|split; [|split]].
  - intros c1 c2. apply calculate_hash_windows.
  - now intros c1 c2 ->.
  - reflexivity.
  - reflexivity.
Qed.

End Fingerprint.

(** A file made of a head, a middle part and a tail of [n] bytes. *)
Lemma sandwich_first (n : nat) (head rest : bytes) :
  List.length head = n -> firstn n (head ++ rest) = head.
Proof.
  intros <-. rewrite firstn_app, Nat.sub_diag, firstn_all. simpl.
  apply app_nil_r.
Defined.

Lemma sandwich_last (head middle tail : bytes) (n : nat) :
  List.length tail = n ->
  last_window n (head ++ middle ++ tail) = tail.
Proof.
  intros <-. unfold last_window.
  rewrite !length_app.
  replace (List.length head + (List.length middle + List.length tail)
           - List.length tail)
    with (List.length (head ++ middle)) by (rewrite length_app; lia).
  rewrite app_assoc, skipn_app, skipn_all, Nat.sub_diag. simpl.
  apply firstn_all.
Defined.

(** ** Closed instances *)

(** A container that declares a general track, a video track with the
    duration 5400000, an audio track, and then a second video and a
    second audio track: the first of each kind is used. *)
Lemma get_media_info_soft_failure_witness :
  let track kind h d lang : @Track digits_mediainfo :=
    {| track_type := lit kind; width := None; height := h;
       codec_id := None; format := None; bit_rate := None;
       t_duration := d; channel_s := None; language := lang |} in
  let general := track "General"%string None None None in
  let video1 := track "Video"%string (Some 1080%Z) (Some (lit "5400000")) None in
  let audio1 := track "Audio"%string None None (Some (lit "en")) in
  let video2 := track "Video"%string (Some 480%Z) (Some (lit "n/a")) None in
  let audio2 := track "Audio"%string None None (Some (lit "fr")) in
  let broken := track "Video"%string (Some 720%Z) (Some (lit "n/a")) None in
  (exists r,
      _get_media_info (Ok [general; video1; audio1; video2; audio2]) = Some r
      /\ md_duration r = Some (Qdiv (inject_Z 5400000) (inject_Z 1000))
      /\ md_resolution_height r = Some 1080%Z
      /\ md_audio r = Some (audio_of audio1))
  /\ (exists r,
        _get_media_info (Ok [broken; audio1]) = Some r
        /\ md_duration r = None)
  /\ _get_media_info (Ok [general; audio1]) = None.
Proof.
  intros track general video1 audio1 video2 audio2 broken.
  destruct (@get_media_info_soft_failure digits_mediainfo)
    as (_ & Hnone & Hfirst).
  split; [|split].
  - destruct (Hfirst [general] video1 [audio1; video2; audio2])
      as (Hdur & _ & _ & Hkeys & Haudio).
    + repeat constructor.
    + reflexivity.
    + destruct (Hdur (lit "5400000") (inject_Z 5400000)) as (r & Hr & Hd);
        try reflexivity.
      exists r. split; [exact Hr|]. split; [exact Hd|]. split.
      * apply (Hkeys r Hr).
      * apply (Haudio [general; video1] audio1 [video2; audio2] r);
          try reflexivity; [repeat constructor | exact Hr].
  - destruct (Hfirst [] broken [audio1]) as (_ & Hbad & _).
    + constructor.
    + reflexivity.
    + apply (Hbad (lit "n/a") ValueError); try reflexivity. now left.
  - apply Hnone. repeat constructor.
Defined.

(** C7, the claim as stated fails: a video track whose duration is the
    integer 0 converts to a number, but the stored duration is absent,
    not 0 / 1000, because [video_track.duration] is tested for truth
    first. *)
Lemma zero_duration_is_absent :
  let v : @Track int_mediainfo :=
    @mkTrack int_mediainfo (lit "Video") (Some 1920%Z) (Some 1080%Z)
             None None None (Some 0%Z) None None in
  @float_of int_mediainfo 0%Z = Ok (inject_Z 0)
  /\ exists r, _get_media_info (Ok [v]) = Some r
               /\ md_duration r = None
               /\ md_duration r
                  <> Some (@float_div int_mediainfo (inject_Z 0) 1000).
Proof.
  intros v. split; [reflexivity|].
  eexists. split; [reflexivity|]. split; [reflexivity | discriminate].
Qed.

(** Two files of 16385 bytes that differ in the one byte lying between
    the first and the last 8 KiB. *)
Lemma calculate_hash_is_a_function_of_size_and_windows_witness :
  let window : bytes := repeat Byte.x00 chunk_size_default in
  let c1 : bytes := window ++ [Byte.x00] ++ window in
  let c2 : bytes := window ++ [Byte.xff] ++ window in
  c1 <> c2
  /\ @_calculate_hash chunk_list_hasher c1 chunk_size_default
     = @_calculate_hash chunk_list_hasher c2 chunk_size_default.
Proof.
  intros window c1 c2.
  assert (Hw : List.length window = chunk_size_default)
    by apply repeat_length.
  split.
  - intros Heq. apply app_inv_head in Heq. discriminate.
  - apply (proj1 (@calculate_hash_is_a_function_of_size_and_windows
                    chunk_list_hasher)).
    + unfold c1, c2. now rewrite !length_app.
    + unfold c1, c2. now rewrite !(@sandwich_first _ window _ Hw).
    + intros _. unfold c1, c2.
      now rewrite !(@sandwich_last window _ window _ Hw).
Defined.

End ScannerSpec.


(* ================================================================== *)
(** * Properties of [find_missing_episodes]                            *)
(* ================================================================== *)

Module MissingEpisodesSpec.

Import Analyzer Notions.

(** ** Equality tests *)

Lemma str_eqb_eq (a b : str) : str_eqb a b = true <-> a = b.
Proof.
  unfold str_eqb. destruct (list_eq_dec ascii_dec a b); split;
    congruence.
Qed.

Lemma opt_str_eqb_eq (a b : option str) : opt_str_eqb a b = true <-> a = b.
Proof.
  destruct a as [a|], b as [b|]; simpl; try (split; congruence).
  rewrite str_eqb_eq. split; congruence.
Qed.

Lemma mem_In (x : Z) (xs : list Z) : mem x xs = true <-> In x xs.
Proof.
  unfold mem. rewrite existsb_exists. split.
  - intros (y & Hy & E). apply Z.eqb_eq in E. now subst.
  - intros Hx. exists x. split; [assumption | apply Z.eqb_refl].
Qed.

(** ** Sorting *)

Lemma insert_stable_perm (x : Z) (l : list Z) :
  Permutation (insert_stable Z.ltb (fun y => y) x l) (x :: l).
Proof.
  induction l as [|y l IH]; simpl; [reflexivity|].
  destruct (y <? x)%Z; [|reflexivity].
  rewrite IH. apply perm_swap.
Qed.

Lemma sorted_perm (l : list Z) : Permutation (sorted l) l.
Proof.
  unfold sorted. induction l as [|x l IH]; simpl; [reflexivity|].
  rewrite insert_stable_perm. now constructor.
Qed.

Lemma insert_stable_sorted (x : Z) (l : list Z) :
  StronglySorted Z.le l ->
  StronglySorted Z.le (insert_stable Z.ltb (fun y => y) x l).
Proof.
  induction 1 as [|y l Hs IH Hy]; simpl.
  - repeat constructor.
  - destruct (Z.ltb_spec y x).
    + constructor; [assumption|].
      rewrite Forall_forall in *. intros z Hz.
      apply (Permutation_in _ (insert_stable_perm x l)) in Hz.
      destruct Hz as [<-|Hz]; [lia | now apply Hy].
    + constructor; [now constructor|].
      constructor; [assumption|].
      rewrite Forall_forall in *. intros z Hz. specialize (Hy z Hz). lia.
Qed.

Lemma sorted_le (l : list Z) : StronglySorted Z.le (sorted l).
Proof.
  unfold sorted. induction l as [|x l IH]; simpl.
  - constructor.
  - now apply insert_stable_sorted.
Qed.

Lemma sorted_nodup_lt (l : list Z) :
  NoDup l -> StronglySorted Z.le l -> StronglySorted Z.lt l.
Proof.
  induction 2 as [|x l Hs IH Hx]; [constructor|].
  inversion H as [|? ? Hnot Hnd]; subst.
  constructor; [now apply IH|].
  rewrite Forall_forall in *. intros z Hz. specialize (Hx z Hz).
  assert (z <> x) by (intros ->; contradiction). lia.
Qed.

(** [sorted] returns the elements of a duplicate-free collection in
    strictly ascending order. *)
Lemma sorted_strict (l : list Z) :
  NoDup l ->
  StronglySorted Z.lt (sorted l) /\ (forall e, In e (sorted l) <-> In e l).
Proof.
  intros Hnd. split.
  - apply sorted_nodup_lt; [|apply sorted_le].
    apply (Permutation_NoDup (Permutation_sym (sorted_perm l)) Hnd).
  - intros e. split; apply Permutation_in;
      [apply sorted_perm | apply Permutation_sym, sorted_perm].
Qed.

(** ** Ranges, minimum and maximum *)

Lemma range_In (lo hi e : Z) : In e (range lo hi) <-> (lo <= e < hi)%Z.
Proof.
  unfold range. rewrite in_map_iff. split.
  - intros (i & <- & Hi). apply in_seq in Hi. lia.
  - intros He. exists (Z.to_nat (e - lo)). split; [lia|].
    apply in_seq. lia.
Qed.

Lemma range_NoDup (lo hi : Z) : NoDup (range lo hi).
Proof.
  unfold range. apply Finite.Injective_map_NoDup; [|apply seq_NoDup].
  intros i j. lia.
Qed.

Lemma py_min_spec (x : Z) (xs : list Z) :
  In (py_min x xs) (x :: xs) /\ forall y, In y (x :: xs) -> (py_min x xs <= y)%Z.
Proof.
  unfold py_min. revert x. induction xs as [|z xs IH]; intros x; simpl.
  - split; [now left | intros y [<-|[]]; lia].
  - destruct (IH (Z.min x z)) as (Hin & Hle). split.
    + simpl in Hin. destruct Hin as [Hin|Hin]; [|now right; right].
      rewrite <- Hin. destruct (Z.min_spec x z) as [[_ ->]|[_ ->]];
        [now left | now right; left].
    + intros y Hy.
      assert (H0 : (fold_left Z.min xs (Z.min x z) <= Z.min x z)%Z)
        by (apply Hle; now left).
      destruct Hy as [<-|[<-|Hy]]; [lia | lia | apply Hle; now right].
Qed.

Lemma py_max_spec (x : Z) (xs : list Z) :
  In (py_max x xs) (x :: xs) /\ forall y, In y (x :: xs) -> (y <= py_max x xs)%Z.
Proof.
  unfold py_max. revert x. induction xs as [|z xs IH]; intros x; simpl.
  - split; [now left | intros y [<-|[]]; lia].
  - destruct (IH (Z.max x z)) as (Hin & Hle). split.
    + simpl in Hin. destruct Hin as [Hin|Hin]; [|now right; right].
      rewrite <- Hin. destruct (Z.max_spec x z) as [[_ ->]|[_ ->]];
        [now right; left | now left].
    + intros y Hy.
      assert (H0 : (Z.max x z <= fold_left Z.max xs (Z.max x z))%Z)
        by (apply Hle; now left).
      destruct Hy as [<-|[<-|Hy]]; [lia | lia | apply Hle; now right].
Qed.

(** ** One group *)

Lemma missing_between (x : Z) (xs : list Z) (e : Z) :
  In e (filter (fun y => negb (mem y (x :: xs)))
               (range (py_min x xs) (py_max x xs + 1)))
  <-> inner (x :: xs) e.
Proof.
  rewrite filter_In, range_In, negb_true_iff, <- not_true_iff_false, mem_In.
  destruct (py_min_spec x xs) as (Hmin & Hle).
  destruct (py_max_spec x xs) as (Hmax & Hge).
  unfold inner. split.
  - intros (Hrange & Hnot). split; [assumption|].
    exists (py_min x xs), (py_max x xs). repeat split; try assumption.
    + assert (e <> py_min x xs) by (intros ->; contradiction). lia.
    + assert (e <> py_max x xs) by (intros ->; contradiction). lia.
  - intros (Hnot & lo & hi & Hlo & Hhi & Hbetween). split; [|assumption].
    specialize (Hle lo Hlo). specialize (Hge hi Hhi). lia.
Qed.

Lemma season_gap_spec (t : option str) (s : Z) (eps : list Z) :
  eps <> [] ->
  (forall g, In g (season_gap t (s, eps)) ->
             gap_key g = (t, s)
             /\ missing_episodes g <> []
             /\ StronglySorted Z.lt (missing_episodes g)
             /\ forall e, In e (missing_episodes g) <-> inner eps e)
  /\ (forall e, inner eps e -> exists g, season_gap t (s, eps) = [g])
  /\ (forall g1 g2, In g1 (season_gap t (s, eps)) ->
                    In g2 (season_gap t (s, eps)) -> g1 = g2).
Proof.
  destruct eps as [|x xs]; [congruence|intros _].
  unfold season_gap.
  pose proof (missing_between x xs) as Hbetween.
  assert (Hnd : NoDup (filter (fun y => negb (mem y (x :: xs)))
                         (range (py_min x xs) (py_max x xs + 1))))
    by apply NoDup_filter, range_NoDup.
  destruct (filter _ _) as [|z m] eqn:Em.
  - split; [intros g []|]. split; [|intros g1 g2 []].
    intros e He. apply Hbetween in He. destruct He.
  - destruct (sorted_strict Hnd) as (Hsorted & Hsame).
    split; [|split].
    + intros g [<-|[]]. cbn [missing_episodes gap_key series gap_season].
      split; [reflexivity|]. split; [|split; [assumption|]].
      * intros Hnil. assert (Hz : In z (sorted (z :: m)))
          by (apply Hsame; now left).
        rewrite Hnil in Hz. destruct Hz.
      * intros e. rewrite Hsame. apply Hbetween.
    + intros e _. eexists; reflexivity.
    + intros g1 g2 [<-|[]] [<-|[]]. reflexivity.
Qed.

(** ** The dictionary of observed episodes *)

Lemma set_add_In (x e : Z) (eps : list Z) :
  In x (set_add e eps) <-> In x eps \/ x = e.
Proof.
  unfold set_add. destruct (mem e eps) eqn:E.
  - apply mem_In in E. split; [tauto | intros [?| ->]; assumption].
  - rewrite in_app_iff. simpl. intuition.
Qed.

Lemma set_add_nonempty (e : Z) (eps : list Z) : set_add e eps <> [].
Proof.
  intros Hnil. assert (Hin : In e (set_add e eps))
    by (apply set_add_In; now right).
  rewrite Hnil in Hin. destruct Hin.
Qed.

Lemma season_add_keys (s e : Z) (seasons : list (Z * list Z)) :
  forall k, In k (map fst (season_add s e seasons))
            <-> In k (map fst seasons) \/ k = s.
Proof.
  induction seasons as [|[s' eps] rest IH]; intros k; simpl.
  - intuition.
  - destruct (Z.eqb_spec s' s) as [->|Hne]; simpl.
    + intuition.
    + rewrite IH. intuition.
Qed.

Lemma season_add_wf (s e : Z) (seasons : list (Z * list Z)) :
  wf_seasons seasons -> wf_seasons (season_add s e seasons).
Proof.
  unfold wf_seasons.
  induction seasons as [|[s' eps] rest IH]; intros (Hnd & Hne); simpl.
  - split; repeat constructor; [intros [] | discriminate].
  - inversion Hnd as [|? ? Hnot Hnd']; subst.
    inversion Hne as [|? ? Heps Hne']; subst.
    destruct (Z.eqb_spec s' s) as [->|Hdiff]; simpl.
    + split; constructor; try assumption. apply set_add_nonempty.
    + destruct (IH (conj Hnd' Hne')) as (IH1 & IH2).
      split; constructor; try assumption.
      rewrite season_add_keys. intros [Hin|Heq]; [contradiction|].
      now apply Hdiff.
Qed.

Lemma season_add_member (s e : Z) (seasons : list (Z * list Z)) :
  forall s' e', smember (season_add s e seasons) s' e'
                <-> smember seasons s' e' \/ (s' = s /\ e' = e).
Proof.
  unfold smember.
  induction seasons as [|[s0 eps0] rest IH]; intros s' e'; simpl.
  - split.
    + intros (eps & [Heq|[]] & He). injection Heq as <- <-.
      destruct He as [<-|[]]. now right.
    + intros [(eps & [] & _)|(-> & ->)].
      exists [e]. split; now left.
  - destruct (Z.eqb_spec s0 s) as [->|Hne]; simpl.
    + split.
      * intros (eps & [Heq|Hin] & He).
        -- injection Heq as <- <-. apply set_add_In in He.
           destruct He as [He| ->]; [left | now right].
           exists eps0. split; [now left | assumption].
        -- left. exists eps. split; [now right | assumption].
      * intros [(eps & [Heq|Hin] & He)|(-> & ->)].
        -- injection Heq as <- <-. exists (set_add e eps0).
           split; [now left | apply set_add_In; now left].
        -- exists eps. split; [now right | assumption].
        -- exists (set_add e eps0).
           split; [now left | apply set_add_In; now right].
    + split.
      * intros (eps & [Heq|Hin] & He).
        -- injection Heq as <- <-. left. exists eps0.
           split; [now left | assumption].
        -- destruct (proj1 (IH s' e')) as [(eps1 & H1 & H2)|Hnew].
           ++ now exists eps.
           ++ left. exists eps1. split; [now right | assumption].
           ++ now right.
      * intros [(eps & [Heq|Hin] & He)|Hnew].
        -- exists eps. split; [now left | assumption].
        -- destruct (proj2 (IH s' e')) as (eps1 & H1 & H2).
           ++ left. now exists eps.
           ++ exists eps1. split; [now right | assumption].
        -- destruct (proj2 (IH s' e')) as (eps1 & H1 & H2).
           ++ now right.
           ++ exists eps1. split; [now right | assumption].
Qed.

Lemma series_add_keys (t : option str) (s e : Z) all :
  forall k, In k (map fst (series_add t s e all))
            <-> In k (map fst all) \/ k = t.
Proof.
  induction all as [|[t' seasons] rest IH]; intros k; simpl.
  - intuition.
  - destruct (opt_str_eqb t' t) eqn:E; simpl.
    + apply opt_str_eqb_eq in E. subst. intuition.
    + rewrite IH. intuition.
Qed.

Lemma series_add_wf (t : option str) (s e : Z) all :
  wf all -> wf (series_add t s e all).
Proof.
  unfold wf.
  induction all as [|[t' seasons] rest IH]; intros (Hnd & Hwf); simpl.
  - split.
    + constructor; [intros [] | constructor].
    + constructor; [|constructor]. split.
      * constructor; [intros [] | constructor].
      * constructor; [discriminate | constructor].
  - inversion Hnd as [|? ? Hnot Hnd']; subst.
    inversion Hwf as [|? ? Hs Hwf']; subst.
    destruct (opt_str_eqb t' t) eqn:E; simpl.
    + split; constructor; try assumption. now apply season_add_wf.
    + destruct (IH (conj Hnd' Hwf')) as (IH1 & IH2).
      split; constructor; try assumption.
      rewrite series_add_keys. intros [Hin|Heq]; [contradiction|].
      subst. assert (opt_str_eqb t t = true) by now apply opt_str_eqb_eq.
      congruence.
Qed.

Lemma series_add_member (t : option str) (s e : Z) all :
  forall t' s' e', member (series_add t s e all) t' s' e'
                   <-> member all t' s' e' \/ (t' = t /\ s' = s /\ e' = e).
Proof.
  unfold member.
  induction all as [|[t0 seasons0] rest IH]; intros t' s' e'; simpl.
  - split.
    + intros (seasons & [Heq|[]] & Hm). injection Heq as <- <-.
      destruct Hm as (eps & [Heps|[]] & He). injection Heps as <- <-.
      destruct He as [<-|[]]. now right.
    + intros [(seasons & [] & _)|(-> & -> & ->)].
      exists [(s, [e])]. split; [now left|].
      exists [e]. split; now left.
  - destruct (opt_str_eqb t0 t) eqn:E; simpl.
    + apply opt_str_eqb_eq in E. subst t0. split.
      * intros (seasons & [Heq|Hin] & Hm).
        -- injection Heq as <- <-. apply season_add_member in Hm.
           destruct Hm as [Hm|(-> & ->)]; [left | now right].
           exists seasons0. split; [now left | assumption].
        -- left. exists seasons. split; [now right | assumption].
      * intros [(seasons & [Heq|Hin] & Hm)|(-> & -> & ->)].
        -- injection Heq as <- <-. exists (season_add s e seasons0).
           split; [now left | apply season_add_member; now left].
        -- exists seasons. split; [now right | assumption].
        -- exists (season_add s e seasons0).
           split; [now left | apply season_add_member; now right].
    + split.
      * intros (seasons & [Heq|Hin] & Hm).
        -- injection Heq as <- <-. left. exists seasons0.
           split; [now left | assumption].
        -- destruct (proj1 (IH t' s' e')) as [(x & H1 & H2)|Hnew].
           ++ now exists seasons.
           ++ left. exists x. split; [now right | assumption].
           ++ now right.
      * intros [(seasons & [Heq|Hin] & Hm)|Hnew].
        -- exists seasons. split; [now left | assumption].
        -- destruct (proj2 (IH t' s' e')) as (x & H1 & H2).
           ++ left. now exists seasons.
           ++ exists x. split; [now right | assumption].
        -- destruct (proj2 (IH t' s' e')) as (x & H1 & H2).
           ++ now right.
           ++ exists x. split; [now right | assumption].
Qed.

Section Gaps.

Context {float : Type}.

Local Abbreviation MediaFile := (MediaFile float).

Lemma fold_add_file (tv_files : list MediaFile) :
  forall acc,
    wf acc ->
    wf (fold_left add_file tv_files acc)
    /\ forall t s e,
        member (fold_left add_file tv_files acc) t s e
        <-> member acc t s e
            \/ exists f, In f tv_files /\ title f = t
                         /\ season f = Some s /\ episode f = Some e.
Proof.
  induction tv_files as [|f rest IH]; intros acc Hwf; simpl.
  - split; [assumption|]. intros t s e. split; [now left|].
    intros [Hm|(f & [] & _)]. assumption.
  - assert (Hwf' : wf (add_file acc f)).
    { unfold add_file. destruct (season f), (episode f);
        try assumption. now apply series_add_wf. }
    destruct (IH _ Hwf') as (IH1 & IH2). split; [assumption|].
    intros t s e. rewrite IH2. unfold add_file at 1.
    destruct (season f) as [s0|] eqn:Es, (episode f) as [e0|] eqn:Ee.
    + rewrite series_add_member. split.
      * intros [[Hm|(Ht & Hs & He)]|(g & Hg & Hrest)].
        -- now left.
        -- right. subst. exists f. repeat split; auto.
        -- right. exists g. split; [now right | assumption].
      * intros [Hm|(g & [<-|Hg] & Ht & Hs & He)].
        -- now left; left.
        -- left; right. rewrite Es in Hs. rewrite Ee in He.
           injection Hs as <-. injection He as <-. auto.
        -- right. exists g. auto.
    + split.
      * intros [Hm|(g & Hg & Hrest)]; [now left|].
        right. exists g. split; [now right | assumption].
      * intros [Hm|(g & [<-|Hg] & Ht & Hs & He)]; [now left| |].
        -- congruence.
        -- right. exists g. auto.
    + split.
      * intros [Hm|(g & Hg & Hrest)]; [now left|].
        right. exists g. split; [now right | assumption].
      * intros [Hm|(g & [<-|Hg] & Ht & Hs & He)]; [now left| |].
        -- congruence.
        -- right. exists g. auto.
    + split.
      * intros [Hm|(g & Hg & Hrest)]; [now left|].
        right. exists g. split; [now right | assumption].
      * intros [Hm|(g & [<-|Hg] & Ht & Hs & He)]; [now left| |].
        -- congruence.
        -- right. exists g. auto.
Qed.

(** The dictionary holds exactly the observed episodes. *)
Lemma series_episodes_spec (files : list MediaFile) :
  wf (series_episodes (filter is_tv_episode files))
  /\ forall t s e,
      member (series_episodes (filter is_tv_episode files)) t s e
      <-> observed files t s e.
Proof.
  destruct (fold_add_file (filter is_tv_episode files) (acc := []))
    as (Hwf & Hmem).
  { split; constructor. }
  split; [exact Hwf|]. intros t s e.
  unfold series_episodes. fold (@add_file float). rewrite Hmem.
  unfold observed.
  split.
  - intros [(x & [] & _)|(f & Hf & Ht & Hs & He)].
    apply filter_In in Hf. destruct Hf as (Hf & Htv).
    exists f. repeat split; try assumption.
    unfold is_tv_episode in Htv.
    apply andb_prop in Htv. destruct Htv as (Htv & _).
    apply andb_prop in Htv. destruct Htv as (Htv & _).
    now apply opt_str_eqb_eq in Htv.
  - intros (f & Hf & Htv & Ht & Hs & He). right. exists f.
    repeat split; try assumption. apply filter_In. split; [assumption|].
    unfold is_tv_episode. rewrite Htv, Hs, He. reflexivity.
Qed.

Lemma season_gap_cases (t : option str) (entry : Z * list Z) :
  season_gap t entry = [] \/ exists g, season_gap t entry = [g].
Proof.
  destruct entry as [s [|x xs]]; [now left|]. unfold season_gap.
  destruct (filter _ _); [now left | right; eexists; reflexivity].
Qed.

Lemma unique_value {K V : Type} (l : list (K * V)) (k : K) (v v' : V) :
  NoDup (map fst l) -> In (k, v) l -> In (k, v') l -> v = v'.
Proof.
  induction l as [|[k0 v0] l IH]; simpl; intros Hnd Hv Hv'; [contradiction|].
  inversion Hnd as [|? ? Hnot Hnd']; subst.
  destruct Hv as [Hv|Hv], Hv' as [Hv'|Hv'].
  - congruence.
  - injection Hv as -> ->. exfalso. apply Hnot.
    now apply (in_map fst) in Hv'.
  - injection Hv' as -> ->. exfalso. apply Hnot.
    now apply (in_map fst) in Hv.
  - now apply IH.
Qed.

(** With unique keys, the set stored for a group holds exactly the
    members of the group. *)
Lemma lookup_member all (t : option str) seasons (s : Z) (eps : list Z) :
  wf all -> In (t, seasons) all -> In (s, eps) seasons ->
  eps <> [] /\ forall e, In e eps <-> member all t s e.
Proof.
  intros (Hnd & Hwf) Ht Hs.
  rewrite Forall_forall in Hwf.
  destruct (Hwf _ Ht) as (Hnd' & Hne). cbn [snd] in Hnd', Hne.
  rewrite Forall_forall in Hne. split; [apply (Hne _ Hs)|].
  intros e. split.
  - intros He. exists seasons. split; [assumption|]. now exists eps.
  - intros (seasons' & Ht' & eps' & Hs' & He).
    assert (seasons' = seasons) by apply (unique_value _ _ _ _ Hnd Ht' Ht).
    subst seasons'.
    assert (eps' = eps) by apply (unique_value _ _ _ _ Hnd' Hs' Hs).
    now subst eps'.
Qed.

Lemma inner_iff (eps : list Z) (P : Z -> Prop) :
  (forall e, In e eps <-> P e) ->
  forall e, inner eps e
            <-> (~ P e /\ exists lo hi, P lo /\ P hi /\ (lo < e < hi)%Z).
Proof.
  intros HP e. unfold inner. rewrite HP. split.
  - intros (Hnot & lo & hi & Hlo & Hhi & Hb). split; [assumption|].
    exists lo, hi. rewrite <- !HP. auto.
  - intros (Hnot & lo & hi & Hlo & Hhi & Hb). split; [assumption|].
    exists lo, hi. rewrite !HP. auto.
Qed.

Lemma season_gaps_keys (t : option str) (seasons : list (Z * list Z)) :
  NoDup (map fst seasons) ->
  NoDup (map gap_key (flat_map (season_gap t) seasons))
  /\ forall k, In k (map gap_key (flat_map (season_gap t) seasons)) ->
               fst k = t /\ In (snd k) (map fst seasons).
Proof.
  induction seasons as [|[s eps] rest IH]; cbn [flat_map map fst];
    intros Hnd.
  - split; [constructor | intros k []].
  - inversion Hnd as [|? ? Hnot Hnd']; subst.
    destruct (IH Hnd') as (IH1 & IH2).
    assert (Hkey : forall g, In g (season_gap t (s, eps)) ->
                             gap_key g = (t, s)).
    { intros g Hg. destruct eps as [|x xs]; [destruct Hg|].
      destruct (@season_gap_spec t s (x :: xs)) as (Hspec & _);
        [discriminate|]. now apply Hspec. }
    rewrite map_app. split.
    + apply NoDup_app; [| assumption |].
      * destruct (season_gap_cases t (s, eps)) as [->|(g & ->)];
          repeat constructor. intros [].
      * intros k Hk Hk'. apply in_map_iff in Hk.
        destruct Hk as (g & <- & Hg). rewrite (Hkey g Hg) in Hk'.
        apply IH2 in Hk'. now destruct Hk' as (_ & Hin).
    + intros k Hk. apply in_app_iff in Hk. destruct Hk as [Hk|Hk].
      * apply in_map_iff in Hk. destruct Hk as (g & <- & Hg).
        rewrite (Hkey g Hg). split; [reflexivity | now left].
      * destruct (IH2 k Hk). split; [assumption | now right].
Qed.

Lemma gaps_keys_nodup all :
  wf all ->
  NoDup (map gap_key
           (flat_map (fun entry => flat_map (season_gap (fst entry))
                                            (snd entry)) all)).
Proof.
  intros (Hnd & Hwf).
  induction all as [|[t seasons] rest IH]; cbn [flat_map map fst snd];
    [constructor|].
  inversion Hnd as [|? ? Hnot Hnd']; subst.
  inversion Hwf as [|? ? Hs Hwf']; subst.
  destruct Hs as (Hs & _). cbn [snd] in Hs.
  destruct (@season_gaps_keys t seasons Hs) as (H1 & H2).
  rewrite map_app. apply NoDup_app; [assumption | now apply IH |].
  intros k Hk Hk'. destruct (H2 k Hk) as (Hfst & _).
  apply in_map_iff in Hk'. destruct Hk' as (g & <- & Hg).
  apply in_flat_map in Hg. destruct Hg as ((t', seasons') & Hin & Hg).
  cbn [fst snd] in Hg.
  destruct (@season_gaps_keys t' seasons') as (_ & H3).
  - rewrite Forall_forall in Hwf'. apply (Hwf' _ Hin).
  - destruct (H3 (gap_key g)) as (Hfst' & _);
      [now apply in_map|].
    apply Hnot. rewrite <- Hfst, Hfst'. now apply (in_map fst) in Hin.
Qed.

(** C4: [find_missing_episodes] reports, for the groups (title, season)
    of the [tv] records with season and episode present, exactly the
    episode numbers that lie strictly between two observed episodes of
    the group and are not observed themselves, in strictly ascending
    order; a group is reported at most once, and only when it has such a
    number. *)
Theorem find_missing_episodes_spec :
  forall files : list MediaFile,
    (forall g, In g (find_missing_episodes files) ->
               missing_episodes g <> []
               /\ StronglySorted Z.lt (missing_episodes g)
               /\ forall e, In e (missing_episodes g)
                            <-> gap files (series g) (gap_season g) e)
    /\ (forall t s e, gap files t s e ->
                      exists g, In g (find_missing_episodes files)
                                /\ series g = t /\ gap_season g = s)
    /\ NoDup (map gap_key (find_missing_episodes files)).
Proof.
  intros files. destruct (series_episodes_spec files) as (Hwf & Hmem).
  unfold find_missing_episodes.
  set (all := series_episodes (filter is_tv_episode files)) in *.
  split; [|split].
  - intros g Hg. apply in_flat_map in Hg.
    destruct Hg as ((t, seasons) & Ht & Hg). cbn [fst snd] in Hg.
    apply in_flat_map in Hg. destruct Hg as ((s, eps) & Hs & Hg).
    destruct (@lookup_member all t seasons s eps Hwf Ht Hs) as (Hne & Hlook).
    destruct (@season_gap_spec t s eps Hne) as (Hspec & _).
    destruct (Hspec g Hg) as (Hkey & Hnonempty & Hsorted & Hin).
    injection Hkey as -> ->.
    split; [assumption|]. split; [assumption|].
    intros e. rewrite Hin. unfold gap. apply inner_iff.
    intros e'. rewrite Hlook. apply Hmem.
  - intros t s e Hgap.
    assert (Hgap' := Hgap). destruct Hgap' as (_ & lo & _ & Hlo & _).
    apply Hmem in Hlo. destruct Hlo as (seasons & Ht & eps & Hs & _).
    destruct (@lookup_member all t seasons s eps Hwf Ht Hs) as (Hne & Hlook).
    destruct (@season_gap_spec t s eps Hne) as (Hspec & Hex & _).
    destruct (Hex e) as (g & Hg).
    { apply (@inner_iff eps (observed files t s)); [|exact Hgap].
      intros e'. rewrite Hlook. apply Hmem. }
    exists g. split.
    + apply in_flat_map. exists (t, seasons). split; [assumption|].
      cbn [fst snd]. apply in_flat_map. exists (s, eps). split; [assumption|].
      rewrite Hg. now left.
    + destruct (Hspec g) as (Hkey & _); [rewrite Hg; now left|].
      now injection Hkey.
  - now apply gaps_keys_nodup.
Qed.

End Gaps.

(** ** Closed instance *)

(** Series X, season 1 with the episodes 1, 2, 4 and 6, and series Y,
    season 1 with the episodes 1, 2 and 3: one entry, for X, with the
    episodes 3 and 5. *)
Lemma find_missing_episodes_spec_witness :
  let files : list (MediaFile unit) :=
    [episode_row 1 (lit "X") 1 1; episode_row 2 (lit "X") 1 2;
     episode_row 3 (lit "X") 1 4; episode_row 4 (lit "X") 1 6;
     episode_row 5 (lit "Y") 1 1; episode_row 6 (lit "Y") 1 2;
     episode_row 7 (lit "Y") 1 3] in
  find_missing_episodes files
  = [{| series := Some (lit "X"); gap_season := 1;
        missing_episodes := [3; 5]%Z |}]
  /\ (forall e, In e [3; 5]%Z <-> gap files (Some (lit "X")) 1 e).
Proof.
  intros files. split; [reflexivity|].
  destruct (find_missing_episodes_spec files) as (Hgaps & _ & _).
  destruct (Hgaps {| series := Some (lit "X"); gap_season := 1;
                     missing_episodes := [3; 5]%Z |})
    as (_ & _ & Hin); [now left | exact Hin].
Defined.

End MissingEpisodesSpec.


(* ================================================================== *)
(** * Properties of the upsert loop ([cli.py])                         *)
(* ================================================================== *)

Module CliSpec.

Import Scanner Cli Notions.

Section Upsert.

Context `{MediaInfoLib}.

Local Abbreviation MediaFile := (MediaFile float).

Lemma str_eqb_true (a b : str) : str_eqb a b = true <-> a = b.
Proof.
  unfold str_eqb. destruct (list_eq_dec ascii_dec a b); split; congruence.
Qed.

Lemma str_eqb_false (a b : str) : str_eqb a b = false <-> a <> b.
Proof.
  unfold str_eqb. destruct (list_eq_dec ascii_dec a b); split; congruence.
Qed.

(** ** Queries *)

Lemma query_first_none (rows : table) (p : str) :
  query_first rows p = None <-> ~ In p (paths rows).
Proof.
  unfold query_first, paths. induction rows as [|r rows IH]; simpl.
  - tauto.
  - destruct (str_eqb (file_path r) p) eqn:E.
    + apply str_eqb_true in E. split; [discriminate | tauto].
    + apply str_eqb_false in E. rewrite IH. tauto.
Qed.

Lemma query_first_some (rows : table) (p : str) :
  In p (paths rows) -> exists r, query_first rows p = Some r.
Proof.
  intros Hin. destruct (query_first rows p) as [r|] eqn:E.
  - now exists r.
  - apply query_first_none in E. contradiction.
Qed.

(** ** Assignment in place *)

Lemma set_attrs_path (r : MediaFile) (info : FileInfo) :
  file_path (set_attrs r info) = info_file_path info.
Proof. reflexivity. Qed.

Lemma set_attrs_id (r : MediaFile) (info : FileInfo) :
  id (set_attrs r info) = id r.
Proof. reflexivity. Qed.

Lemma set_attrs_twice (r : MediaFile) (info : FileInfo) :
  set_attrs (set_attrs r info) info = set_attrs r info.
Proof.
  unfold set_attrs. cbn. destruct (info_media info); reflexivity.
Qed.

Lemma update_first_paths (rows : table) (info : FileInfo) :
  paths (update_first rows (info_file_path info) info) = paths rows.
Proof.
  unfold paths. induction rows as [|r rows IH]; simpl; [reflexivity|].
  destruct (str_eqb (file_path r) (info_file_path info)) eqn:E; simpl.
  - apply str_eqb_true in E. now rewrite E.
  - now rewrite IH.
Qed.

Lemma update_first_ids (rows : table) (p : str) (info : FileInfo) :
  map (@id float) (update_first rows p info) = map (@id float) rows.
Proof.
  induction rows as [|r rows IH]; simpl; [reflexivity|].
  destruct (str_eqb (file_path r) p); simpl; [reflexivity|].
  now rewrite IH.
Qed.

Lemma update_first_absent (rows : table) (p : str) (info : FileInfo) :
  ~ In p (paths rows) -> update_first rows p info = rows.
Proof.
  unfold paths. induction rows as [|r rows IH]; simpl; intros Hnot;
    [reflexivity|].
  destruct (str_eqb (file_path r) p) eqn:E.
  - apply str_eqb_true in E. tauto.
  - rewrite IH by tauto. reflexivity.
Qed.

Lemma update_first_app (rows more : table) (p : str) (info : FileInfo) :
  update_first (rows ++ more) p info
  = if existsb (fun r => str_eqb (file_path r) p) rows
    then update_first rows p info ++ more
    else rows ++ update_first more p info.
Proof.
  induction rows as [|r rows IH]; simpl; [reflexivity|].
  destruct (str_eqb (file_path r) p); simpl; [reflexivity|].
  rewrite IH. now destruct (existsb _ rows).
Qed.

Lemma existsb_path (rows : table) (p : str) :
  existsb (fun r => str_eqb (file_path r) p) rows = true <-> In p (paths rows).
Proof.
  rewrite existsb_exists. unfold paths. rewrite in_map_iff.
  split; intros (r & H1 & H2).
  - apply str_eqb_true in H2. now exists r.
  - exists r. split; [assumption | now apply str_eqb_true].
Qed.

Lemma update_first_twice (rows : table) (info : FileInfo) :
  let p := info_file_path info in
  update_first (update_first rows p info) p info = update_first rows p info.
Proof.
  induction rows as [|r rows IH]; simpl; [reflexivity|].
  destruct (str_eqb (file_path r) (info_file_path info)) eqn:E; simpl.
  - assert (E' : str_eqb (info_file_path info) (info_file_path info) = true)
      by now apply str_eqb_true.
    rewrite E'. now rewrite set_attrs_twice.
  - rewrite E. simpl in IH. now rewrite IH.
Qed.

Lemma update_first_comm (rows : table) (i j : FileInfo) :
  info_file_path i <> info_file_path j ->
  update_first (update_first rows (info_file_path j) j) (info_file_path i) i
  = update_first (update_first rows (info_file_path i) i) (info_file_path j) j.
Proof.
  intros Hne. induction rows as [|r rows IH]; simpl; [reflexivity|].
  destruct (str_eqb (file_path r) (info_file_path j)) eqn:Ej;
    destruct (str_eqb (file_path r) (info_file_path i)) eqn:Ei; simpl.
  - apply str_eqb_true in Ej. apply str_eqb_true in Ei. congruence.
  - assert (E : str_eqb (info_file_path j) (info_file_path i) = false)
      by (apply str_eqb_false; congruence).
    rewrite E, Ej. reflexivity.
  - assert (E : str_eqb (info_file_path i) (info_file_path j) = false)
      by (now apply str_eqb_false).
    rewrite E, Ei. reflexivity.
  - rewrite Ei, Ej. now rewrite IH.
Qed.

(** ** One dictionary *)

Lemma new_media_file_spec (now k : Z) (info : FileInfo) :
  has_audio_keys info = false ->
  exists row, new_media_file now k info = Ok row
              /\ file_path row = info_file_path info
              /\ id row = k
              /\ set_attrs row info = row.
Proof.
  intros Hno. unfold new_media_file. rewrite Hno.
  eexists. split; [reflexivity|]. repeat split.
  unfold set_attrs. cbn. destruct (info_media info); reflexivity.
Qed.

Lemma upsert_found (now : Z) (rows : table) (info : FileInfo) :
  In (info_file_path info) (paths rows) ->
  storable info = true ->
  upsert now rows info
  = Ok (update_first rows (info_file_path info) info).
Proof.
  intros Hin Hfit. unfold upsert, flush.
  destruct (@query_first_some rows _ Hin) as (r & ->). now rewrite Hfit.
Qed.

Lemma upsert_new (now : Z) (rows : table) (info : FileInfo) :
  ~ In (info_file_path info) (paths rows) ->
  has_audio_keys info = false ->
  storable info = true ->
  exists row, upsert now rows info = Ok (rows ++ [row])
              /\ file_path row = info_file_path info
              /\ id row = next_id rows
              /\ set_attrs row info = row.
Proof.
  intros Hnot Hno Hfit. unfold upsert, flush.
  apply query_first_none in Hnot. rewrite Hnot.
  destruct (new_media_file_spec now (next_id rows) info Hno)
    as (row & -> & Hrow).
  exists row. cbn [bind]. rewrite Hfit. split; [reflexivity | exact Hrow].
Qed.

Lemma upsert_raise (now : Z) (rows : table) (info : FileInfo) :
  ~ In (info_file_path info) (paths rows) ->
  has_audio_keys info = true ->
  upsert now rows info = Raise TypeError.
Proof.
  intros Hnot Hyes. unfold upsert.
  apply query_first_none in Hnot. rewrite Hnot.
  unfold new_media_file. now rewrite Hyes.
Qed.

(** An integer that does not fit makes the flush fail, unless the
    constructor has raised before. *)
Lemma upsert_overflow (now : Z) (rows : table) (info : FileInfo) :
  storable info = false ->
  exists e, upsert now rows info = Raise e.
Proof.
  intros Hfit. unfold upsert, flush. rewrite Hfit.
  destruct (query_first rows (info_file_path info)); [now exists OtherError|].
  destruct (new_media_file now (next_id rows) info) as [row|e]; cbn [bind];
    eexists; reflexivity.
Qed.

Lemma upsert_storable (now : Z) (rows rows' : table) (info : FileInfo) :
  upsert now rows info = Ok rows' -> storable info = true.
Proof.
  intros Hup. destruct (storable info) eqn:Hfit; [reflexivity|].
  destruct (upsert_overflow now rows info Hfit) as (e & He). congruence.
Qed.

(** The four cases of [upsert]. *)
Lemma upsert_cases (now : Z) (rows : table) (info : FileInfo) :
  (In (info_file_path info) (paths rows)
   /\ storable info = true
   /\ upsert now rows info
      = Ok (update_first rows (info_file_path info) info))
  \/ (~ In (info_file_path info) (paths rows)
      /\ has_audio_keys info = false
      /\ storable info = true
      /\ exists row, upsert now rows info = Ok (rows ++ [row])
                     /\ file_path row = info_file_path info
                     /\ set_attrs row info = row)
  \/ (~ In (info_file_path info) (paths rows)
      /\ has_audio_keys info = true
      /\ upsert now rows info = Raise TypeError)
  \/ (storable info = false
      /\ exists e, upsert now rows info = Raise e).
Proof.
  destruct (in_dec (list_eq_dec ascii_dec) (info_file_path info) (paths rows))
    as [Hin|Hnot].
  - destruct (storable info) eqn:Hfit.
    + left. repeat split; try assumption. now apply upsert_found.
    + do 3 right. split; [reflexivity | now apply upsert_overflow].
  - right. destruct (has_audio_keys info) eqn:Ha.
    + right. left. repeat split; try assumption. now apply upsert_raise.
    + destruct (storable info) eqn:Hfit.
      * left. repeat split; try assumption.
        destruct (upsert_new now rows info Hnot Ha Hfit)
          as (row & H1 & H2 & _ & H3).
        now exists row.
      * do 2 right. split; [reflexivity | now apply upsert_overflow].
Qed.

(** The two ways in which [upsert] returns. *)
Lemma upsert_ok (now : Z) (rows rows' : table) (info : FileInfo) :
  upsert now rows info = Ok rows' ->
  storable info = true
  /\ ((In (info_file_path info) (paths rows)
       /\ rows' = update_first rows (info_file_path info) info)
      \/ (~ In (info_file_path info) (paths rows)
          /\ exists row, rows' = rows ++ [row]
                         /\ file_path row = info_file_path info
                         /\ set_attrs row info = row)).
Proof.
  intros Hup. split; [eapply upsert_storable; exact Hup|].
  destruct (upsert_cases now rows info)
    as [(Hin & _ & E)|[(Hnot & _ & _ & row & E & Hrow)
                      |[(_ & _ & E)|(_ & e & E)]]];
    rewrite E in Hup; try discriminate; injection Hup as <-.
  - left. now split.
  - right. split; [exact Hnot | now exists row].
Qed.

Lemma upsert_paths (now : Z) (rows rows' : table) (info : FileInfo) :
  upsert now rows info = Ok rows' ->
  forall p, In p (paths rows')
            <-> In p (paths rows) \/ p = info_file_path info.
Proof.
  intros Hup p.
  destruct (upsert_ok _ _ _ Hup)
    as (_ & [(Hin & ->)|(Hnot & row & -> & Hrow & _)]).
  - rewrite update_first_paths. split; [tauto|]. intros [?| ->]; assumption.
  - unfold paths. rewrite map_app, in_app_iff. simpl. rewrite Hrow.
    intuition.
Qed.

Lemma upsert_nodup (now : Z) (rows rows' : table) (info : FileInfo) :
  upsert now rows info = Ok rows' ->
  NoDup (paths rows) -> NoDup (paths rows').
Proof.
  intros Hup Hnd.
  destruct (upsert_ok _ _ _ Hup)
    as (_ & [(Hin & ->)|(Hnot & row & -> & Hrow & _)]).
  - now rewrite update_first_paths.
  - unfold paths. rewrite map_app. simpl. rewrite Hrow.
    apply NoDup_app; [assumption | repeat constructor; intros [] |].
    intros a Ha [<-|[]]. contradiction.
Qed.

Lemma upsert_absorbs (now : Z) (rows rows' : table) (info : FileInfo) :
  upsert now rows info = Ok rows' -> absorbs rows' info.
Proof.
  intros Hup. split; [eapply upsert_storable; exact Hup|]. split.
  - eapply upsert_paths; [exact Hup | now right].
  - destruct (upsert_ok _ _ _ Hup)
      as (_ & [(Hin & ->)|(Hnot & row & -> & Hrow & Hfix)]).
    + apply update_first_twice.
    + rewrite update_first_app.
      destruct (existsb _ rows) eqn:Ex.
      * apply existsb_path in Ex. contradiction.
      * simpl. rewrite Hrow.
        assert (E' : str_eqb (info_file_path info) (info_file_path info)
                     = true) by now apply str_eqb_true.
        now rewrite E', Hfix.
Qed.

Lemma absorbs_upsert (now : Z) (rows : table) (info : FileInfo) :
  absorbs rows info -> upsert now rows info = Ok rows.
Proof.
  intros (Hfit & Hin & Hfix). rewrite upsert_found by assumption.
  now rewrite Hfix.
Qed.

Lemma upsert_preserves_absorbs (now : Z) (rows rows' : table)
  (i j : FileInfo) :
  absorbs rows i ->
  upsert now rows j = Ok rows' ->
  info_file_path i <> info_file_path j ->
  absorbs rows' i.
Proof.
  intros (Hfit & Hin & Hfix) Hup Hne. split; [exact Hfit|]. split.
  - eapply upsert_paths; [exact Hup | now left].
  - destruct (upsert_ok _ _ _ Hup)
      as (_ & [(Hj & ->)|(Hnot & row & -> & Hrow & _)]).
    + rewrite update_first_comm by assumption. now rewrite Hfix.
    + rewrite update_first_app.
      apply existsb_path in Hin. rewrite Hin. now rewrite Hfix.
Qed.

(** ** One batch *)

Lemma process_batch_absorbed (now : Z) (rows : table) (total : nat)
  (infos : list FileInfo) :
  Forall (absorbs rows) infos ->
  process_batch now rows total infos
  = (rows, total + List.length infos, None).
Proof.
  intros Hall. revert total.
  induction Hall as [|i infos Hi _ IH]; intros total; simpl.
  - now rewrite Nat.add_0_r.
  - rewrite (absorbs_upsert now Hi), IH. do 2 f_equal. lia.
Qed.

Lemma process_batch_preserves_absorbs (now : Z) (infos : list FileInfo) :
  forall (rows rows' : table) (total total' : nat) (o : option exn)
         (i : FileInfo),
    process_batch now rows total infos = (rows', total', o) ->
    absorbs rows i ->
    ~ In (info_file_path i) (map info_file_path infos) ->
    absorbs rows' i.
Proof.
  induction infos as [|j infos IH]; simpl;
    intros rows rows' total total' o i Hpb Hi Hnot.
  - now injection Hpb as <- _ _.
  - destruct (upsert now rows j) as [rows1|e] eqn:Hup.
    + eapply IH; [exact Hpb | | tauto].
      eapply upsert_preserves_absorbs; [exact Hi | exact Hup |].
      intros Heq. apply Hnot. now left.
    + now injection Hpb as <- _ _.
Qed.

Lemma process_batch_paths (now : Z) (infos : list FileInfo) :
  forall (rows rows' : table) (total total' : nat) (o : option exn),
    process_batch now rows total infos = (rows', total', o) ->
    (forall p, In p (paths rows) -> In p (paths rows'))
    /\ (forall p, In p (paths rows') ->
                  In p (paths rows) \/ In p (map info_file_path infos))
    /\ (NoDup (paths rows) -> NoDup (paths rows')).
Proof.
  induction infos as [|j infos IH]; simpl;
    intros rows rows' total total' o Hpb.
  - injection Hpb as <- _ _. tauto.
  - destruct (upsert now rows j) as [rows1|e] eqn:Hup.
    + destruct (IH _ _ _ _ _ Hpb) as (H1 & H2 & H3).
      pose proof (@upsert_paths _ _ _ _ Hup) as Hp.
      split; [|split].
      * intros p Hin. apply H1, Hp. now left.
      * intros p Hin. destruct (H2 p Hin) as [Hin'|Hin']; [|tauto].
        apply Hp in Hin'. destruct Hin' as [?| ->]; tauto.
      * intros Hnd. apply H3. eapply upsert_nodup; eassumption.
    + injection Hpb as <- _ _. tauto.
Qed.

Lemma process_batch_success_absorbs (now : Z) (infos : list FileInfo) :
  forall (rows rows' : table) (total total' : nat),
    process_batch now rows total infos = (rows', total', None) ->
    NoDup (map info_file_path infos) ->
    Forall (absorbs rows') infos.
Proof.
  induction infos as [|j infos IH]; simpl;
    intros rows rows' total total' Hpb Hnd; [constructor|].
  inversion Hnd as [|? ? Hnot Hnd']; subst.
  destruct (upsert now rows j) as [rows1|e] eqn:Hup; [|discriminate].
  constructor.
  - eapply process_batch_preserves_absorbs; [exact Hpb | | assumption].
    eapply upsert_absorbs. exact Hup.
  - eapply IH; [exact Hpb | exact Hnd'].
Qed.

(** A blocked dictionary stays blocked when a dictionary before it in
    the batch has been written. *)
Lemma blocked_after (now : Z) (rows rows1 : table) (j info : FileInfo)
  (pre : list FileInfo) :
  upsert now rows j = Ok rows1 ->
  blocked_at (paths rows) (j :: pre) info ->
  blocked_at (paths rows1) pre info.
Proof.
  intros Hup [Hfit|(Ha & Hb & Hc)]; [now left|]. right.
  repeat split; try assumption.
  - intros Hin. eapply upsert_paths in Hin; [|exact Hup].
    destruct Hin as [Hin|Heq]; [contradiction|]. apply Hc. now left.
  - intros Hin. apply Hc. now right.
Qed.

Lemma blocked_before (now : Z) (rows rows1 : table) (j info : FileInfo)
  (pre : list FileInfo) :
  upsert now rows j = Ok rows1 ->
  blocked_at (paths rows1) pre info ->
  blocked_at (paths rows) (j :: pre) info.
Proof.
  intros Hup [Hfit|(Ha & Hb & Hc)]; [now left|]. right.
  assert (Hp := @upsert_paths _ _ _ _ Hup (info_file_path info)).
  repeat split; try assumption.
  - intros Hin. apply Hb, Hp. now left.
  - intros [Heq|Hin]; [|contradiction]. apply Hb, Hp. now right.
Qed.

(** A batch fails exactly because of a dictionary that cannot be
    stored. *)
Lemma process_batch_failure (now : Z) (infos : list FileInfo) :
  forall (rows rows' : table) (total total' : nat) (e : exn),
    process_batch now rows total infos = (rows', total', Some e) ->
    exists pre info post,
      infos = pre ++ info :: post /\ blocked_at (paths rows) pre info.
Proof.
  induction infos as [|j infos IH]; simpl;
    intros rows rows' total total' e Hpb; [discriminate|].
  destruct (upsert now rows j) as [rows1|e1] eqn:Hup.
  - destruct (IH _ _ _ _ _ Hpb) as (pre & info & post & -> & Hbl).
    exists (j :: pre), info, post. split; [reflexivity|].
    eapply blocked_before; eassumption.
  - exists [], j, infos. split; [reflexivity|].
    destruct (upsert_cases now rows j)
      as [(_ & _ & E)|[(_ & _ & _ & row & E & _)
                     |[(Hnot & Hyes & _)|(Hfit & _)]]];
      try congruence.
    + right. repeat split; try assumption. intros [].
    + now left.
Qed.

Lemma blocked_fails (now : Z) (pre : list FileInfo) :
  forall (rows : table) (total : nat) (info : FileInfo)
         (post : list FileInfo),
    blocked_at (paths rows) pre info ->
    exists rows' total' e,
      process_batch now rows total (pre ++ info :: post)
      = (rows', total', Some e)
      /\ blocked_at (paths rows') pre info.
Proof.
  induction pre as [|j pre IH]; intros rows total info post Hbl.
  - simpl.
    assert (Hraise : exists e, upsert now rows info = Raise e).
    { destruct Hbl as [Hfit|(Ha & Hb & _)];
        [now apply upsert_overflow|].
      exists TypeError. now apply upsert_raise. }
    destruct Hraise as (e & ->). now exists rows, total, e.
  - cbn [app process_batch].
    destruct (upsert now rows j) as [rows1|e] eqn:Hup.
    + destruct (IH rows1 (S total) info post) as (rows' & total' & e & Hpb & Hbl');
        [eapply blocked_after; eassumption|].
      exists rows', total', e. split; [assumption|].
      destruct Hbl' as [Hfit|(Ha & Hb' & _)]; [now left|].
      destruct Hbl as [Hfit|(_ & _ & Hc)]; [now left|].
      right. repeat split; assumption.
    + now exists rows, total, e.
Qed.

(** ** The loop *)

Lemma nodup_app_disjoint {A : Type} (l1 l2 : list A) (x : A) :
  NoDup (l1 ++ l2) -> In x l1 -> ~ In x l2.
Proof.
  induction l1 as [|y l1 IH]; simpl; intros Hnd Hin; [destruct Hin|].
  inversion Hnd as [|? ? Hy Hrest]; subst.
  destruct Hin as [->|Hin].
  - intros Hx. apply Hy, in_app_iff. now right.
  - now apply IH.
Qed.

Lemma forall_absorbs_preserved (now : Z) (infos known : list FileInfo)
  (rows rows' : table) (total total' : nat) (o : option exn) :
  process_batch now rows total infos = (rows', total', o) ->
  Forall (absorbs rows) known ->
  (forall i, In i known ->
             ~ In (info_file_path i) (map info_file_path infos)) ->
  Forall (absorbs rows') known.
Proof.
  intros Hpb Hall Hdisj. rewrite Forall_forall in *. intros i Hi.
  eapply process_batch_preserves_absorbs; [exact Hpb | now apply Hall |].
  now apply Hdisj.
Qed.

(** Once the batch holds a dictionary that cannot be stored, every later
    attempt fails in the same way and nothing more is committed. *)
Lemma stuck_step (now batch_size : Z) (st : ScanState)
  (future : result FileInfo) :
  stuck st ->
  stuck (scan_step now batch_size st future)
  /\ committed (scan_step now batch_size st future) = committed st.
Proof.
  intros (pre & info & post & Hb & Hbl).
  destruct future as [i|e]; cbn [scan_step].
  - assert (Hb' : batch st ++ [i] = pre ++ info :: (post ++ [i]))
      by (rewrite Hb, <- app_assoc; reflexivity).
    destruct (_ <=? _)%Z.
    + rewrite Hb'.
      destruct (@blocked_fails now pre (session st) (total_files st) info
                  (post ++ [i]) Hbl) as (rows' & total' & e & -> & Hbl').
      split; [|reflexivity].
      exists pre, info, (post ++ [i]). split; [reflexivity | exact Hbl'].
    + split; [|reflexivity].
      exists pre, info, (post ++ [i]). split; [exact Hb' | exact Hbl].
  - split; [|reflexivity]. now exists pre, info, post.
Qed.

Lemma stuck_run (now batch_size : Z) (futures : list (result FileInfo)) :
  forall st,
    stuck st ->
    stuck (run now batch_size futures st)
    /\ committed (run now batch_size futures st) = committed st.
Proof.
  unfold run. induction futures as [|f futures IH]; intros st Hst; simpl.
  - now split.
  - destruct (@stuck_step now batch_size st f Hst) as (Hst' & Hc).
    destruct (IH _ Hst') as (H1 & H2). split; [assumption | congruence].
Qed.

Lemma stuck_finish (now : Z) (st : ScanState) :
  stuck st -> fst (scan_finish now st) = committed st.
Proof.
  intros (pre & info & post & Hb & Hbl). unfold scan_finish. rewrite Hb.
  destruct (pre ++ info :: post) eqn:E; [now destruct pre|].
  rewrite <- E.
  destruct (@blocked_fails now pre (session st) (total_files st) info post
              Hbl)
    as (rows' & total' & e & -> & _).
  reflexivity.
Qed.

Lemma stuck_final (now batch_size : Z) (futures : list (result FileInfo))
  (st : ScanState) :
  stuck st ->
  fst (scan_finish now (run now batch_size futures st)) = committed st.
Proof.
  intros Hst. destruct (@stuck_run now batch_size futures st Hst) as (H1 & H2).
  now rewrite stuck_finish.
Qed.

(** A failing batch leaves the state stuck. *)
Lemma failure_is_stuck (now : Z) (rows rows' : table) (total total' : nat)
  (infos : list FileInfo) (e : exn) :
  process_batch now rows total infos = (rows', total', Some e) ->
  exists pre info post,
    infos = pre ++ info :: post /\ blocked_at (paths rows') pre info.
Proof.
  intros Hpb.
  destruct (@process_batch_failure _ _ _ _ _ _ _ Hpb)
    as (pre & info & post & -> & Hbl).
  destruct (@blocked_fails now pre rows total info post Hbl)
    as (rows2 & total2 & e2 & Hpb2 & Hbl2).
  rewrite Hpb in Hpb2. injection Hpb2 as <- _ _.
  now exists pre, info, post.
Qed.

(** What the first scan has stored stays stored until its end. *)
Lemma absorbs_until_the_end (now batch_size : Z)
  (futures : list (result FileInfo)) (known : list FileInfo) :
  forall st,
    clean st ->
    Forall (absorbs (committed st)) known ->
    (forall i, In i known ->
               ~ In (info_file_path i)
                    (map info_file_path (batch st ++ infos_of futures))) ->
    Forall (absorbs (fst (scan_finish now (run now batch_size futures st))))
           known.
Proof.
  unfold run. induction futures as [|f futures IH];
    intros st Hclean Hall Hdisj; simpl.
  - simpl in Hdisj. rewrite app_nil_r in Hdisj. unfold scan_finish.
    destruct (batch st) as [|i0 b] eqn:Eb; [assumption|].
    destruct (process_batch now (session st) (total_files st) (i0 :: b))
      as [[rows' total'] [e|]] eqn:Hpb; cbn [fst]; [assumption|].
    rewrite Hclean in Hall.
    eapply forall_absorbs_preserved; eassumption.
  - destruct f as [i|e]; cbn [scan_step].
    + assert (Hdisj' : forall k, In k known ->
                ~ In (info_file_path k)
                     (map info_file_path (batch st ++ [i]))
                /\ ~ In (info_file_path k)
                        (map info_file_path (infos_of futures))).
      { intros k Hk. specialize (Hdisj k Hk). simpl in Hdisj.
        rewrite !map_app, !in_app_iff in *. simpl in *. tauto. }
      destruct (_ <=? _)%Z.
      * destruct (process_batch now (session st) (total_files st)
                    (batch st ++ [i]))
          as [[rows' total'] [e|]] eqn:Hpb.
        -- destruct (@failure_is_stuck _ _ _ _ _ _ _ Hpb)
             as (pre & info & post & Hb & Hbl).
           change (fold_left (scan_step now batch_size) futures ?s)
             with (run now batch_size futures s).
           rewrite stuck_final; [assumption|].
           exists pre, info, post. split; assumption.
        -- apply IH.
           ++ reflexivity.
           ++ cbn [committed]. rewrite Hclean in Hall.
              eapply forall_absorbs_preserved; [exact Hpb | exact Hall |].
              intros k Hk. apply (Hdisj' k Hk).
           ++ intros k Hk. cbn [batch app]. apply (Hdisj' k Hk).
      * apply IH.
        -- exact Hclean.
        -- exact Hall.
        -- intros k Hk. cbn [batch]. specialize (Hdisj k Hk).
           simpl in Hdisj. now rewrite <- app_assoc.
    + apply IH; assumption.
Qed.

(** The second scan, started from the table [after] that the first scan
    ends with, follows the first one batch by batch and ends with the same
    table. *)
Lemma second_scan_follows (now now' batch_size : Z) (after : table)
  (futures : list (result FileInfo)) :
  forall st1 st2,
    fst (scan_finish now (run now batch_size futures st1)) = after ->
    clean st1 ->
    batch st2 = batch st1 ->
    committed st2 = after ->
    session st2 = after ->
    NoDup (map info_file_path (batch st1 ++ infos_of futures)) ->
    fst (scan_finish now' (run now' batch_size futures st2)) = after.
Proof.
  unfold run. induction futures as [|f futures IH];
    intros st1 st2 Hend Hclean Hb Hc Hs Hnd; simpl in *.
  - rewrite app_nil_r in Hnd. unfold scan_finish in *. rewrite Hb.
    destruct (batch st1) as [|i0 b] eqn:Eb; [assumption|].
    destruct (process_batch now (session st1) (total_files st1) (i0 :: b))
      as [[rows' total'] [e|]] eqn:Hpb; cbn [fst] in Hend.
    + destruct (@process_batch_failure _ _ _ _ _ _ _ Hpb)
        as (pre & info & post & Hsplit & Hbl).
      rewrite <- Hclean, Hend in Hbl. rewrite Hsplit, Hs.
      destruct (@blocked_fails now' pre after (total_files st2) info post Hbl)
        as (rows2 & total2 & e2 & -> & _).
      exact Hc.
    + subst rows'. rewrite Hs.
      rewrite process_batch_absorbed; [reflexivity|].
      eapply process_batch_success_absorbs; eassumption.
  - destruct f as [i|e]; cbn [scan_step] in *.
    + rewrite Hb.
      assert (Hnd' : NoDup (map info_file_path
                              ((batch st1 ++ [i]) ++ infos_of futures)))
        by (now rewrite <- app_assoc).
      destruct (_ <=? _)%Z.
      * destruct (process_batch now (session st1) (total_files st1)
                    (batch st1 ++ [i]))
          as [[rows' total'] [e|]] eqn:Hpb.
        -- (* the first scan fails here: so does the second *)
           destruct (@failure_is_stuck _ _ _ _ _ _ _ Hpb)
             as (pre & info & post & Hsplit & Hbl').
           change (fold_left (scan_step now batch_size) futures ?s)
             with (run now batch_size futures s) in Hend.
           rewrite stuck_final in Hend
             by (exists pre, info, post; split; assumption).
           cbn [committed] in Hend.
           destruct (@process_batch_failure _ _ _ _ _ _ _ Hpb)
             as (pre0 & info0 & post0 & Hsplit0 & Hbl0).
           rewrite <- Hclean, Hend in Hbl0. rewrite Hsplit0, Hs.
           destruct (@blocked_fails now' pre0 after (total_files st2) info0
                       post0 Hbl0) as (rows2 & total2 & e2 & -> & Hbl2).
           change (fold_left (scan_step now' batch_size) futures ?s)
             with (run now' batch_size futures s).
           rewrite stuck_final; [exact Hc|].
           exists pre0, info0, post0. split; [reflexivity | exact Hbl2].
        -- (* the first scan commits: the second changes nothing *)
           assert (Habs : Forall (absorbs after) (batch st1 ++ [i])).
           { change (fold_left (scan_step now batch_size) futures ?s)
               with (run now batch_size futures s) in Hend.
             rewrite <- Hend. apply absorbs_until_the_end.
             - reflexivity.
             - cbn [committed]. eapply process_batch_success_absorbs;
                 [exact Hpb|].
               rewrite map_app in Hnd'. now apply NoDup_app_remove_r in Hnd'.
             - intros k Hk. cbn [batch app]. rewrite map_app in Hnd'.
               eapply nodup_app_disjoint; [exact Hnd'|].
               now apply in_map. }
           rewrite Hs, process_batch_absorbed by assumption.
           eapply IH; [exact Hend | reflexivity | reflexivity | reflexivity
                      | reflexivity | ].
           cbn [batch app]. rewrite map_app in Hnd'.
           now apply NoDup_app_remove_l in Hnd'.
      * eapply IH; [exact Hend | exact Hclean | | exact Hc | exact Hs |].
        -- reflexivity.
        -- exact Hnd'.
    + eapply IH; eassumption.
Qed.

(** ** Unique paths *)

Lemma scan_step_nodup (now batch_size : Z) (st : ScanState)
  (future : result FileInfo) :
  NoDup (paths (committed st)) /\ NoDup (paths (session st)) ->
  NoDup (paths (committed (scan_step now batch_size st future)))
  /\ NoDup (paths (session (scan_step now batch_size st future))).
Proof.
  intros (Hc & Hs). destruct future as [i|e]; cbn [scan_step]; [|now split].
  destruct (_ <=? _)%Z; [|now split].
  destruct (process_batch now (session st) (total_files st) (batch st ++ [i]))
    as [[rows' total'] o] eqn:Hpb.
  destruct (@process_batch_paths _ _ _ _ _ _ _ Hpb) as (_ & _ & Hnd).
  destruct o; cbn [committed session]; auto.
Qed.

Lemma scan_path_nodup (now batch_size : Z) (store : table)
  (futures : list (result FileInfo)) :
  NoDup (paths store) ->
  NoDup (paths (fst (scan_path now batch_size store futures))).
Proof.
  intros Hnd. unfold scan_path.
  assert (Hinv : forall st,
             NoDup (paths (committed st)) /\ NoDup (paths (session st)) ->
             let st' := fold_left (scan_step now batch_size) futures st in
             NoDup (paths (committed st')) /\ NoDup (paths (session st'))).
  { induction futures as [|f futures IH]; intros st Hst; simpl; [assumption|].
    apply IH. now apply scan_step_nodup. }
  specialize (Hinv {| committed := store; session := store;
                      batch := []; total_files := 0 |} (conj Hnd Hnd)).
  cbv zeta in Hinv. destruct Hinv as (Hc & Hs).
  unfold scan_finish. destruct (batch _); [assumption|].
  destruct (process_batch _ _ _ _) as [[rows' total'] [e|]] eqn:Hpb;
    cbn [fst]; [assumption|].
  destruct (@process_batch_paths _ _ _ _ _ _ _ Hpb) as (_ & _ & Hn). auto.
Qed.

Lemma update_first_query (rows : table) (info : FileInfo) :
  query_first (update_first rows (info_file_path info) info)
              (info_file_path info)
  = option_map (fun r => set_attrs r info)
               (query_first rows (info_file_path info)).
Proof.
  unfold query_first. induction rows as [|r rows IH]; simpl; [reflexivity|].
  destruct (str_eqb (file_path r) (info_file_path info)) eqn:E; simpl.
  - assert (E' : str_eqb (info_file_path info) (info_file_path info) = true)
      by now apply str_eqb_true.
    now rewrite E'.
  - now rewrite E.
Qed.

(** ** Scans that end without an exception *)

Lemma stuck_raises (now batch_size : Z) (futures : list (result FileInfo))
  (st : ScanState) :
  stuck st ->
  snd (scan_finish now (run now batch_size futures st)) <> None.
Proof.
  intros Hst.
  destruct (@stuck_run now batch_size futures st Hst)
    as ((pre & info & post & Hb & Hbl) & _).
  unfold scan_finish. rewrite Hb.
  destruct (pre ++ info :: post) eqn:E; [now destruct pre|].
  rewrite <- E.
  destruct (@blocked_fails now pre (session (run now batch_size futures st))
              (total_files (run now batch_size futures st)) info post Hbl)
    as (rows' & total' & e & -> & _).
  discriminate.
Qed.

(** A scan that ends without an exception has stored every dictionary. *)
Lemma success_absorbs_all (now batch_size : Z)
  (futures : list (result FileInfo)) :
  forall st known,
    clean st ->
    Forall (absorbs (committed st)) known ->
    NoDup (map info_file_path (known ++ batch st ++ infos_of futures)) ->
    snd (scan_finish now (run now batch_size futures st)) = None ->
    Forall (absorbs (fst (scan_finish now (run now batch_size futures st))))
           (known ++ batch st ++ infos_of futures).
Proof.
  assert (Hbatch : forall st known rows' total',
             clean st ->
             Forall (absorbs (committed st)) known ->
             forall infos,
               NoDup (map info_file_path (known ++ infos)) ->
               process_batch now (session st) (total_files st) infos
               = (rows', total', None) ->
               Forall (absorbs rows') (known ++ infos)).
  { intros st known rows' total' Hclean Hall infos Hnd Hpb.
    rewrite map_app in Hnd. apply Forall_app. split.
    - rewrite Hclean in Hall.
      eapply forall_absorbs_preserved; [exact Hpb | exact Hall |].
      intros k Hk. eapply nodup_app_disjoint; [exact Hnd|].
      now apply in_map.
    - eapply process_batch_success_absorbs; [exact Hpb|].
      now apply NoDup_app_remove_l in Hnd. }
  induction futures as [|f futures IH]; intros st known Hclean Hall Hnd Hok.
  - cbn [infos_of flat_map run fold_left] in *. rewrite app_nil_r in *.
    unfold scan_finish in *.
    destruct (batch st) as [|i0 b] eqn:Eb.
    + now rewrite app_nil_r.
    + destruct (process_batch now (session st) (total_files st) (i0 :: b))
        as [[rows' total'] [e|]] eqn:Hpb; [discriminate|].
      cbn [fst]. eapply Hbatch; eassumption.
  - destruct f as [i|e]; cbn [run fold_left scan_step] in *;
      fold (run now batch_size futures) in *.
    + cbn [infos_of flat_map app] in Hnd |- *.
      fold (infos_of futures) in Hnd |- *.
      assert (Hshape : known ++ batch st ++ i :: infos_of futures
                       = known ++ (batch st ++ [i]) ++ infos_of futures)
        by (now rewrite <- (app_assoc (batch st))).
      destruct (_ <=? _)%Z.
      * destruct (process_batch now (session st) (total_files st)
                    (batch st ++ [i]))
          as [[rows' total'] [e|]] eqn:Hpb.
        -- exfalso. revert Hok. apply stuck_raises.
           destruct (@failure_is_stuck _ _ _ _ _ _ _ Hpb)
             as (pre & info & post & Hb & Hbl).
           now exists pre, info, post.
        -- rewrite Hshape, app_assoc.
           rewrite Hshape, app_assoc in Hnd.
           apply (IH {| committed := rows'; session := rows';
                        batch := []; total_files := total' |}
                     (known ++ batch st ++ [i])).
           ++ reflexivity.
           ++ cbn [committed]. eapply Hbatch; try eassumption.
              rewrite map_app in Hnd. now apply NoDup_app_remove_r in Hnd.
           ++ exact Hnd.
           ++ exact Hok.
      * rewrite Hshape. apply IH; try assumption.
        cbn [batch]. now rewrite <- Hshape.
    + apply IH; assumption.
Qed.

(** Scanning dictionaries that the table already holds changes nothing,
    whatever the batch size and the order. *)
Lemma scan_absorbed (now batch_size : Z) (after : table)
  (futures : list (result FileInfo)) :
  forall st,
    committed st = after -> session st = after ->
    Forall (absorbs after) (batch st ++ infos_of futures) ->
    scan_finish now (run now batch_size futures st) = (after, None).
Proof.
  induction futures as [|f futures IH]; intros st Hc Hs Hall.
  - cbn [infos_of flat_map run fold_left] in *. rewrite app_nil_r in Hall.
    unfold scan_finish. destruct (batch st) as [|i0 b] eqn:Eb.
    + now rewrite Hc.
    + now rewrite Hs, process_batch_absorbed.
  - destruct f as [i|e]; cbn [run fold_left scan_step infos_of flat_map app]
      in *; fold (run now batch_size futures) in *;
      fold (infos_of futures) in *.
    + assert (Hall' : Forall (absorbs after)
                        ((batch st ++ [i]) ++ infos_of futures))
        by (now rewrite <- app_assoc).
      destruct (_ <=? _)%Z.
      * rewrite Hs, process_batch_absorbed
          by (apply Forall_app in Hall'; tauto).
        apply IH; try reflexivity. cbn [batch app].
        apply Forall_app in Hall'. tauto.
      * apply IH; assumption.
    + apply IH; assumption.
Qed.

(** X28: scanning again the files of a scan, with distinct paths.  The
    table after a scan is a fixed point of a second scan that hands over the
    same dictionaries in the same order of completion with the same batch
    size, also when the first scan was ended by an exception.  When the
    first scan ended without an exception, a second scan of any of these
    dictionaries, in any order and with any batch size, changes nothing
    and ends without an exception.  A table without two rows of one path
    stays so. *)
Theorem scan_twice_is_scan_once :
  forall (now now' batch_size : Z) (store : table)
         (futures : list (result FileInfo)),
    NoDup (map info_file_path (infos_of futures)) ->
    let after := fst (scan_path now batch_size store futures) in
    fst (scan_path now' batch_size after futures) = after
    /\ (NoDup (paths store) -> NoDup (paths after))
    /\ (snd (scan_path now batch_size store futures) = None ->
        forall batch_size' futures',
          (forall i, In i (infos_of futures') -> In i (infos_of futures)) ->
          scan_path now' batch_size' after futures' = (after, None)).
Proof.
  intros now now' batch_size store futures Hnd after.
  split; [|split].
  - unfold scan_path.
    apply (@second_scan_follows now now' batch_size after futures
             (start store) (start after));
      try reflexivity. exact Hnd.
  - apply scan_path_nodup.
  - intros Hok batch_size' futures' Hsub.
    apply (@scan_absorbed now' batch_size' after futures' (start after));
      try reflexivity.
    cbn [start batch app].
    pose proof (@success_absorbs_all now batch_size futures (start store) [])
      as Hall.
    cbn [start batch app committed] in Hall.
    specialize (Hall eq_refl (Forall_nil _) Hnd Hok).
    rewrite Forall_forall in *. intros i Hi. apply Hall, Hsub, Hi.
Qed.

End Upsert.

(** ** Closed instances *)

(** Two files without audio keys, a file whose extraction raised and a
    file with audio keys, scanned with batches of two into an empty
    table, and scanned again later in the same order. *)
Lemma scan_twice_is_scan_once_witness :
  let info (p : string) (media : option (@MediaDict digits_mediainfo))
      : @FileInfo digits_mediainfo :=
    {| info_file_path := lit p; info_file_name := lit p;
       info_file_size := 1; info_file_hash := lit "h";
       info_media_type := lit "movie"; info_title := lit p;
       info_year := None; info_season := None; info_episode := None;
       info_media := media |} in
  let video audio : @MediaDict digits_mediainfo :=
    {| md_resolution_width := Some 1920%Z;
       md_resolution_height := Some 1080%Z;
       md_codec := None; md_bitrate := None; md_duration := None;
       md_audio := audio |} in
  let futures :=
    [Ok (info "/m/a.mkv"%string None);
     Ok (info "/m/b.mkv"%string (Some (video None)));
     Raise OtherError;
     Ok (info "/m/c.mkv"%string
              (Some (video (Some {| audio_codec := None;
                                    audio_channels := Some 2%Z;
                                    audio_language := None |}))))] in
  let after := fst (scan_path 100 2 [] futures) in
  paths after = [lit "/m/a.mkv"; lit "/m/b.mkv"]
  /\ snd (scan_path 100 2 [] futures) = Some TypeError
  /\ fst (scan_path 200 2 after futures) = after.
Proof.
  intros info video futures after.
  split; [reflexivity|]. split; [reflexivity|].
  apply (@scan_twice_is_scan_once digits_mediainfo 100 200 2 [] futures).
  repeat constructor; simpl; intuition discriminate.
Defined.

(** C5: the claim fails on the code.  Four files of one directory, the
    last with an audio track, are scanned with batches of two into an
    empty table.  The files complete in the order a, b, c, d: the batch
    of a and b is committed, the batch of c and d raises [TypeError] at
    d, because [MediaFile] has no attribute for the audio keys, and the
    scan ends with this exception and two rows.  The same directory is
    scanned again and the files complete in the order a, c, b, d: the
    batch of a and c is committed, and the scan ends with the same
    exception and three rows.  The second scan of the unchanged
    directory has changed the number of records. *)
Theorem second_scan_adds_a_row :
  let info (p : string) (media : option (@MediaDict digits_mediainfo))
      : @FileInfo digits_mediainfo :=
    {| info_file_path := lit p; info_file_name := lit p;
       info_file_size := 1; info_file_hash := lit "h";
       info_media_type := lit "movie"; info_title := lit p;
       info_year := None; info_season := None; info_episode := None;
       info_media := media |} in
  let video audio : @MediaDict digits_mediainfo :=
    {| md_resolution_width := Some 1920%Z;
       md_resolution_height := Some 1080%Z;
       md_codec := None; md_bitrate := None; md_duration := None;
       md_audio := audio |} in
  let a := info "/m/a.mkv"%string (Some (video None)) in
  let b := info "/m/b.mkv"%string (Some (video None)) in
  let c := info "/m/c.mkv"%string (Some (video None)) in
  let d := info "/m/d.mkv"%string
                (Some (video (Some {| audio_codec := None;
                                      audio_channels := Some 2%Z;
                                      audio_language := None |}))) in
  let first := scan_path 100 2 [] [Ok a; Ok b; Ok c; Ok d] in
  let second := scan_path 200 2 (fst first) [Ok a; Ok c; Ok b; Ok d] in
  snd first = Some TypeError
  /\ paths (fst first) = [lit "/m/a.mkv"; lit "/m/b.mkv"]
  /\ snd second = Some TypeError
  /\ paths (fst second) = [lit "/m/a.mkv"; lit "/m/b.mkv"; lit "/m/c.mkv"]
  /\ List.length (fst second) <> List.length (fst first).
Proof.
  intros info video a b c d first second.
  assert (H1 : paths (fst first) = [lit "/m/a.mkv"; lit "/m/b.mkv"])
    by reflexivity.
  assert (H2 : paths (fst second)
               = [lit "/m/a.mkv"; lit "/m/b.mkv"; lit "/m/c.mkv"])
    by reflexivity.
  split; [reflexivity|]. split; [exact H1|]. split; [reflexivity|].
  split; [exact H2|].
  unfold paths in H1, H2. intros Heq.
  apply (f_equal (@List.length _)) in H1, H2.
  rewrite length_map in H1, H2. rewrite H1 in Heq. rewrite Heq in H2.
  discriminate.
Qed.

End CliSpec.


(* ================================================================== *)
(** * Properties of the matcher                                        *)
(* ================================================================== *)

Module ReSpec.

Import Re Notions.

Lemma k_ext_none (k : str -> option nat) (s : str) (m : nat) :
  k_ext k -> k s = None -> k (firstn m s) = None.
Proof.
  intros Hext Hnone. destruct (k (firstn m s)) as [n|] eqn:E; [|reflexivity].
  apply (Hext _ (skipn m s)) in E. now rewrite firstn_skipn in E.
Qed.

(** ** One character *)

Lemma one_bound c k : k_bound k -> k_bound (one c k).
Proof.
  intros Hk [|x s] n; simpl; [discriminate|].
  destruct (in_cls c x); [|discriminate].
  destruct (k s) as [n0|] eqn:E; [|discriminate].
  intros [= <-]. apply Hk in E. lia.
Qed.

Lemma one_ext c k : k_ext k -> k_ext (one c k).
Proof.
  intros Hk [|x s] t n; simpl; [discriminate|].
  destruct (in_cls c x); [|discriminate].
  destruct (k s) as [n0|] eqn:E; [|discriminate].
  intros _. apply (Hk _ t) in E. now destruct (k (s ++ t)).
Qed.

Lemma one_trunc c k : k_trunc k -> k_trunc (one c k).
Proof.
  intros Hk [|x s] n m; simpl; [discriminate|].
  destruct (in_cls c x) eqn:Ec; [|discriminate].
  destruct (k s) as [n0|] eqn:E; [|discriminate].
  intros [= <-] Hle. destruct m as [|m]; [lia|]. simpl. rewrite Ec.
  rewrite (Hk _ _ m E) by lia. reflexivity.
Qed.

(** ** Lazy star *)

Lemma lazy_star_bound c k : k_bound k -> k_bound (lazy_star c k).
Proof.
  intros Hk s. induction s as [|x s IH]; intros n; simpl.
  - destruct (k []) eqn:E; [|discriminate]. intros [= <-]. now apply Hk in E.
  - destruct (k (x :: s)) eqn:E.
    + intros [= <-]. now apply Hk in E.
    + destruct (in_cls c x); [|discriminate].
      destruct (lazy_star c k s) as [n0|] eqn:E0; [|discriminate].
      intros [= <-]. specialize (IH _ eq_refl). simpl. lia.
Qed.

Lemma lazy_star_ext c k : k_ext k -> k_ext (lazy_star c k).
Proof.
  intros Hk s. induction s as [|x s IH]; intros t n.
  - simpl. destruct (k []) eqn:E; [|discriminate]. intros _.
    apply (Hk _ t) in E. simpl in E.
    destruct t; simpl; destruct (k _); congruence.
  - cbn [lazy_star app].
    destruct (k (x :: s)) eqn:E.
    + intros _. apply (Hk _ t) in E. cbn [app] in E.
      destruct (k (x :: s ++ t)); congruence.
    + destruct (in_cls c x); [|discriminate].
      destruct (lazy_star c k s) as [n0|] eqn:E0; [|discriminate].
      intros _. specialize (IH t _ eq_refl).
      destruct (k (x :: s ++ t)); [discriminate|].
      destruct (lazy_star c k (s ++ t)); [discriminate | congruence].
Qed.

Lemma lazy_star_trunc c k : k_ext k -> k_trunc k -> k_trunc (lazy_star c k).
Proof.
  intros Hext Hk s. induction s as [|x s IH]; intros n m.
  - rewrite firstn_nil. tauto.
  - cbn [lazy_star]. destruct (k (x :: s)) eqn:E.
    + intros [= <-] Hle. pose proof (Hk _ _ _ E Hle) as E'.
      destruct m; simpl in *; now rewrite E'.
    + destruct (in_cls c x) eqn:Ec; [|discriminate].
      destruct (lazy_star c k s) as [n0|] eqn:E0; [|discriminate].
      intros [= <-] Hle. destruct m as [|m]; [lia|].
      pose proof (@k_ext_none k (x :: s) (S m) Hext E) as E'. cbn [firstn] in *.
      cbn [lazy_star]. rewrite E', Ec.
      rewrite (IH n0 m eq_refl) by lia. reflexivity.
Qed.

(** ** Greedy repetition *)

Lemma rep_bound c k : k_bound k -> forall hi lo, k_bound (rep c lo hi k).
Proof.
  intros Hk hi. induction hi as [|hi IH]; intros lo s n; simpl.
  - destruct (lo =? 0); [apply Hk | discriminate].
  - assert (Hstop : (if lo =? 0 then k s else None) = Some n ->
                    n <= List.length s)
      by (destruct (lo =? 0); [apply Hk | discriminate]).
    destruct s as [|x s]; [exact Hstop|].
    destruct (in_cls c x); [|exact Hstop].
    destruct (rep c (pred lo) hi k s) as [n0|] eqn:E; [|exact Hstop].
    intros [= <-]. apply IH in E. simpl. lia.
Qed.

Lemma rep_ext c k : k_ext k -> forall hi lo, k_ext (rep c lo hi k).
Proof.
  intros Hk hi. induction hi as [|hi IH]; intros lo s t n; simpl.
  - destruct (lo =? 0); [apply Hk | discriminate].
  - assert (Hstop : (if lo =? 0 then k s else None) = Some n ->
                    (if lo =? 0 then k (s ++ t) else None) <> None)
      by (destruct (lo =? 0); [apply Hk | discriminate]).
    destruct s as [|x s].
    + intros Hs. specialize (Hstop Hs). simpl in *.
      destruct t as [|y t]; [exact Hstop|].
      destruct (in_cls c y); [|exact Hstop].
      destruct (rep c (pred lo) hi k t); [discriminate | exact Hstop].
    + cbn [app]. destruct (in_cls c x); [|exact Hstop].
      destruct (rep c (pred lo) hi k s) as [n0|] eqn:E.
      * intros _. apply (IH _ _ t) in E.
        destruct (rep c (pred lo) hi k (s ++ t)); [discriminate|congruence].
      * intros Hs. specialize (Hstop Hs).
        destruct (rep c (pred lo) hi k (s ++ t)); [discriminate|exact Hstop].
Qed.

Lemma rep_trunc c k :
  k_ext k -> k_trunc k -> forall hi lo, k_trunc (rep c lo hi k).
Proof.
  intros Hext Hk hi. induction hi as [|hi IH]; intros lo s n m.
  - simpl. destruct (lo =? 0); [apply Hk | discriminate].
  - assert (Hstop : (if lo =? 0 then k s else None) = Some n -> n <= m ->
                    (if lo =? 0 then k (firstn m s) else None) = Some n)
      by (destruct (lo =? 0); [apply Hk | discriminate]).
    destruct s as [|x s]; [now rewrite firstn_nil|].
    cbn [rep]. destruct (in_cls c x) eqn:Ec.
    + destruct (rep c (pred lo) hi k s) as [n0|] eqn:E.
      * intros [= <-] Hle. destruct m as [|m]; [lia|].
        cbn [firstn rep]. rewrite Ec, (IH _ _ _ m E) by lia. reflexivity.
      * intros Hs Hle. specialize (Hstop Hs Hle).
        destruct m as [|m].
        -- cbn [firstn] in *. destruct hi; simpl; exact Hstop.
        -- cbn [firstn rep] in *. rewrite Ec.
           rewrite (@k_ext_none _ s m (@rep_ext c k Hext hi (pred lo)) E).
           exact Hstop.
    + intros Hs Hle. specialize (Hstop Hs Hle).
      destruct m as [|m].
      * cbn [firstn] in *. destruct hi; simpl; exact Hstop.
      * cbn [firstn rep] in *. rewrite Ec. exact Hstop.
Qed.

(** ** Alternation of words *)

Lemma starts_with_length (w s : str) :
  starts_with w s = true -> List.length w <= List.length s.
Proof.
  revert s. induction w as [|a w IH]; intros [|b s]; simpl;
    try discriminate; try lia.
  intros Hw. apply andb_prop in Hw. destruct Hw as (_ & Hw).
  apply IH in Hw. lia.
Qed.

Lemma starts_with_app (w s t : str) :
  starts_with w s = true -> starts_with w (s ++ t) = true.
Proof.
  revert s. induction w as [|a w IH]; intros [|b s]; simpl;
    try discriminate; try reflexivity.
  intros Hw. apply andb_prop in Hw. destruct Hw as (-> & Hw).
  now rewrite IH.
Qed.

Lemma starts_with_skipn_app (w s t : str) :
  starts_with w s = true ->
  skipn (List.length w) (s ++ t) = skipn (List.length w) s ++ t.
Proof.
  intros Hw. apply starts_with_length in Hw.
  rewrite skipn_app. replace (List.length w - List.length s) with 0 by lia.
  reflexivity.
Qed.

Lemma starts_with_firstn (w s : str) (m : nat) :
  starts_with w s = true -> List.length w <= m ->
  starts_with w (firstn m s) = true.
Proof.
  revert s m. induction w as [|a w IH]; intros [|b s] m; simpl;
    try discriminate; try reflexivity.
  intros Hw Hle. destruct m as [|m]; [lia|]. simpl.
  apply andb_prop in Hw. destruct Hw as (-> & Hw).
  rewrite IH by (assumption || lia). reflexivity.
Qed.

Lemma starts_with_firstn_inv (w s : str) (m : nat) :
  starts_with w (firstn m s) = true -> starts_with w s = true.
Proof.
  revert s m. induction w as [|a w IH]; intros s m; [reflexivity|].
  destruct m as [|m], s as [|b s]; simpl; try discriminate.
  intros Hw. apply andb_prop in Hw. destruct Hw as (-> & Hw).
  now rewrite (IH _ _ Hw).
Qed.

Lemma alt_bound ws k : k_bound k -> k_bound (alt ws k).
Proof.
  intros Hk. induction ws as [|w ws IH]; intros s n; simpl; [discriminate|].
  destruct (starts_with w s) eqn:Ew; [|apply IH].
  destruct (k (skipn (List.length w) s)) as [n0|] eqn:E; [|apply IH].
  intros [= <-]. apply Hk in E. rewrite length_skipn in E.
  apply starts_with_length in Ew. lia.
Qed.

Lemma alt_ext ws k : k_ext k -> k_ext (alt ws k).
Proof.
  intros Hk. induction ws as [|w ws IH]; intros s t n; simpl; [discriminate|].
  destruct (starts_with w s) eqn:Ew.
  - rewrite (starts_with_app _ _ t Ew), (starts_with_skipn_app _ _ t Ew).
    destruct (k (skipn (List.length w) s)) as [n0|] eqn:E.
    + intros _. apply (Hk _ t) in E.
      destruct (k (skipn (List.length w) s ++ t)); [discriminate|congruence].
    + intros Hs. apply (IH _ t) in Hs.
      destruct (k (skipn (List.length w) s ++ t)); [discriminate|exact Hs].
  - intros Hs. apply (IH _ t) in Hs.
    destruct (starts_with w (s ++ t)); [|exact Hs].
    destruct (k (skipn (List.length w) (s ++ t))); [discriminate|exact Hs].
Qed.

Lemma alt_trunc ws k : k_ext k -> k_trunc k -> k_trunc (alt ws k).
Proof.
  intros Hext Hk. induction ws as [|w ws IH]; intros s n m; simpl;
    [discriminate|].
  destruct (starts_with w s) eqn:Ew.
  - destruct (k (skipn (List.length w) s)) as [n0|] eqn:E.
    + intros [= <-] Hle.
      rewrite starts_with_firstn by (assumption || lia).
      rewrite skipn_firstn_comm, (Hk _ _ _ E) by lia. reflexivity.
    + intros Hs Hle.
      destruct (starts_with w (firstn m s)); [|now apply IH].
      rewrite skipn_firstn_comm.
      rewrite (@k_ext_none k _ (m - List.length w) Hext E). now apply IH.
  - intros Hs Hle.
    destruct (starts_with w (firstn m s)) eqn:Ew'; [|now apply IH].
    apply starts_with_firstn_inv in Ew'. congruence.
Qed.

(** ** Whole patterns *)

Lemma match_here_props (p : regex) :
  k_bound (match_here p) /\ k_ext (match_here p) /\ k_trunc (match_here p).
Proof.
  induction p as [|a p (Hb & He & Ht)].
  - repeat split.
    + intros s n [= <-]. apply Nat.le_0_l.
    + intros s t n _. discriminate.
    + intros s n m [= <-] _. reflexivity.
  - destruct a as [c|c lo hi|c|ws]; cbn [match_here]; repeat split.
    + now apply one_bound.
    + now apply one_ext.
    + now apply one_trunc.
    + now apply rep_bound.
    + now apply rep_ext.
    + now apply rep_trunc.
    + now apply lazy_star_bound.
    + now apply lazy_star_ext.
    + now apply lazy_star_trunc.
    + now apply alt_bound.
    + now apply alt_ext.
    + now apply alt_trunc.
Qed.

(** ** Search *)

Lemma search_from_spec (p : regex) (s : str) :
  forall i,
    match search_from p i s with
    | Some (j, n) =>
        exists d, j = i + d /\ d <= List.length s
                  /\ match_here p (skipn d s) = Some n
                  /\ forall d', d' < d -> match_here p (skipn d' s) = None
    | None => forall d, d <= List.length s -> match_here p (skipn d s) = None
    end.
Proof.
  induction s as [|x s IH]; intros i; simpl.
  - destruct (match_here p []) as [n|] eqn:E.
    + exists 0. repeat split; try lia. exact E.
    + intros d Hd. now rewrite skipn_nil.
  - destruct (match_here p (x :: s)) as [n|] eqn:E.
    + exists 0. repeat split; try lia. exact E.
    + specialize (IH (S i)).
      destruct (search_from p (S i) s) as [[j n]|].
      * destruct IH as (d & -> & Hd & Hm & Hmin).
        exists (S d). repeat split; try lia; [exact Hm|].
        intros [|d'] Hlt; [exact E|]. apply Hmin. lia.
      * intros [|d] Hd; [exact E|]. apply IH. lia.
Qed.

Lemma first_start_le (p : regex) (s : str) :
  first_start p s <= List.length s.
Proof.
  unfold first_start, search. pose proof (search_from_spec p s 0) as Hs.
  destruct (search_from p 0 s) as [[j n]|]; [|lia].
  destruct Hs as (d & -> & Hd & _). lia.
Qed.

Lemma first_start_none_before (p : regex) (s : str) (j : nat) :
  j < first_start p s -> match_here p (skipn j s) = None.
Proof.
  unfold first_start, search. pose proof (search_from_spec p s 0) as Hs.
  destruct (search_from p 0 s) as [[i n]|].
  - destruct Hs as (d & -> & _ & _ & Hmin). intros Hj. apply Hmin. lia.
  - intros Hj. apply Hs. lia.
Qed.

Lemma first_start_found (p : regex) (s : str) (i : nat) :
  i <= List.length s ->
  match_here p (skipn i s) <> None ->
  (forall j, j < i -> match_here p (skipn j s) = None) ->
  exists n, search p s = Some (i, n) /\ match_here p (skipn i s) = Some n.
Proof.
  intros Hi Hm Hmin. unfold search.
  pose proof (search_from_spec p s 0) as Hs.
  destruct (search_from p 0 s) as [[j n]|].
  - destruct Hs as (d & -> & Hd & Hn & Hmin'). simpl.
    destruct (Nat.lt_trichotomy d i) as [Hlt|[->|Hgt]].
    + rewrite (Hmin _ Hlt) in Hn. discriminate.
    + now exists n.
    + now rewrite (Hmin' _ Hgt) in Hm.
  - now rewrite (Hs _ Hi) in Hm.
Qed.

Lemma first_start_lower (p : regex) (s : str) (c : nat) :
  c <= List.length s ->
  (forall j, j < c -> match_here p (skipn j s) = None) ->
  c <= first_start p s.
Proof.
  intros Hc Hmin. unfold first_start, search.
  pose proof (search_from_spec p s 0) as Hs.
  destruct (search_from p 0 s) as [[j n]|]; [|exact Hc].
  destruct Hs as (d & -> & _ & Hn & _). simpl.
  destruct (Nat.lt_ge_cases d c) as [Hlt|Hge]; [|exact Hge].
  rewrite (Hmin _ Hlt) in Hn. discriminate.
Qed.

Lemma split0_firstn (p : regex) (s : str) :
  split0 p s = firstn (first_start p s) s.
Proof.
  unfold split0, first_start. destruct (search p s) as [[i n]|];
    [reflexivity|]. symmetry. apply firstn_all.
Qed.

(** ** Matches in a prefix *)

Lemma search_some (p : regex) (s : str) (i n : nat) :
  search p s = Some (i, n) ->
  i <= List.length s
  /\ match_here p (skipn i s) = Some n
  /\ (forall j, j < i -> match_here p (skipn j s) = None)
  /\ first_start p s = i.
Proof.
  intros Hs. unfold first_start. rewrite Hs. unfold search in Hs.
  pose proof (search_from_spec p s 0) as Hspec. rewrite Hs in Hspec.
  destruct Hspec as (d & -> & Hd & Hm & Hmin). simpl. auto.
Qed.

Lemma none_in_prefix (p : regex) (s : str) (c j : nat) :
  match_here p (skipn j s) = None ->
  match_here p (skipn j (firstn c s)) = None.
Proof.
  intros Hnone. rewrite skipn_firstn_comm.
  apply k_ext_none; [apply match_here_props | exact Hnone].
Qed.

(** Cutting the text does not create an earlier match. *)
Lemma first_start_prefix (p : regex) (s : str) (c : nat) :
  c <= List.length s ->
  Nat.min (first_start p s) c <= first_start p (firstn c s).
Proof.
  intros Hc. apply first_start_lower.
  - rewrite length_firstn. lia.
  - intros j Hj. apply none_in_prefix, first_start_none_before. lia.
Qed.

(** A match that ends before the cut is still the first match. *)
Lemma first_start_keep (p : regex) (s : str) (i n c : nat) :
  search p s = Some (i, n) ->
  i + n <= c -> c <= List.length s ->
  first_start p (firstn c s) = i.
Proof.
  intros Hs Hend Hc. destruct (search_some _ _ Hs) as (Hi & Hm & Hmin & _).
  destruct (@first_start_found p (firstn c s) i) as (n' & Hs' & _).
  - rewrite length_firstn. lia.
  - rewrite skipn_firstn_comm.
    destruct (match_here_props p) as (_ & _ & Ht).
    rewrite (Ht _ _ (c - i) Hm) by lia. discriminate.
  - intros j Hj. apply none_in_prefix, Hmin, Hj.
  - unfold first_start. now rewrite Hs'.
Qed.

(** ** Patterns applied one after another *)

Lemma fold_split0 (ps : list regex) (s : str) :
  forall c, c <= List.length s ->
            fold_left (fun name p => split0 p name) ps (firstn c s)
            = firstn (seq_cut ps s c) s
            /\ seq_cut ps s c <= c.
Proof.
  unfold seq_cut. induction ps as [|p ps IH]; intros c Hc; simpl.
  - split; [reflexivity | lia].
  - pose proof (first_start_le p (firstn c s)) as Hle.
    rewrite length_firstn in Hle.
    rewrite split0_firstn, firstn_firstn.
    replace (Nat.min (first_start p (firstn c s)) c)
      with (first_start p (firstn c s)) by lia.
    destruct (IH (first_start p (firstn c s))) as (IH1 & IH2); [lia|].
    split; [exact IH1 | lia].
Qed.

Lemma seq_cut_lower (ps : list regex) (s : str) (low : nat) :
  (forall q, In q ps -> low <= first_start q s) ->
  forall c, c <= List.length s -> low <= c -> low <= seq_cut ps s c.
Proof.
  unfold seq_cut. induction ps as [|p ps IH]; intros Hlow c Hc Hl; simpl.
  - exact Hl.
  - pose proof (first_start_le p (firstn c s)) as Hle.
    rewrite length_firstn in Hle.
    apply IH.
    + intros q Hq. apply Hlow. now right.
    + lia.
    + pose proof (first_start_prefix p s Hc) as Hpre.
      specialize (Hlow p (or_introl eq_refl)). lia.
Qed.

Lemma seq_cut_fixed (ps : list regex) (s : str) (low : nat) :
  (forall q, In q ps -> low <= first_start q s) ->
  low <= List.length s ->
  seq_cut ps s low = low.
Proof.
  intros Hlow Hl. apply Nat.le_antisymm.
  - apply (fold_split0 ps s Hl).
  - now apply seq_cut_lower.
Qed.

(** The cut is exactly the start [i] of the first match of [p] as soon
    as the matches of the patterns applied before [p] all start at or
    after the end of that match, and no pattern applied after [p] has a
    match that starts before [i]. *)
Lemma seq_cut_exact (before after : list regex) (p : regex) (s : str)
  (i n : nat) :
  search p s = Some (i, n) ->
  (forall q, In q before -> i + n <= first_start q s) ->
  (forall q, In q after -> i <= first_start q s) ->
  seq_cut (before ++ p :: after) s (List.length s) = i.
Proof.
  intros Hs Hbefore Hafter.
  destruct (search_some _ _ Hs) as (Hi & Hm & _ & _).
  assert (Hn : i + n <= List.length s).
  { destruct (match_here_props p) as (Hb & _ & _). apply Hb in Hm.
    rewrite length_skipn in Hm. lia. }
  unfold seq_cut. rewrite fold_left_app. cbn [fold_left].
  fold (seq_cut before s (List.length s)).
  set (c := seq_cut before s (List.length s)).
  assert (Hc : i + n <= c <= List.length s).
  { split.
    - apply seq_cut_lower; [exact Hbefore | lia | exact Hn].
    - apply (fold_split0 before s (Nat.le_refl _)). }
  rewrite (@first_start_keep p s i n c Hs) by lia.
  apply seq_cut_fixed; assumption.
Qed.

End ReSpec.


(* ================================================================== *)
(** * Properties of the identity fields ([_extract_title] and others)  *)
(* ================================================================== *)

Module IdentitySpec.

Import Re Scanner Notions ReSpec.

(** ** The three tag patterns, read directly *)

Ltac split_tests :=
  repeat match goal with
    | |- context [Ascii.eqb ?x ?y] =>
        destruct (Ascii.eqb x y); cbn -[is_digit Ascii.eqb]
    | |- context [is_digit ?x] =>
        destruct (is_digit x); cbn -[is_digit Ascii.eqb]
    end;
  try reflexivity.

Lemma year_match (s : str) :
  match_here year_pattern s = if year_here s then Some 4 else None.
Proof.
  unfold year_pattern, year_here.
  destruct s as [|a [|b [|c [|d r]]]]; cbn -[is_digit Ascii.eqb];
    split_tests.
Qed.

Lemma season_match (s : str) :
  match_here season_pattern s
  = if tag_here "S" "s" s
    then Some (S (List.length (leading_digits 2 (tl s)))) else None.
Proof.
  unfold season_pattern, tag_here.
  destruct s as [|a [|b [|c r]]]; cbn -[is_digit Ascii.eqb]; split_tests.
Qed.

Lemma episode_match (s : str) :
  match_here episode_pattern s
  = if tag_here "E" "e" s
    then Some (S (List.length (leading_digits 3 (tl s)))) else None.
Proof.
  unfold episode_pattern, tag_here.
  destruct s as [|a [|b [|c [|d r]]]]; cbn -[is_digit Ascii.eqb];
    split_tests.
Qed.

Lemma firstn_leading_digits (k : nat) (s : str) :
  firstn (List.length (leading_digits k s)) s = leading_digits k s.
Proof.
  revert s. induction k as [|k IH]; intros [|c s]; simpl; try reflexivity.
  destruct (is_digit c); simpl; [now rewrite IH | reflexivity].
Qed.

(** A pattern that is decided by a test on the beginning of the text is
    found at the first position where the test holds. *)
Lemma search_by_test (p : regex) (here : str -> bool) (len : str -> nat) :
  (forall s, match_here p s = if here s then Some (len s) else None) ->
  forall stem,
    (forall i, first_at here stem i ->
               search p stem = Some (i, len (skipn i stem)))
    /\ ((forall j, here (skipn j stem) = false) -> search p stem = None).
Proof.
  intros Hp stem. split.
  - intros i (Hhere & Hmin).
    assert (Hi : i <= List.length stem).
    { destruct (Nat.le_gt_cases i (List.length stem)) as [Hle|Hgt];
        [exact Hle|].
      specialize (Hmin _ Hgt). rewrite skipn_all in Hmin.
      rewrite skipn_all2 in Hhere by lia. congruence. }
    destruct (@first_start_found p stem i Hi) as (n & Hs & Hm).
    + rewrite Hp, Hhere. discriminate.
    + intros j Hj. rewrite Hp, (Hmin _ Hj). reflexivity.
    + rewrite Hp, Hhere in Hm. injection Hm as <-. exact Hs.
  - intros Hnone. unfold search.
    pose proof (search_from_spec p stem 0) as Hspec.
    destruct (search_from p 0 stem) as [[j n]|]; [|reflexivity].
    destruct Hspec as (d & _ & _ & Hm & _).
    rewrite Hp, (Hnone d) in Hm. discriminate.
Qed.

(** ** The title *)

Lemma lexically_first_cut_le (stem : str) :
  lexically_first_cut stem <= List.length stem
  /\ forall q, In q title_patterns ->
               lexically_first_cut stem <= first_start q stem.
Proof.
  unfold lexically_first_cut, title_patterns. cbn [map fold_right].
  split; [lia|]. intros q [<-|[<-|[<-|[<-|[]]]]]; lia.
Qed.

Lemma title_cut_seq (stem : str) :
  title_cut stem
  = firstn (seq_cut title_patterns stem (List.length stem)) stem.
Proof.
  unfold title_cut.
  rewrite <- (firstn_all stem) at 1.
  apply (fold_split0 title_patterns stem (Nat.le_refl _)).
Qed.

Lemma tl_skipn (i : nat) (s : str) : tl (skipn i s) = skipn (S i) s.
Proof.
  revert s. induction i as [|i IH]; intros [|c s]; try reflexivity.
  apply IH.
Qed.

Lemma tag_group (k i : nat) (stem : str) :
  group1 stem (i, S (List.length (leading_digits k (tl (skipn i stem)))))
  = leading_digits k (skipn (S i) stem).
Proof.
  unfold group1. cbn [fst snd]. rewrite tl_skipn, Nat.add_1_r.
  cbn [Nat.sub]. rewrite Nat.sub_0_r. apply firstn_leading_digits.
Qed.

(** X29: what the four extractions give for every stem.  The title is
    the cleaned text before a cut that is never earlier than the
    lexically first match among the four patterns, and it is the stem
    truncated at that first match whenever the matches of the patterns
    listed before the matching one all start at or after the end of
    that match; the year is the value
    of the first [19dd] or [20dd], the season the value of the one or two
    digits after the first [S] or [s] that a digit follows, the episode
    the value of the one to three digits after the first [E] or [e] that
    a digit follows, and each is absent when the stem has no such place.
    The two stems of the specification give the stated fields. *)
Theorem extract_identity_spec :
  (forall stem : str,
      (exists cut,
          lexically_first_cut stem <= cut <= List.length stem
          /\ _extract_title stem = clean_title (firstn cut stem))
      /\ (forall before p after i n,
            title_patterns = before ++ p :: after ->
            search p stem = Some (i, n) ->
            i = lexically_first_cut stem ->
            (forall q, In q before -> i + n <= first_start q stem) ->
            _extract_title stem = title_by_first_match stem)
      /\ (forall i, first_at year_here stem i ->
                    _extract_year stem
                    = Some (int_of_digits (firstn 4 (skipn i stem))))
      /\ ((forall j, year_here (skipn j stem) = false) ->
          _extract_year stem = None)
      /\ (forall i, first_at (tag_here "S" "s") stem i ->
                    _extract_season stem
                    = Some (int_of_digits
                              (leading_digits 2 (skipn (S i) stem))))
      /\ ((forall j, tag_here "S" "s" (skipn j stem) = false) ->
          _extract_season stem = None)
      /\ (forall i, first_at (tag_here "E" "e") stem i ->
                    _extract_episode stem
                    = Some (int_of_digits
                              (leading_digits 3 (skipn (S i) stem))))
      /\ ((forall j, tag_here "E" "e" (skipn j stem) = false) ->
          _extract_episode stem = None))
  /\ (_extract_title (lit "Show.Name.S02E05.1080p") = lit "Show Name"
      /\ _extract_season (lit "Show.Name.S02E05.1080p") = Some 2%Z
      /\ _extract_episode (lit "Show.Name.S02E05.1080p") = Some 5%Z
      /\ _extract_year (lit "Show.Name.S02E05.1080p") = None)
  /\ (_extract_title (lit "Movie.Title.2019.1080p") = lit "Movie Title"
      /\ _extract_year (lit "Movie.Title.2019.1080p") = Some 2019%Z
      /\ _extract_season (lit "Movie.Title.2019.1080p") = None
      /\ _extract_episode (lit "Movie.Title.2019.1080p") = None).
Proof.
  split; [|split; repeat split; reflexivity].
  intros stem.
  destruct (lexically_first_cut_le stem) as (Hlen & Hlow).
  assert (Htitle : _extract_title stem
                   = clean_title
                       (firstn (seq_cut title_patterns stem
                                        (List.length stem)) stem)).
  { unfold _extract_title. now rewrite title_cut_seq. }
  split; [|split].
  - exists (seq_cut title_patterns stem (List.length stem)).
    split; [split|exact Htitle].
    + now apply seq_cut_lower.
    + apply (fold_split0 title_patterns stem (Nat.le_refl _)).
  - intros before p after i n Hpat Hs Hi Hbefore.
    rewrite Htitle. unfold title_by_first_match. rewrite <- Hi, Hpat.
    rewrite (@seq_cut_exact before after p stem i n Hs Hbefore);
      [reflexivity|].
    intros q Hq. rewrite Hi. apply Hlow. rewrite Hpat.
    apply in_or_app. now right; right.
  - destruct (search_by_test year_pattern year_here (fun _ => 4)
                year_match stem) as (Hy1 & Hy2).
    destruct (search_by_test season_pattern (tag_here "S" "s")
                (fun s => S (List.length (leading_digits 2 (tl s))))
                season_match stem) as (Hs1 & Hs2).
    destruct (search_by_test episode_pattern (tag_here "E" "e")
                (fun s => S (List.length (leading_digits 3 (tl s))))
                episode_match stem) as (He1 & He2).
    repeat split.
    + intros i Hi. unfold _extract_year. now rewrite (Hy1 i Hi).
    + intros Hnone. unfold _extract_year. now rewrite (Hy2 Hnone).
    + intros i Hi. unfold _extract_season.
      now rewrite (Hs1 i Hi), tag_group.
    + intros Hnone. unfold _extract_season. now rewrite (Hs2 Hnone).
    + intros i Hi. unfold _extract_episode.
      now rewrite (He1 i Hi), tag_group.
    + intros Hnone. unfold _extract_episode. now rewrite (He2 Hnone).
Qed.

(** ** Closed instances *)

(** C2: the claim fails on the code.  In [Movie (2019)] the lexically
    first match is the parenthesized tag, at offset 6, so that the title
    of the claim is [Movie]; the code returns [Movie (].  It cuts at the
    four digits first, and the text that is left holds no complete
    parenthesized tag for the pattern that was listed to cut it.  In the
    same way [Show [1080p]] gives [Show [] where the bracketed tag
    should have been cut. *)
Lemma title_keeps_the_open_parenthesis :
  lexically_first_cut (lit "Movie (2019)") = 6
  /\ title_by_first_match (lit "Movie (2019)") = lit "Movie"
  /\ _extract_title (lit "Movie (2019)") = lit "Movie ("
  /\ _extract_title (lit "Movie (2019)")
     <> title_by_first_match (lit "Movie (2019)")
  /\ title_by_first_match (lit "Show [1080p]") = lit "Show"
  /\ _extract_title (lit "Show [1080p]") = lit "Show [".
Proof.
  split; [reflexivity|]. split; [reflexivity|]. split; [reflexivity|].
  split; [discriminate|]. split; reflexivity.
Qed.

(** The stem [Show.Name.S02E05.1080p]: the first match is [S02E05], at
    offset 10, and the four digits start after its end. *)
Lemma extract_identity_spec_witness :
  let stem := lit "Show.Name.S02E05.1080p" in
  _extract_title stem = title_by_first_match stem
  /\ _extract_year stem = None
  /\ _extract_season stem = Some 2%Z
  /\ _extract_episode stem = Some 5%Z.
Proof.
  intros stem.
  destruct (proj1 extract_identity_spec stem)
    as (_ & Htitle & _ & Hyear & Hseason & _ & Hepisode & _).
  split; [|split; [|split]].
  - apply (Htitle [[Rep Digit 4 4]]
             [One (OneOf (lit "Ss")); Rep Digit 2 2;
              One (OneOf (lit "Ee")); Rep Digit 2 2]
             [[One (Chr "["); LazyStar Dot; One (Chr "]")];
              [One (Chr "("); LazyStar Dot; One (Chr ")")]]
             10 6); try reflexivity.
    intros q [<-|[]]. vm_compute. lia.
  - apply Hyear. intros j.
    do 23 (destruct j as [|j]; [reflexivity|]). now destruct j.
  - apply (Hseason 10). split; [reflexivity|].
    intros j Hj. do 10 (destruct j as [|j]; [reflexivity|]). lia.
  - apply (Hepisode 13). split; [reflexivity|].
    intros j Hj. do 13 (destruct j as [|j]; [reflexivity|]). lia.
Defined.

End IdentitySpec.


(* ================================================================== *)
(** * Further properties of the upsert loop ([cli.py])                 *)
(* ================================================================== *)

Module CliMore.

Import Scanner Cli Notions MoreNotions CliSpec.

Section Loop.

Context `{MediaInfoLib}.

Local Abbreviation MediaFile := (MediaFile float).

(** ** Futures that raised *)

Lemma run_skips_failures (now batch_size : Z)
  (futures : list (result FileInfo)) :
  forall st,
    run now batch_size futures st
    = run now batch_size (map Ok (infos_of futures)) st.
Proof.
  unfold run. induction futures as [|f futures IH]; intros st;
    [reflexivity|].
  destruct f as [i|e]; cbn [infos_of flat_map app map fold_left];
    fold (infos_of futures).
  - apply IH.
  - cbn [scan_step]. apply IH.
Qed.

(** X1: the futures whose [result()] raised have no influence on the
    scan: the table and the outcome are those of the scan of the
    dictionaries that were returned, in the same order. *)
Theorem scan_path_skips_failed_extractions :
  forall (now batch_size : Z) (store : table)
         (futures : list (result FileInfo)),
    scan_path now batch_size store futures
    = scan_path now batch_size store (map Ok (infos_of futures)).
Proof.
  intros now batch_size store futures. unfold scan_path.
  change (fold_left (scan_step now batch_size) ?l ?s)
    with (run now batch_size l s).
  now rewrite run_skips_failures.
Qed.

(** ** Rows are never removed or moved *)













(** ** New files without audio keys *)

Lemma new_media_file_fresh (now key : Z) (info : FileInfo) :
  has_audio_keys info = false ->
  new_media_file now key info = Ok (fresh_row now key info).
Proof. intros Ha. unfold new_media_file. now rewrite Ha. Qed.

Lemma fold_max_app (l : list Z) (x a : Z) :
  fold_left Z.max (l ++ [x]) a = Z.max (fold_left Z.max l a) x.
Proof. now rewrite fold_left_app. Qed.

Lemma next_id_after_insert (now : Z) (rows : table) (info : FileInfo) :
  next_id (rows ++ [fresh_row now (next_id rows) info])
  = (next_id rows + 1)%Z.
Proof.
  unfold next_id at 1. rewrite map_app. cbn [map id fresh_row].
  unfold next_id. destruct (map (@id float) rows) as [|k ks]; [reflexivity|].
  cbn [app]. rewrite fold_max_app. lia.
Qed.

Lemma fresh_rows_app (now : Z) (a b : list FileInfo) :
  forall key,
    fresh_rows now key (a ++ b)
    = fresh_rows now key a
      ++ fresh_rows now (key + Z.of_nat (List.length a)) b.
Proof.
  induction a as [|i a IH]; intros key; simpl.
  - now rewrite Z.add_0_r.
  - rewrite IH. do 3 f_equal. lia.
Qed.

Lemma fresh_rows_paths (now : Z) (infos : list FileInfo) :
  forall key, paths (fresh_rows now key infos) = map info_file_path infos.
Proof.
  unfold paths. induction infos as [|i infos IH]; intros key; simpl;
    [reflexivity|]. now rewrite IH.
Qed.

Lemma process_batch_fresh (now : Z) (infos : list FileInfo) :
  forall (rows : table) (total : nat),
    NoDup (map info_file_path infos) ->
    (forall i, In i infos ->
               ~ In (info_file_path i) (paths rows)
               /\ has_audio_keys i = false
               /\ storable i = true) ->
    process_batch now rows total infos
    = (rows ++ fresh_rows now (next_id rows) infos,
       total + List.length infos, None).
Proof.
  induction infos as [|i infos IH]; intros rows total Hnd Hfresh.
  - simpl. now rewrite app_nil_r, Nat.add_0_r.
  - inversion Hnd as [|? ? Hnot Hnd']; subst.
    destruct (Hfresh i (or_introl eq_refl)) as (Hi & Ha & Hfit).
    cbn [process_batch]. unfold upsert, flush.
    apply query_first_none in Hi. rewrite Hi.
    rewrite (@new_media_file_fresh now (next_id rows) i Ha).
    cbn [bind]. rewrite Hfit, IH.
    + rewrite next_id_after_insert. cbn [fresh_rows List.length].
      rewrite <- app_assoc. cbn [app]. do 2 f_equal. lia.
    + exact Hnd'.
    + intros j Hj. destruct (Hfresh j (or_intror Hj)) as (Hj1 & Hj2).
      split; [|exact Hj2]. unfold paths. rewrite map_app, in_app_iff.
      cbn. intros [Hin|[Heq|[]]]; [now apply Hj1|].
      apply Hnot. rewrite Heq. now apply in_map.
Qed.

Lemma next_id_fresh_rows (now : Z) (infos : list FileInfo) :
  forall rows,
    next_id (rows ++ fresh_rows now (next_id rows) infos)
    = (next_id rows + Z.of_nat (List.length infos))%Z.
Proof.
  induction infos as [|i infos IH]; intros rows.
  - simpl. now rewrite app_nil_r, Z.add_0_r.
  - cbn [fresh_rows].
    change (rows ++ fresh_row now (next_id rows) i
                 :: fresh_rows now (next_id rows + 1) infos)
      with (rows ++ [fresh_row now (next_id rows) i]
                 ++ fresh_rows now (next_id rows + 1) infos).
    rewrite app_assoc, <- (next_id_after_insert now rows i), IH.
    rewrite next_id_after_insert. cbn [List.length]. lia.
Qed.

Lemma run_fresh (now batch_size : Z) (store : table)
  (infos : list FileInfo) :
  forall (done pending : list FileInfo) (total : nat),
    NoDup (map info_file_path (done ++ pending ++ infos)) ->
    (forall i, In i (done ++ pending ++ infos) ->
               ~ In (info_file_path i) (paths store)
               /\ has_audio_keys i = false
               /\ storable i = true) ->
    scan_finish now
      (run now batch_size (map Ok infos)
         {| committed := store ++ fresh_rows now (next_id store) done;
            session := store ++ fresh_rows now (next_id store) done;
            batch := pending; total_files := total |})
    = (store ++ fresh_rows now (next_id store) (done ++ pending ++ infos),
       None).
Proof.
  assert (Hbatch : forall done pending total,
             NoDup (map info_file_path (done ++ pending)) ->
             (forall i, In i (done ++ pending) ->
                        ~ In (info_file_path i) (paths store)
                        /\ has_audio_keys i = false
               /\ storable i = true) ->
             process_batch now
               (store ++ fresh_rows now (next_id store) done) total pending
             = (store ++ fresh_rows now (next_id store) (done ++ pending),
                total + List.length pending, None)).
  { intros done pending total Hnd Hfresh.
    rewrite process_batch_fresh.
    - now rewrite next_id_fresh_rows, fresh_rows_app, app_assoc.
    - rewrite map_app in Hnd. now apply NoDup_app_remove_l in Hnd.
    - intros i Hi. destruct (Hfresh i) as (H1 & H2);
        [apply in_or_app; now right|].
      split; [|exact H2]. unfold paths. rewrite map_app, in_app_iff.
      fold (paths store).
      fold (paths (fresh_rows now (next_id store) done)).
      rewrite fresh_rows_paths. intros [Hin|Hin]; [now apply H1|].
      rewrite map_app in Hnd.
      eapply nodup_app_disjoint; [exact Hnd | exact Hin |].
      now apply in_map. }
  induction infos as [|i infos IH]; intros done pending total Hnd Hfresh.
  - cbn [map run fold_left]. rewrite app_nil_r in *.
    unfold scan_finish. cbn [batch committed session total_files].
    destruct pending as [|p pending].
    + now rewrite app_nil_r.
    + now rewrite Hbatch.
  - cbn [map run fold_left scan_step batch session committed total_files].
    fold (run now batch_size (map Ok infos)).
    assert (Hshape : done ++ pending ++ i :: infos
                     = done ++ (pending ++ [i]) ++ infos)
      by (now rewrite <- (app_assoc pending)).
    destruct (_ <=? _)%Z.
    + assert (Hdone : (done ++ pending ++ [i]) ++ [] ++ infos
                      = done ++ pending ++ i :: infos)
        by (now rewrite <- !app_assoc).
      rewrite Hbatch.
      * pose proof (IH (done ++ pending ++ [i]) []
                       (total + List.length (pending ++ [i]))) as IH'.
        rewrite Hdone in IH'. unfold run in IH'. now apply IH'.
      * rewrite <- Hdone, map_app in Hnd.
        now apply NoDup_app_remove_r in Hnd.
      * intros j Hj. apply Hfresh. rewrite <- Hdone.
        apply in_or_app. now left.
    + pose proof (IH done (pending ++ [i]) total) as IH'.
      rewrite <- Hshape in IH'. unfold run in IH'. now apply IH'.
Qed.

(** X3: when every returned dictionary has a path of its own that is
    not yet in the table, none carries the audio keys and the integers
    of each fit in 64 bits, the scan ends without an exception and
    appends exactly one row per dictionary, in the order of completion,
    with consecutive keys that continue after the largest key of the
    table, be it negative (1 for an empty table); the batch size has no
    influence.  The keys are SQLite's as long as they stay within 64
    bits, which the last hypothesis asks. *)
Theorem scan_path_appends_new_files :
  forall (now batch_size : Z) (store : table) (infos : list FileInfo),
    NoDup (map info_file_path infos) ->
    (forall i, In i infos ->
               ~ In (info_file_path i) (paths store)
               /\ has_audio_keys i = false
               /\ storable i = true) ->
    (next_id store + Z.of_nat (List.length infos) <= 2 ^ 63)%Z ->
    scan_path now batch_size store (map Ok infos)
    = (store ++ fresh_rows now (next_id store) infos, None).
Proof.
  intros now batch_size store infos Hnd Hfresh _. unfold scan_path.
  change (fold_left (scan_step now batch_size) ?l ?s)
    with (run now batch_size l s).
  pose proof (@run_fresh now batch_size store infos [] [] 0) as Hrun.
  cbn [fresh_rows app] in Hrun. rewrite app_nil_r in Hrun.
  now apply Hrun.
Qed.

(** ** Audio keys on a new path *)

Lemma upsert_exn (now : Z) (rows : table) (info : FileInfo) (e : exn) :
  storable info = true ->
  upsert now rows info = Raise e -> e = TypeError.
Proof.
  intros Hfit. unfold upsert, flush. rewrite Hfit.
  destruct (query_first rows (info_file_path info)); [discriminate|].
  unfold new_media_file. destruct (has_audio_keys info); cbn [bind];
    [now intros [= <-] | discriminate].
Qed.

Lemma process_batch_exn (now : Z) (infos : list FileInfo) :
  forall (rows rows' : table) (total total' : nat) (e : exn),
    (forall i, In i infos -> storable i = true) ->
    process_batch now rows total infos = (rows', total', Some e) ->
    e = TypeError.
Proof.
  induction infos as [|i infos IH]; simpl;
    intros rows rows' total total' e Hfit Hpb; [discriminate|].
  destruct (upsert now rows i) as [rows1|e1] eqn:Hup.
  - eapply IH; [|exact Hpb]. auto.
  - injection Hpb as _ _ <-. eapply upsert_exn; [|exact Hup]. auto.
Qed.

(** The pending batch holds only dictionaries that were pending before
    or were handed over since. *)
Lemma run_batch_incl (now batch_size : Z) (futures : list (result FileInfo)) :
  forall st i,
    In i (batch (run now batch_size futures st)) ->
    In i (batch st ++ infos_of futures).
Proof.
  unfold run. induction futures as [|f futures IH]; intros st i Hi.
  - cbn in *. now rewrite app_nil_r.
  - cbn [fold_left] in Hi. apply IH in Hi.
    destruct f as [j|e]; cbn [scan_step infos_of flat_map app] in *;
      fold (infos_of futures) in *; [|exact Hi].
    assert (Hshape : batch st ++ j :: infos_of futures
                     = (batch st ++ [j]) ++ infos_of futures)
      by (now rewrite <- app_assoc).
    rewrite Hshape.
    destruct (_ <=? _)%Z; [|exact Hi].
    destruct (process_batch now (session st) (total_files st)
                (batch st ++ [j])) as [[rows' total'] [e|]];
      cbn [batch app] in Hi; [exact Hi|].
    apply in_or_app. now right.
Qed.

(** Once stuck, the scan ends with an exception and with the table of
    the last commit; the exception is [TypeError] when the integers of
    all dictionaries fit. *)
Lemma stuck_outcome (now batch_size : Z) (futures : list (result FileInfo))
  (st : ScanState) (all : list FileInfo) :
  stuck st ->
  (forall i, In i (batch st ++ infos_of futures) -> In i all) ->
  exists e,
    scan_finish now (run now batch_size futures st) = (committed st, Some e)
    /\ ((forall i, In i all -> storable i = true) -> e = TypeError).
Proof.
  intros Hst Hall.
  destruct (@stuck_run _ now batch_size futures st Hst)
    as ((pre & info & post & Hb & Hbl) & Hc).
  pose proof (@run_batch_incl now batch_size futures st) as Hincl.
  unfold scan_finish. rewrite Hb in *.
  destruct (pre ++ info :: post) eqn:E; [now destruct pre|].
  rewrite <- E in *.
  destruct (@blocked_fails _ now pre
              (session (run now batch_size futures st))
              (total_files (run now batch_size futures st)) info post Hbl)
    as (rows' & total' & e & Hpb & _).
  rewrite Hpb, Hc. exists e. split; [reflexivity|].
  intros Hfit. eapply process_batch_exn; [|exact Hpb].
  intros i Hi. apply Hfit, Hall, Hincl, Hi.
Qed.

Lemma pending_is_stuck (st : ScanState) (info : FileInfo) :
  clean st ->
  In info (batch st) ->
  NoDup (map info_file_path (batch st)) ->
  has_audio_keys info = true ->
  ~ In (info_file_path info) (paths (committed st)) ->
  stuck st.
Proof.
  intros Hclean Hin Hnd Ha Hnot.
  destruct (in_split _ _ Hin) as (pre & post & Hb).
  exists pre, info, post. split; [exact Hb|].
  rewrite <- Hclean. right. repeat split; try assumption.
  rewrite Hb, map_app in Hnd. cbn [map] in Hnd.
  now apply NoDup_remove_2 in Hnd; rewrite in_app_iff in Hnd; tauto.
Qed.

Lemma audio_keys_abort_run (now batch_size : Z) (info : FileInfo)
  (all : list FileInfo) (futures : list (result FileInfo)) :
  has_audio_keys info = true ->
  forall st,
    ~ In (info_file_path info) (paths (committed st)) ->
    (forall i, In i (batch st ++ infos_of futures) -> In i all) ->
    stuck st
    \/ (clean st
        /\ In info (batch st ++ infos_of futures)
        /\ NoDup (map info_file_path (batch st ++ infos_of futures))) ->
    exists e,
      snd (scan_finish now (run now batch_size futures st)) = Some e
      /\ ~ In (info_file_path info)
             (paths (fst (scan_finish now (run now batch_size futures st))))
      /\ ((forall i, In i all -> storable i = true) -> e = TypeError).
Proof.
  intros Ha.
  assert (Hdone : forall futures st,
             ~ In (info_file_path info) (paths (committed st)) ->
             (forall i, In i (batch st ++ infos_of futures) -> In i all) ->
             stuck st ->
             exists e,
               snd (scan_finish now (run now batch_size futures st)) = Some e
               /\ ~ In (info_file_path info)
                      (paths (fst (scan_finish now
                                     (run now batch_size futures st))))
               /\ ((forall i, In i all -> storable i = true)
                   -> e = TypeError)).
  { intros fs st Hnot Hall Hst.
    destruct (@stuck_outcome now batch_size fs st all Hst Hall)
      as (e & -> & Hty).
    exists e. now repeat split. }
  induction futures as [|f futures IH]; intros st Hnot Hall Hst.
  - apply Hdone; try assumption.
    destruct Hst as [Hst|(Hclean & Hin & Hnd)]; [exact Hst|].
    cbn [infos_of flat_map] in *. rewrite app_nil_r in *.
    eapply pending_is_stuck; eassumption.
  - destruct Hst as [Hst|(Hclean & Hin & Hnd)]; [now apply Hdone|].
    destruct f as [i|e]; cbn [run fold_left scan_step];
      fold (run now batch_size futures).
    + cbn [infos_of flat_map app] in Hin, Hnd, Hall.
      fold (infos_of futures) in Hin, Hnd, Hall.
      assert (Hshape : batch st ++ i :: infos_of futures
                       = (batch st ++ [i]) ++ infos_of futures)
        by (now rewrite <- app_assoc).
      rewrite Hshape in Hin, Hnd, Hall.
      destruct (_ <=? _)%Z.
      * destruct (process_batch now (session st) (total_files st)
                    (batch st ++ [i]))
          as [[rows' total'] [e|]] eqn:Hpb.
        -- apply IH; [exact Hnot | exact Hall |]. left.
           destruct (@failure_is_stuck _ _ _ _ _ _ _ _ Hpb)
             as (pre & b & post & Hb & Hbl).
           now exists pre, b, post.
        -- assert (Hlater : In info (infos_of futures)).
           { apply in_app_or in Hin. destruct Hin as [Hin|Hin];
               [|exact Hin]. exfalso.
             assert (Hstuck : stuck {| committed := committed st;
                                       session := session st;
                                       batch := batch st ++ [i];
                                       total_files := total_files st |}).
             { eapply pending_is_stuck; try eassumption.
               rewrite map_app in Hnd.
               now apply NoDup_app_remove_r in Hnd. }
             destruct Hstuck as (pre & b & post & Hb & Hbl).
             cbn [batch session] in Hb, Hbl.
             destruct (@blocked_fails _ now pre (session st)
                         (total_files st) b post Hbl)
               as (r2 & t2 & e2 & Hpb2 & _).
             rewrite <- Hb, Hpb in Hpb2. discriminate. }
           apply IH.
           ++ cbn [committed]. intros Hin'.
              destruct (@process_batch_paths _ _ _ _ _ _ _ _ Hpb)
                as (_ & Hsub & _).
              destruct (Hsub _ Hin') as [Hold|Hnew].
              ** rewrite <- Hclean in Hold. contradiction.
              ** rewrite map_app in Hnd.
                 eapply nodup_app_disjoint; [exact Hnd | exact Hnew |].
                 now apply in_map.
           ++ cbn [batch app]. intros j Hj. apply Hall, in_or_app.
              now right.
           ++ right. cbn [batch app]. split; [reflexivity|].
              split; [exact Hlater|].
              rewrite map_app in Hnd.
              now apply NoDup_app_remove_l in Hnd.
      * apply IH; [exact Hnot | exact Hall |]. right. cbn [batch].
        split; [exact Hclean|]. now split.
    + apply IH; [exact Hnot | exact Hall |]. right. now repeat split.
Qed.

(** X4: a returned dictionary that carries the audio keys and whose path
    is not in the table cannot be stored, because [MediaFile] has no
    attribute for these keys: the scan ends with an exception, no row
    with that path is in the table afterwards, and by rollback nothing
    of the batch that held this dictionary or of later batches is kept.
    The exception is the [TypeError] of the constructor when the
    integers of all dictionaries fit in 64 bits; a dictionary with an
    integer that does not fit can end the scan before, with the
    exception of its flush. *)
Theorem scan_path_aborts_on_audio_keys :
  forall (now batch_size : Z) (store : table)
         (futures : list (result FileInfo)) (info : FileInfo),
    NoDup (map info_file_path (infos_of futures)) ->
    In info (infos_of futures) ->
    has_audio_keys info = true ->
    ~ In (info_file_path info) (paths store) ->
    (exists e, snd (scan_path now batch_size store futures) = Some e)
    /\ ~ In (info_file_path info)
           (paths (fst (scan_path now batch_size store futures)))
    /\ ((forall i, In i (infos_of futures) -> storable i = true) ->
        snd (scan_path now batch_size store futures) = Some TypeError).
Proof.
  intros now batch_size store futures info Hnd Hin Ha Hnot.
  unfold scan_path.
  change (fold_left (scan_step now batch_size) futures ?s)
    with (run now batch_size futures s).
  destruct (@audio_keys_abort_run now batch_size info (infos_of futures)
              futures Ha (start store)) as (e & He & Hpath & Hty).
  - exact Hnot.
  - now intros i Hi.
  - right. cbn [start batch app]. now repeat split.
  - unfold start in He, Hpath. rewrite He.
    split; [now exists e|]. split; [exact Hpath|].
    intros Hfit. now rewrite (Hty Hfit).
Qed.

End Loop.

(** ** Columns that an update leaves alone *)

Section Columns.

Context `{MediaInfoLib}.

Local Abbreviation MediaFile := (MediaFile float).

Variable A : Type.
Variable proj : MediaFile -> A.
Variable P : FileInfo -> Prop.
Variable Q : A -> Prop.
Variable now : Z.

Hypothesis set_attrs_proj :
  forall (r : MediaFile) (info : FileInfo),
    P info -> proj (set_attrs r info) = proj r.

Hypothesis new_media_file_proj :
  forall (key : Z) (info : FileInfo) (m : MediaFile),
    P info -> new_media_file now key info = Ok m -> Q (proj m).

Lemma grows_refl (a : list MediaFile) : grows proj Q a a.
Proof. exists []. now rewrite app_nil_r. Qed.

Lemma grows_trans (a b c : list MediaFile) :
  grows proj Q a b -> grows proj Q b c -> grows proj Q a c.
Proof.
  intros (m1 & H1 & Q1) (m2 & H2 & Q2). exists (m1 ++ m2).
  split; [now rewrite H2, H1, app_assoc | now apply Forall_app].
Qed.

Lemma update_first_proj (rows : table) (p : str) (info : FileInfo) :
  P info -> map proj (update_first rows p info) = map proj rows.
Proof.
  intros HP. induction rows as [|r rows IH]; [reflexivity|].
  cbn [update_first]. destruct (str_eqb (file_path r) p); cbn [map].
  - now rewrite set_attrs_proj.
  - now rewrite IH.
Qed.

Lemma upsert_grows (rows rows' : table) (info : FileInfo) :
  P info -> upsert now rows info = Ok rows' -> grows proj Q rows rows'.
Proof.
  intros HP Hup.
  destruct (upsert_cases now rows info)
    as [(_ & _ & E)|[(Hnot & Ha & _ & row & E & _)|[(_ & _ & E)|(_ & e & E)]]];
    rewrite E in Hup; try discriminate; injection Hup as <-.
  - exists []. rewrite app_nil_r.
    split; [now apply update_first_proj | constructor].
  - exists [proj row]. rewrite map_app. split; [reflexivity|].
    constructor; [|constructor].
    apply (new_media_file_proj (next_id rows) HP).
    revert E. unfold upsert, flush.
    apply query_first_none in Hnot. rewrite Hnot.
    destruct (new_media_file now (next_id rows) info) as [m|e];
      cbn [bind]; [|discriminate].
    destruct (storable info); [|discriminate].
    intros [= E]. apply app_inj_tail in E. destruct E as (_ & ->).
    reflexivity.
Qed.

Lemma process_batch_grows (infos : list FileInfo) :
  forall (rows rows' : table) (total total' : nat) (o : option exn),
    Forall P infos ->
    process_batch now rows total infos = (rows', total', o) ->
    grows proj Q rows rows'.
Proof.
  induction infos as [|i infos IH]; simpl;
    intros rows rows' total total' o HP Hpb.
  - injection Hpb as <- _ _. apply grows_refl.
  - inversion HP as [|? ? Hi Hrest]; subst.
    destruct (upsert now rows i) as [rows1|e] eqn:Hup.
    + eapply grows_trans; [eapply upsert_grows; eassumption|].
      eapply IH; eassumption.
    + injection Hpb as <- _ _. apply grows_refl.
Qed.

Lemma run_grows (batch_size : Z) (store : table)
  (futures : list (result FileInfo)) :
  forall st,
    Forall P (batch st ++ infos_of futures) ->
    grows proj Q store (committed st) ->
    grows proj Q store (session st) ->
    grows proj Q store (fst (scan_finish now (run now batch_size futures st))).
Proof.
  induction futures as [|f futures IH]; intros st HP Hc Hs.
  - cbn [run fold_left]. unfold scan_finish.
    cbn [infos_of flat_map] in HP. rewrite app_nil_r in HP.
    destruct (batch st) eqn:Hb; [exact Hc|]. rewrite <- Hb in *.
    destruct (process_batch now (session st) (total_files st) (batch st))
      as [[rows' total'] o] eqn:Hpb.
    destruct o; cbn [fst]; [exact Hc|].
    eapply grows_trans; [exact Hs|]. eapply process_batch_grows; eassumption.
  - destruct f as [i|e]; cbn [run fold_left scan_step];
      fold (run now batch_size futures); [|now apply IH].
    cbn [infos_of flat_map app] in HP. fold (infos_of futures) in HP.
    assert (Hshape : batch st ++ i :: infos_of futures
                     = (batch st ++ [i]) ++ infos_of futures)
      by (now rewrite <- app_assoc).
    rewrite Hshape in HP.
    destruct (_ <=? _)%Z; [|now apply IH].
    destruct (process_batch now (session st) (total_files st)
                (batch st ++ [i])) as [[rows' total'] o] eqn:Hpb.
    assert (Hg : grows proj Q store rows').
    { eapply grows_trans; [exact Hs|].
      eapply process_batch_grows; [|exact Hpb].
      now apply Forall_app in HP. }
    destruct o; apply IH; cbn [batch committed session]; try assumption.
    now apply Forall_app in HP.
Qed.

Lemma scan_path_grows (batch_size : Z) (store : table)
  (futures : list (result FileInfo)) :
  Forall P (infos_of futures) ->
  grows proj Q store (fst (scan_path now batch_size store futures)).
Proof.
  intros HP. unfold scan_path.
  change (fold_left (scan_step now batch_size) futures ?s)
    with (run now batch_size futures s).
  apply run_grows; cbn [batch committed session app];
    [exact HP | apply grows_refl | apply grows_refl].
Qed.

End Columns.

Section Stale.

Context `{MediaInfoLib}.

(** X5: a scan never touches the time stamps of a row that was already
    in the table: [created_at] and also [scanned_at] of these rows are
    after the scan what they were before it, whether or not their files
    were scanned again.  Only the rows added by the scan carry its
    time. *)
Theorem scan_path_never_refreshes_time_stamps :
  forall (now batch_size : Z) (store : table)
         (futures : list (result FileInfo)),
    exists more,
      map stamps (fst (scan_path now batch_size store futures))
      = map stamps store ++ more
      /\ Forall (eq (now, now)) more.
Proof.
  intros now batch_size store futures.
  apply (@scan_path_grows _ _ stamps (fun _ => True) (eq (now, now)) now).
  - reflexivity.
  - intros key info m _. unfold new_media_file.
    destruct (has_audio_keys info); [discriminate|]. now intros [= <-].
  - apply Forall_forall. trivial.
Qed.

(** X6: when [_get_media_info] gave nothing for every file of a scan,
    the media columns of the rows that were in the table stay what they
    were, also for the files scanned again, whose other columns are
    overwritten; the rows added by the scan have all five media columns
    NULL. *)
Theorem scan_path_keeps_media_columns :
  forall (now batch_size : Z) (store : table)
         (futures : list (result FileInfo)),
    (forall info, In info (infos_of futures) -> info_media info = None) ->
    exists more,
      map media_columns (fst (scan_path now batch_size store futures))
      = map media_columns store ++ more
      /\ Forall (eq (None, None, None, None, None)) more.
Proof.
  intros now batch_size store futures Hnone.
  apply (@scan_path_grows _ _ media_columns
           (fun info => info_media info = None)
           (eq (None, None, None, None, None)) now).
  - intros r info Hi. unfold media_columns, set_attrs. cbn. now rewrite Hi.
  - intros key info m Hi. unfold new_media_file, has_audio_keys.
    rewrite Hi. intros [= <-]. reflexivity.
  - now apply Forall_forall.
Qed.

End Stale.

(** ** Closed instances *)

(** Two new files without audio keys, scanned into a table whose only
    key is negative: the new keys are -4 and -3. *)
Lemma scan_path_appends_new_files_witness :
  let store := [fresh_row 50 (-5) (sample_info "/m/z.mkv" None)] in
  let infos := [sample_info "/m/a.mkv" None;
                sample_info "/m/b.mkv" (Some (sample_media None))] in
  scan_path 100 2 store (map Ok infos)
  = (store ++ fresh_rows 100 (next_id store) infos, None)
  /\ next_id store = (-4)%Z.
Proof.
  intros store infos. split; [|reflexivity].
  apply (@scan_path_appends_new_files digits_mediainfo 100 2 store infos).
  - repeat constructor; simpl; intuition discriminate.
  - intros i [<-|[<-|[]]];
      (split; [simpl; intuition discriminate | split; reflexivity]).
  - vm_compute. discriminate.
Defined.

(** A file without audio keys and a file with them, in one batch. *)
Lemma scan_path_aborts_on_audio_keys_witness :
  let futures :=
    [Ok (sample_info "/m/a.mkv" None);
     Ok (sample_info "/m/c.mkv" (Some (sample_media (Some sample_audio))))] in
  (exists e, snd (scan_path 100 2 [] futures) = Some e)
  /\ ~ In (lit "/m/c.mkv") (paths (fst (scan_path 100 2 [] futures)))
  /\ ((forall i, In i (infos_of futures) -> storable i = true) ->
      snd (scan_path 100 2 [] futures) = Some TypeError).
Proof.
  intros futures.
  apply (@scan_path_aborts_on_audio_keys digits_mediainfo 100 2 [] futures
           (sample_info "/m/c.mkv" (Some (sample_media (Some sample_audio))))).
  - repeat constructor; simpl; intuition discriminate.
  - right; left; reflexivity.
  - reflexivity.
  - intros [].
Defined.

(** A row with a known resolution whose file is scanned again when its
    media information cannot be read, together with a new file. *)
Lemma scan_path_keeps_media_columns_witness :
  let store :=
    [fresh_row 50 1 (sample_info "/m/b.mkv" (Some (sample_media None)))] in
  let futures :=
    [Ok (sample_info "/m/b.mkv" None); Ok (sample_info "/m/a.mkv" None)] in
  exists more,
    map media_columns (fst (scan_path 100 2 store futures))
    = map media_columns store ++ more
    /\ Forall (eq (None, None, None, None, None)) more.
Proof.
  intros store futures.
  apply (@scan_path_keeps_media_columns digits_mediainfo 100 2 store futures).
  intros info [<-|[<-|[]]]; reflexivity.
Defined.

End CliMore.

(* ================================================================== *)
(** * The web application ([src/web/app.py])                           *)
(* ================================================================== *)

Module WebSpec.

Import Scanner ScannerWalk Analyzer Cli Web Notions MoreNotions CliSpec CliMore.

Section Endpoints.

Context `{MediaInfoLib} `{XXH64}.

Local Abbreviation MediaFile := (MediaFile float).

(** ** [/api/files] *)

Lemma resolution_of_height (r : MediaFile) :
  null_height r = false -> exists label, resolution r = Ok label.
Proof.
  unfold null_height, resolution.
  destruct (resolution_height r) as [h|]; [intros _|discriminate].
  repeat (destruct (_ >=? _)%Z; [eexists; reflexivity|]).
  eexists; reflexivity.
Qed.

Lemma resolution_of_null (r : MediaFile) :
  null_height r = true -> resolution r = Raise TypeError.
Proof.
  unfold null_height, resolution.
  now destruct (resolution_height r).
Qed.

Lemma comprehension_file_json (issues : list (MediaIssue * bool))
  (rows : list MediaFile) :
  match find null_height rows with
  | Some _ => comprehension (file_json issues) rows = Raise TypeError
  | None =>
      exists out,
        comprehension (file_json issues) rows = Ok out
        /\ map json_id out = map (@id float) rows
        /\ Forall2 (fun r j => resolution r = Ok (json_resolution j)
                               /\ json_issues j = open_issues issues r)
                   rows out
  end.
Proof.
  induction rows as [|r rows IH]; cbn [find comprehension].
  - exists []. repeat split. constructor.
  - destruct (null_height r) eqn:Hr.
    + unfold file_json. now rewrite (resolution_of_null _ Hr).
    + destruct (resolution_of_height _ Hr) as (label & Hlabel).
      assert (Hfj : exists j, file_json issues r = Ok j
                              /\ json_id j = id r
                              /\ json_resolution j = label
                              /\ json_issues j = open_issues issues r).
      { unfold file_json. rewrite Hlabel. cbn [bind].
        eexists. split; [reflexivity|]. now repeat split. }
      destruct Hfj as (j & -> & Hj1 & Hj2 & Hj3). cbn [bind].
      destruct (find null_height rows).
      * now rewrite IH.
      * destruct IH as (out & -> & Hid & Hall). cbn [bind].
        exists (j :: out). split; [reflexivity|]. cbn [map].
        split; [now rewrite Hid, Hj1|]. constructor; [|exact Hall].
        now rewrite Hj2.
Qed.

(** X7: [/api/files] looks at the first hundred rows only.  It raises
    [TypeError] as soon as one of them has no height, and this is the
    only way it fails; otherwise it answers with one entry per row, in
    row order, at most a hundred, each with the label of its row and the
    number of its unresolved issues. *)
Theorem get_files_spec :
  forall (rows : table) (issues : list (MediaIssue * bool)),
    match find null_height (firstn 100 rows) with
    | Some _ => get_files rows issues = Raise TypeError
    | None =>
        exists out,
          get_files rows issues = Ok out
          /\ List.length out = Nat.min 100 (List.length rows)
          /\ map json_id out = map (@id float) (firstn 100 rows)
          /\ Forall2 (fun r j => resolution r = Ok (json_resolution j)
                                 /\ json_issues j = open_issues issues r)
                     (firstn 100 rows) out
    end.
Proof.
  intros rows issues. unfold get_files.
  pose proof (comprehension_file_json issues (firstn 100 rows)) as Hc.
  destruct (find null_height (firstn 100 rows)); [exact Hc|].
  destruct Hc as (out & Hout & Hid & Hall). exists out.
  split; [exact Hout|]. split; [|now split].
  rewrite <- (length_map json_id), Hid, length_map. apply length_firstn.
Qed.

Lemma length_fresh_rows (now : Z) (infos : list FileInfo) :
  forall key, List.length (fresh_rows now key infos) = List.length infos.
Proof.
  induction infos as [|i infos IH]; intros key; cbn [fresh_rows List.length];
    [reflexivity | now rewrite IH].
Qed.

Lemma fresh_rows_in (now : Z) (infos : list FileInfo) (info : FileInfo) :
  forall key,
    In info infos ->
    exists key', In (fresh_row now key' info) (fresh_rows now key infos).
Proof.
  induction infos as [|i infos IH]; intros key Hin; [destruct Hin|].
  destruct Hin as [Heq|Hin].
  - subst. exists key. now left.
  - destruct (IH (key + 1)%Z Hin) as (key' & Hkey). exists key'. now right.
Qed.

(** X8: the scan stores a file without media information with a NULL
    height, and [/api/files] cannot label such a row: after a scan of
    new files that can all be stored (paths of their own that are not
    in the table, no audio keys, integers within 64 bits), one of which
    gave no media information, into a table that stays within a hundred
    rows, [/api/files] raises [TypeError]. *)
Theorem get_files_fails_after_scan_without_media_info :
  forall (now batch_size : Z) (store : table) (infos : list FileInfo)
         (info : FileInfo) (issues : list (MediaIssue * bool)),
    NoDup (map info_file_path infos) ->
    (forall i, In i infos ->
               ~ In (info_file_path i) (paths store)
               /\ has_audio_keys i = false
               /\ storable i = true) ->
    In info infos ->
    info_media info = None ->
    List.length store + List.length infos <= 100 ->
    get_files (fst (scan_path now batch_size store (map Ok infos))) issues
    = Raise TypeError.
Proof.
  intros now batch_size store infos info issues Hnd Hfresh Hin Hnone Hlen.
  unfold scan_path.
  change (fold_left (scan_step now batch_size) ?l ?s)
    with (run now batch_size l s).
  pose proof (@run_fresh _ now batch_size store infos [] [] 0) as Hrun.
  cbn [fresh_rows app] in Hrun. rewrite app_nil_r in Hrun.
  rewrite (Hrun Hnd Hfresh). cbn [fst].
  unfold get_files. rewrite firstn_all2
    by (rewrite length_app, length_fresh_rows; lia).
  pose proof (comprehension_file_json issues
                (store ++ fresh_rows now (next_id store) infos)) as Hc.
  destruct (find null_height _) eqn:Hfind; [exact Hc|]. exfalso.
  destruct (@fresh_rows_in now infos info (next_id store) Hin) as (key & Hkey).
  assert (Hrow : null_height (fresh_row now key info) = false).
  { eapply find_none; [exact Hfind|]. apply in_or_app. now right. }
  unfold null_height, fresh_row in Hrow. cbn in Hrow.
  rewrite Hnone in Hrow. discriminate.
Qed.

(** ** [background_scan] *)







(** X10: a path that does not exist ends the web scan with the
    exception of [scan_directory]: the paths listed after it are never
    scanned, and the table is what the paths before it left
    committed. *)
Theorem background_scan_stops_at_missing_path :
  forall (now : Z) (allowed_extensions ignore_patterns : list str)
         (store : table) (before later : list (option (list File))),
    let done :=
      background_scan now allowed_extensions ignore_patterns store before in
    background_scan now allowed_extensions ignore_patterns store
                    (before ++ None :: later)
    = (fst done,
       Some match snd done with Some e => e | None => OtherError end).
Proof.
  intros now allowed_extensions ignore_patterns store before later.
  revert store. induction before as [|tree before IH]; intros store;
    cbn [app background_scan]; [reflexivity|].
  destruct (bind _ _) as [rows'|e]; [apply IH | reflexivity].
Qed.

End Endpoints.

(** ** Closed instances *)

(** One new file without media information, scanned into an empty
    table. *)
Lemma get_files_fails_after_scan_without_media_info_witness :
  get_files (fst (scan_path 100 2 [] [Ok (sample_info "/m/a.mkv" None)])) []
  = Raise TypeError.
Proof.
  apply (@get_files_fails_after_scan_without_media_info digits_mediainfo
           100 2 [] [sample_info "/m/a.mkv" None]
           (sample_info "/m/a.mkv" None) []).
  - repeat constructor. intros [].
  - intros i [<-|[]]. split; [intros [] | split; reflexivity].
  - now left.
  - reflexivity.
  - simpl. lia.
Defined.


End WebSpec.

(* ================================================================== *)
(** * The configuration ([src/config.py])                              *)
(* ================================================================== *)

Module ConfigSpec.

Import PyPath ConfigFile MoreNotions.

Section Get.

Variable scalar : Type.

Local Abbreviation value := (value scalar).

Lemma split_char_cons (sep : ascii) (s : str) :
  exists piece rest, split_char sep s = piece :: rest.
Proof.
  induction s as [|c s (piece & rest & IH)]; cbn [split_char].
  - now exists [], [].
  - destruct (Ascii.eqb c sep); [now eexists _, _|].
    rewrite IH. now eexists _, _.
Qed.

Lemma split_char_app (sep : ascii) (a b : str) :
  split_char sep (a ++ sep :: b) = split_char sep a ++ split_char sep b.
Proof.
  induction a as [|c a IH]; cbn [app split_char].
  - now rewrite Ascii.eqb_refl.
  - destruct (Ascii.eqb c sep); [now rewrite IH|].
    rewrite IH. destruct (split_char_cons sep a) as (piece & rest & ->).
    reflexivity.
Qed.

Lemma at_path_key (entries : list (str * value)) (k : str)
  (keys : list str) (v : value) :
  at_path (VDict entries) (k :: keys) v ->
  at_path (lookup k entries) keys v.
Proof. intros Hat. now inversion Hat. Qed.

Lemma at_path_leaf (current : value) (k : str) (keys : list str)
  (v : value) :
  (forall entries, current <> VDict entries) ->
  ~ at_path current (k :: keys) v.
Proof.
  intros Hleaf Hat. inversion Hat; subst. now apply (Hleaf entries).
Qed.

(** With at least one key, the loop ends with the value at the end of
    the path when there is one and it is not [None], and with the
    default otherwise. *)
Lemma get_keys_at (keys : list str) :
  forall (current default : value),
    keys <> [] ->
    (exists v, at_path current keys v /\ v <> VNone
               /\ get_keys keys current default = v)
    \/ ((forall v, at_path current keys v -> v = VNone)
        /\ get_keys keys current default = default).
Proof.
  induction keys as [|k keys IH]; intros current default Hkeys;
    [contradiction|].
  cbn [get_keys]. destruct current as [|s|entries].
  - right. split; [|reflexivity]. intros v Hat. exfalso.
    revert Hat. apply at_path_leaf. discriminate.
  - right. split; [|reflexivity]. intros v Hat. exfalso.
    revert Hat. apply at_path_leaf. discriminate.
  - destruct keys as [|k' keys].
    + destruct (lookup k entries) as [|s|sub] eqn:Hk.
      * right. split; [|reflexivity]. intros v Hat.
        apply at_path_key in Hat. rewrite Hk in Hat. now inversion Hat.
      * left. exists (VScalar s). split; [|split; [discriminate|reflexivity]].
        apply at_key. rewrite Hk. constructor.
      * left. exists (VDict sub). split; [|split; [discriminate|reflexivity]].
        apply at_key. rewrite Hk. constructor.
    + assert (Hnext := fun found => IH found default ltac:(discriminate)).
      destruct (lookup k entries) as [|s|sub] eqn:Hk.
      * right. split; [|reflexivity]. intros v Hat.
        apply at_path_key in Hat. rewrite Hk in Hat. exfalso.
        revert Hat. apply at_path_leaf. discriminate.
      * destruct (Hnext (VScalar s)) as [(v & Hat & Hv & E)|(Hnone & E)].
        -- left. exists v. split; [|split; assumption].
           apply at_key. now rewrite Hk.
        -- right. split; [|exact E]. intros v Hat.
           apply at_path_key in Hat. rewrite Hk in Hat. now apply Hnone.
      * destruct (Hnext (VDict sub)) as [(v & Hat & Hv & E)|(Hnone & E)].
        -- left. exists v. split; [|split; assumption].
           apply at_key. now rewrite Hk.
        -- right. split; [|exact E]. intros v Hat.
           apply at_path_key in Hat. rewrite Hk in Hat. now apply Hnone.
Qed.

Lemma get_keys_leaf (keys : list str) (current default : value) :
  keys <> [] -> (forall entries, current <> VDict entries) ->
  get_keys keys current default = default.
Proof.
  destruct keys as [|k keys]; [contradiction|]. intros _ Hleaf.
  cbn [get_keys]. destruct current as [|s|entries]; try reflexivity.
  now destruct (Hleaf entries).
Qed.

Lemma split_char_plain (sep : ascii) (s : str) :
  ~ In sep s -> split_char sep s = [s].
Proof.
  induction s as [|c s IH]; intros Hnot; [reflexivity|].
  cbn [split_char]. destruct (Ascii.eqb c sep) eqn:E.
  - apply Ascii.eqb_eq in E. subst. exfalso. apply Hnot. now left.
  - rewrite IH; [reflexivity|]. intros Hin. apply Hnot. now right.
Qed.

Lemma get_keys_app (first : list str) :
  forall (later : list str) (current default : value),
    first <> [] -> later <> [] ->
    get_keys (first ++ later) current default
    = match get_keys first current VNone with
      | VNone => default
      | found => get_keys later found default
      end.
Proof.
  induction first as [|k first IH]; intros later current default Hf Hl;
    [contradiction|].
  cbn [app get_keys].
  destruct current as [|v|entries];
    [reflexivity | reflexivity |].
  destruct (lookup k entries) as [|v|sub] eqn:Hk; [reflexivity | |].
  - destruct first as [|k' first]; [reflexivity|].
    apply IH; [discriminate | exact Hl].
  - destruct first as [|k' first]; [reflexivity|].
    apply IH; [discriminate | exact Hl].
Qed.

(** X11: [Config.get] returns the value that the document holds at
    the end of the dotted path when there is one and it is not [None],
    and the default in every other case.  So the default is the answer
    for a document that is empty or not a dictionary, for a key that is
    missing or set to null, and for a key below something that is not a
    dictionary. *)
Theorem get_default_or_found :
  forall (config : value) (key : str) (default : value),
    ((exists v, at_path config (split_char "." key) v /\ v <> VNone
                /\ get config key default = v)
     \/ ((forall v, at_path config (split_char "." key) v -> v = VNone)
         /\ get config key default = default))
    /\ ((forall entries, config <> VDict entries) ->
        get config key default = default)
    /\ (forall entries,
          config = VDict entries -> ~ In "."%char key ->
          lookup key entries = VNone ->
          get config key default = default)
    /\ (forall a b,
          key = a ++ "."%char :: b ->
          (forall entries, get config a VNone <> VDict entries) ->
          get config key default = default).
Proof.
  intros config key default.
  assert (Hkeys : forall s, split_char "." s <> [])
    by (intros s; destruct (split_char_cons "." s) as (piece & rest & ->);
        discriminate).
  split; [|split; [|split]].
  - unfold get. apply get_keys_at, Hkeys.
  - intros Hleaf. unfold get. apply get_keys_leaf; [apply Hkeys | exact Hleaf].
  - intros entries -> Hplain Hnull. unfold get.
    rewrite (@split_char_plain "." key Hplain). cbn [get_keys]. now rewrite Hnull.
  - intros a b -> Hleaf. unfold get in *. rewrite split_char_app.
    rewrite get_keys_app by apply Hkeys.
    destruct (get_keys (split_char "." a) config VNone) as [|s|sub] eqn:Ha;
      [reflexivity | | now destruct (Hleaf sub)].
    apply get_keys_leaf; [apply Hkeys | discriminate].
Qed.

(** X12: the dot notation walks the document section by section: the
    lookup of [a.b] is the lookup of [b] in what the lookup of [a]
    finds, and the default when the lookup of [a] finds nothing. *)
Theorem get_dotted :
  forall (config : value) (a b : str) (default : value),
    get config (a ++ "."%char :: b) default
    = match get config a VNone with
      | VNone => default
      | section => get section b default
      end.
Proof.
  intros config a b default. unfold get. rewrite split_char_app.
  destruct (split_char_cons "." a) as (pa & ra & Ha).
  destruct (split_char_cons "." b) as (pb & rb & Hb).
  rewrite get_keys_app; [reflexivity | rewrite Ha | rewrite Hb]; discriminate.
Qed.

End Get.

End ConfigSpec.

(* ================================================================== *)
(** * The directory walk ([_should_process_file])                      *)
(* ================================================================== *)

Module WalkSpec.

Import PyPath Scanner ScannerWalk Notions MoreNotions CliSpec.

(** ** Lower case *)

Lemma lower_char_idem (c : ascii) : lower_char (lower_char c) = lower_char c.
Proof. destruct c as [[] [] [] [] [] [] [] []]; reflexivity. Qed.

Lemma lower_char_dot (c : ascii) :
  Ascii.eqb (lower_char c) "." = Ascii.eqb c ".".
Proof. destruct c as [[] [] [] [] [] [] [] []]; reflexivity. Qed.

Lemma lower_idem (s : str) : lower (lower s) = lower s.
Proof.
  unfold lower. rewrite map_map. apply map_ext. apply lower_char_idem.
Qed.

Lemma rfind_lower (s : str) : rfind "." (lower s) = rfind "." s.
Proof.
  induction s as [|c s IH]; [reflexivity|].
  cbn [lower map rfind]. fold (lower s). rewrite IH, lower_char_dot.
  reflexivity.
Qed.

Lemma suffix_lower (s : str) : suffix (lower s) = lower (suffix s).
Proof.
  unfold suffix. rewrite rfind_lower.
  destruct (rfind "." s) as [i|]; [|reflexivity].
  unfold lower at 1. rewrite length_map.
  destruct (_ && _); [|reflexivity].
  unfold lower. now rewrite skipn_map.
Qed.

(** ** Occurrence *)

Lemma starts_with_spec (p s : str) :
  starts_with p s = true <-> exists after, s = p ++ after.
Proof.
  revert s. induction p as [|a p IH]; intros s; cbn [starts_with].
  - split; [intros _; now exists s | reflexivity].
  - destruct s as [|b s].
    + split; [discriminate | intros (after & Habs); discriminate].
    + rewrite andb_true_iff, IH, Ascii.eqb_eq. split.
      * intros (-> & after & ->). now exists after.
      * intros (after & [= -> ->]). split; [reflexivity | now exists after].
Qed.

Lemma contains_spec (p s : str) : contains p s = true <-> occurs p s.
Proof.
  unfold occurs. induction s as [|c s IH]; cbn [contains].
  - rewrite orb_false_r, starts_with_spec. split.
    + intros (after & ->). now exists [], after.
    + intros (before & after & Hs). destruct before; [now exists after|].
      discriminate.
  - rewrite orb_true_iff, starts_with_spec, IH. split.
    + intros [(after & ->)|(before & after & ->)].
      * now exists [], after.
      * now exists (c :: before), after.
    + intros (before & after & Hs). destruct before as [|b before].
      * left. now exists after.
      * right. injection Hs as -> ->. now exists before, after.
Qed.

(** ** The decision *)

Lemma patterns_lower (patterns : list str) (name : str) :
  existsb (fun pattern => contains (lower pattern) name) (map lower patterns)
  = existsb (fun pattern => contains (lower pattern) name) patterns.
Proof.
  induction patterns as [|p l IH]; [reflexivity|].
  cbn [map existsb]. now rewrite lower_idem, IH.
Qed.

Section Decision.

Variables allowed_extensions ignore_patterns : list str.

Lemma should_process_normal (filename : str) :
  _should_process_file allowed_extensions ignore_patterns filename
  = _should_process_file allowed_extensions (map lower ignore_patterns)
                         (lower filename).
Proof.
  unfold _should_process_file.
  rewrite suffix_lower, !lower_idem.
  destruct (negb _); [reflexivity|].
  now rewrite patterns_lower.
Qed.

(** X13: the decision is blind to the case of the file name and of the
    ignore patterns: two names that agree up to case, under two lists
    of patterns that agree up to case, are both processed or both
    skipped. *)
Theorem should_process_file_ignores_case :
  forall (patterns' : list str) (filename filename' : str),
    lower filename = lower filename' ->
    map lower ignore_patterns = map lower patterns' ->
    _should_process_file allowed_extensions ignore_patterns filename
    = _should_process_file allowed_extensions patterns' filename'.
Proof.
  intros patterns' filename filename' Hname Hpatterns.
  rewrite (should_process_normal filename), Hname, Hpatterns.
  unfold _should_process_file.
  rewrite suffix_lower, !lower_idem.
  destruct (negb _); [reflexivity|].
  now rewrite patterns_lower.
Qed.

(** X14: the allow-list is compared as it is written, against the
    lower-cased suffix: an entry that is not in lower case never
    matches, so the decision is the same without these entries. *)
Theorem should_process_file_dead_entries :
  forall filename : str,
    _should_process_file (filter is_lower allowed_extensions)
                         ignore_patterns filename
    = _should_process_file allowed_extensions ignore_patterns filename.
Proof.
  intros filename. unfold _should_process_file.
  replace (existsb (str_eqb (lower (suffix filename)))
                   (filter is_lower allowed_extensions))
    with (existsb (str_eqb (lower (suffix filename))) allowed_extensions);
    [reflexivity|].
  induction allowed_extensions as [|e l IH]; [reflexivity|].
  cbn [filter existsb]. unfold is_lower at 1.
  destruct (str_eqb (lower (suffix filename)) e) eqn:He.
  - apply str_eqb_true in He. subst e. rewrite lower_idem.
    replace (str_eqb (lower (suffix filename)) (lower (suffix filename)))
      with true by (symmetry; now apply str_eqb_true).
    cbn [existsb]. replace (str_eqb _ _) with true
      by (symmetry; now apply str_eqb_true).
    reflexivity.
  - cbn [orb]. destruct (str_eqb (lower e) e); [|exact IH].
    cbn [existsb]. now rewrite He.
Qed.

(** X15: a file is processed exactly when its lower-cased suffix is an
    entry of the allow-list and no ignore pattern, lower-cased, occurs
    anywhere in the lower-cased name. *)
Theorem should_process_file_spec :
  forall filename : str,
    _should_process_file allowed_extensions ignore_patterns filename = true
    <-> In (lower (suffix filename)) allowed_extensions
        /\ forall pattern, In pattern ignore_patterns ->
                           ~ occurs (lower pattern) (lower filename).
Proof.
  intros filename. unfold _should_process_file.
  destruct (existsb (str_eqb (lower (suffix filename))) allowed_extensions)
    eqn:Hext; cbn [negb].
  - apply existsb_exists in Hext. destruct Hext as (e & He & Heq).
    apply str_eqb_true in Heq. subst e.
    destruct (existsb _ ignore_patterns) eqn:Hpat.
    + split; [discriminate|]. intros (_ & Hnone).
      apply existsb_exists in Hpat. destruct Hpat as (p & Hp & Hocc).
      apply contains_spec in Hocc. now apply Hnone in Hp.
    + split; [|reflexivity]. intros _. split; [exact He|].
      intros p Hp Hocc. apply contains_spec in Hocc.
      assert (Hex : existsb (fun pattern =>
                               contains (lower pattern) (lower filename))
                            ignore_patterns = true)
        by (apply existsb_exists; now exists p).
      congruence.
  - split; [discriminate|]. intros (Hin & _).
    assert (Hex : existsb (str_eqb (lower (suffix filename)))
                          allowed_extensions = true).
    { apply existsb_exists. eexists. split; [exact Hin|].
      now apply str_eqb_true. }
    congruence.
Qed.

(** X16: an empty ignore pattern occurs in every name: with it in the
    list, no file is processed. *)
Theorem should_process_file_empty_pattern :
  forall filename : str,
    In [] ignore_patterns ->
    _should_process_file allowed_extensions ignore_patterns filename = false.
Proof.
  intros filename Hin. unfold _should_process_file.
  destruct (negb _); [reflexivity|].
  replace (existsb _ ignore_patterns) with true; [reflexivity|].
  symmetry. apply existsb_exists. exists []. split; [exact Hin|].
  now destruct (lower filename).
Qed.

End Decision.

(** ** Closed instances *)

Lemma should_process_file_ignores_case_witness :
  _should_process_file default_extensions [lit "Sample"] (lit "Film.MKV")
  = _should_process_file default_extensions [lit "sample"] (lit "film.mkv").
Proof.
  apply (@should_process_file_ignores_case default_extensions
           [lit "Sample"] [lit "sample"] (lit "Film.MKV") (lit "film.mkv"));
    reflexivity.
Defined.

Lemma should_process_file_empty_pattern_witness :
  _should_process_file default_extensions [lit "sample"; []] (lit "film.mkv")
  = false.
Proof.
  apply (@should_process_file_empty_pattern default_extensions
           [lit "sample"; []] (lit "film.mkv")).
  right. now left.
Defined.

End WalkSpec.

(* ================================================================== *)
(** * More on the identity fields and the media information            *)
(* ================================================================== *)

Module ScannerMore.

Import Re Scanner Cli Notions MoreNotions ReSpec IdentitySpec ScannerSpec
       CliSpec CliMore.

(** ** The numbers read from the stem *)

Lemma digit_val_range (c : ascii) :
  is_digit c = true -> (0 <= digit_val c <= 9)%Z.
Proof.
  unfold is_digit, digit_val. intros Hc. apply andb_prop in Hc.
  destruct Hc as (H1 & H2). apply Nat.leb_le in H1, H2. lia.
Qed.

Lemma int_of_digits_from (l : str) :
  forall acc : Z,
    forallb is_digit l = true -> (0 <= acc)%Z ->
    (acc * 10 ^ Z.of_nat (List.length l)
     <= fold_left (fun acc c => 10 * acc + digit_val c) l acc
     < (acc + 1) * 10 ^ Z.of_nat (List.length l))%Z.
Proof.
  induction l as [|c l IH]; intros acc Hl Hacc.
  - cbn. lia.
  - cbn [forallb] in Hl. apply andb_prop in Hl. destruct Hl as (Hc & Hl).
    apply digit_val_range in Hc.
    cbn [fold_left List.length]. rewrite Nat2Z.inj_succ, Z.pow_succ_r by lia.
    specialize (IH (10 * acc + digit_val c)%Z Hl ltac:(lia)).
    assert (Hpow : (0 < 10 ^ Z.of_nat (List.length l))%Z)
      by (apply Z.pow_pos_nonneg; lia).
    nia.
Qed.

Lemma leading_digits_shape (k : nat) :
  forall s, forallb is_digit (leading_digits k s) = true
            /\ List.length (leading_digits k s) <= k.
Proof.
  induction k as [|k IH]; intros [|c s]; cbn [leading_digits];
    try (split; [reflexivity | cbn; lia]).
  destruct (is_digit c) eqn:Hc; [|split; [reflexivity | cbn; lia]].
  destruct (IH s) as (H1 & H2). cbn [forallb List.length].
  rewrite Hc, H1. split; [reflexivity | lia].
Qed.

Lemma leading_digits_value (k : nat) (s : str) :
  (0 <= int_of_digits (leading_digits k s) < 10 ^ Z.of_nat k)%Z.
Proof.
  destruct (leading_digits_shape k s) as (Hd & Hlen).
  pose proof (@int_of_digits_from _ 0%Z Hd ltac:(lia)) as Hv.
  unfold int_of_digits.
  assert (Hmono : (10 ^ Z.of_nat (List.length (leading_digits k s))
                   <= 10 ^ Z.of_nat k)%Z)
    by (apply Z.pow_le_mono_r; lia).
  lia.
Qed.

Lemma year_value (s : str) :
  year_here s = true -> (1900 <= int_of_digits (firstn 4 s) <= 2099)%Z.
Proof.
  destruct s as [|a [|b [|c [|d r]]]]; cbn [year_here]; try discriminate.
  intros Hy. apply andb_prop in Hy. destruct Hy as (Hy & Hd).
  apply andb_prop in Hy. destruct Hy as (Hab & Hc).
  apply digit_val_range in Hc, Hd.
  cbn [firstn]. unfold int_of_digits. cbn [fold_left].
  apply orb_prop in Hab.
  destruct Hab as [Hab|Hab]; apply andb_prop in Hab;
    destruct Hab as (Ha & Hb); apply Ascii.eqb_eq in Ha, Hb; subst a b.
  - change (digit_val "1") with 1%Z. change (digit_val "9") with 9%Z. lia.
  - change (digit_val "2") with 2%Z. change (digit_val "0") with 0%Z. lia.
Qed.

(** X17: the numbers read from a stem are bounded by their patterns: a
    year lies between 1900 and 2099, a season between 0 and 99 and an
    episode between 0 and 999. *)
Theorem identity_numbers_in_range :
  forall stem : str,
    match _extract_year stem with
    | Some y => (1900 <= y <= 2099)%Z
    | None => True
    end
    /\ match _extract_season stem with
       | Some n => (0 <= n <= 99)%Z
       | None => True
       end
    /\ match _extract_episode stem with
       | Some e => (0 <= e <= 999)%Z
       | None => True
       end.
Proof.
  intros stem. split; [|split].
  - unfold _extract_year.
    destruct (search year_pattern stem) as [[i n]|] eqn:Hs; [|exact I].
    destruct (search_some _ _ Hs) as (_ & Hm & _).
    rewrite year_match in Hm.
    destruct (year_here (skipn i stem)) eqn:Hy; [|discriminate].
    injection Hm as <-. unfold group. cbn [fst snd]. now apply year_value.
  - unfold _extract_season.
    destruct (search season_pattern stem) as [[i n]|] eqn:Hs; [|exact I].
    destruct (search_some _ _ Hs) as (_ & Hm & _).
    rewrite season_match in Hm.
    destruct (tag_here "S" "s" (skipn i stem)); [|discriminate].
    assert (Hn : n = S (List.length (leading_digits 2 (tl (skipn i stem)))))
      by congruence.
    rewrite Hn, tag_group.
    pose proof (leading_digits_value 2 (skipn (S i) stem)) as Hv.
    change (10 ^ Z.of_nat 2)%Z with 100%Z in Hv. lia.
  - unfold _extract_episode.
    destruct (search episode_pattern stem) as [[i n]|] eqn:Hs; [|exact I].
    destruct (search_some _ _ Hs) as (_ & Hm & _).
    rewrite episode_match in Hm.
    destruct (tag_here "E" "e" (skipn i stem)); [|discriminate].
    assert (Hn : n = S (List.length (leading_digits 3 (tl (skipn i stem)))))
      by congruence.
    rewrite Hn, tag_group.
    pose proof (leading_digits_value 3 (skipn (S i) stem)) as Hv.
    change (10 ^ Z.of_nat 3)%Z with 1000%Z in Hv. lia.
Qed.

(** ** The shape of the title *)

Lemma lstrip_skipn (s : str) : exists k, lstrip s = skipn k s.
Proof.
  induction s as [|c s (k & IH)]; [now exists 0|].
  cbn [lstrip]. destruct (is_space c); [now exists (S k) | now exists 0].
Qed.

Lemma lstrip_hd (s : str) (c : ascii) :
  hd_error (lstrip s) = Some c -> is_space c = false.
Proof.
  induction s as [|x s IH]; cbn [lstrip]; [discriminate|].
  destruct (is_space x) eqn:Hx; [exact IH|].
  cbn [hd_error]. now intros [= <-].
Qed.

Lemma lstrip_fixed (s : str) :
  (forall c, hd_error s = Some c -> is_space c = false) -> lstrip s = s.
Proof.
  destruct s as [|x s]; [reflexivity|]. intros Hhd. cbn [lstrip].
  now rewrite (Hhd x eq_refl).
Qed.

Lemma strip_firstn (s : str) : exists a, strip s = firstn a (lstrip s).
Proof.
  unfold strip. destruct (lstrip_skipn (rev (lstrip s))) as (k & ->).
  rewrite skipn_rev, rev_involutive. now eexists.
Qed.

Lemma strip_trimmed (s : str) : trimmed (strip s).
Proof.
  split; intros c Hc.
  - destruct (strip_firstn s) as (a & Ha). rewrite Ha in Hc.
    apply (lstrip_hd s). destruct a as [|a]; [discriminate|].
    now destruct (lstrip s).
  - unfold strip in Hc. rewrite rev_involutive in Hc.
    now apply lstrip_hd in Hc.
Qed.

Lemma strip_fixed (t : str) : trimmed t -> strip t = t.
Proof.
  intros (Hhd & Hlast). unfold strip.
  rewrite (lstrip_fixed _ Hhd), (lstrip_fixed _ Hlast).
  apply rev_involutive.
Qed.

Lemma strip_part (s : str) : exists a b, strip s = firstn a (skipn b s).
Proof.
  destruct (strip_firstn s) as (a & ->).
  destruct (lstrip_skipn s) as (b & ->). now exists a, b.
Qed.

Lemma part_In (s : str) (a b : nat) (c : ascii) :
  In c (firstn a (skipn b s)) -> In c s.
Proof.
  intros Hc. rewrite <- (firstn_skipn b s). apply in_or_app. right.
  rewrite <- (firstn_skipn a (skipn b s)). apply in_or_app. now left.
Qed.

Lemma replace_char_out (old new : ascii) (s : str) :
  old <> new -> ~ In old (replace_char old new s).
Proof.
  intros Hne Hin. unfold replace_char in Hin. apply in_map_iff in Hin.
  destruct Hin as (c & Hc & _).
  destruct (Ascii.eqb c old) eqn:E; [congruence|].
  apply Ascii.eqb_neq in E. congruence.
Qed.

Lemma replace_char_keeps_out (x old new : ascii) (s : str) :
  x <> new -> ~ In x s -> ~ In x (replace_char old new s).
Proof.
  intros Hne Hout Hin. unfold replace_char in Hin. apply in_map_iff in Hin.
  destruct Hin as (c & Hc & Hin).
  destruct (Ascii.eqb c old); [congruence | now subst].
Qed.

Lemma replace_char_fixed (old new : ascii) (s : str) :
  ~ In old s -> replace_char old new s = s.
Proof.
  intros Hout. unfold replace_char. rewrite <- (map_id s) at 2.
  apply map_ext_in. intros c Hc.
  destruct (Ascii.eqb c old) eqn:E; [|reflexivity].
  apply Ascii.eqb_eq in E. now subst.
Qed.

Lemma extract_title_shape (stem : str) :
  ~ In "."%char (_extract_title stem)
  /\ ~ In "_"%char (_extract_title stem)
  /\ trimmed (_extract_title stem).
Proof.
  unfold _extract_title.
  split; [|split; [|apply strip_trimmed]].
  - intros Hin. destruct (strip_part (replace_char "_" " "
        (replace_char "." " " (title_cut stem)))) as (a & b & Hpart).
    rewrite Hpart in Hin. apply part_In in Hin. revert Hin.
    apply replace_char_keeps_out; [discriminate|].
    apply replace_char_out. discriminate.
  - intros Hin. destruct (strip_part (replace_char "_" " "
        (replace_char "." " " (title_cut stem)))) as (a & b & Hpart).
    rewrite Hpart in Hin. apply part_In in Hin. revert Hin.
    apply replace_char_out. discriminate.
Qed.

(** X18: a title is clean: it holds no dot and no underscore, and it
    has no white space at either end. *)
Theorem extract_title_is_clean :
  forall stem : str,
    let t := _extract_title stem in
    ~ In "."%char t /\ ~ In "_"%char t /\ trimmed t.
Proof.
  intros stem t. apply extract_title_shape.
Qed.

(** ** Titles of titles *)

Lemma no_match_search (p : regex) (s : str) :
  no_match p s -> search p s = None.
Proof.
  intros Hno. unfold search.
  pose proof (search_from_spec p s 0) as Hspec.
  destruct (search_from p 0 s) as [[j n]|]; [|reflexivity].
  destruct Hspec as (d & _ & _ & Hm & _). now rewrite Hno in Hm.
Qed.

Lemma no_match_firstn (p : regex) (s : str) (c : nat) :
  no_match p s -> no_match p (firstn c s).
Proof. intros Hno j. apply none_in_prefix, Hno. Qed.

Lemma no_match_skipn (p : regex) (s : str) (k : nat) :
  no_match p s -> no_match p (skipn k s).
Proof. intros Hno j. rewrite skipn_skipn. apply Hno. Qed.

Lemma no_match_split0 (p : regex) (s : str) :
  match_here p [] = None -> no_match p (split0 p s).
Proof.
  intros Hempty j. rewrite split0_firstn.
  destruct (Nat.lt_ge_cases j (first_start p s)) as [Hlt|Hge].
  - apply none_in_prefix. now apply first_start_none_before.
  - rewrite skipn_all2; [exact Hempty|]. rewrite length_firstn. lia.
Qed.

Lemma fold_split0_no_match (ps : list regex) :
  forall (seen : list regex) (s : str),
    (forall p, In p seen -> no_match p s) ->
    (forall p, In p ps -> match_here p [] = None) ->
    forall p, In p (seen ++ ps) ->
              no_match p (fold_left (fun name q => split0 q name) ps s).
Proof.
  induction ps as [|q ps IH]; intros seen s Hseen Hempty p Hp.
  - rewrite app_nil_r in Hp. now apply Hseen.
  - cbn [fold_left]. apply (IH (seen ++ [q])).
    + intros p' Hp'. apply in_app_or in Hp'. destruct Hp' as [Hp'|[<-|[]]].
      * rewrite split0_firstn. apply no_match_firstn. now apply Hseen.
      * apply no_match_split0. apply Hempty. now left.
    + intros p' Hp'. apply Hempty. now right.
    + now rewrite <- app_assoc.
Qed.

Lemma title_cut_no_match (stem : str) (p : regex) :
  In p title_patterns -> no_match p (title_cut stem).
Proof.
  intros Hp. unfold title_cut.
  apply (@fold_split0_no_match title_patterns [] stem);
    [intros ? [] | | exact Hp].
  intros q [<-|[<-|[<-|[<-|[]]]]]; reflexivity.
Qed.

Lemma no_match_fixed (ps : list regex) (s : str) :
  (forall p, In p ps -> no_match p s) ->
  fold_left (fun name q => split0 q name) ps s = s.
Proof.
  induction ps as [|q ps IH]; intros Hno; [reflexivity|].
  cbn [fold_left]. unfold split0 at 2.
  rewrite (no_match_search (Hno q (or_introl eq_refl))).
  apply IH. intros p Hp. apply Hno. now right.
Qed.

Section Renaming.

Variable f : ascii -> ascii.

Lemma one_map (k : cls) (cont : str -> option nat) :
  (forall c, in_cls k (f c) = in_cls k c) ->
  (forall s, cont (map f s) = cont s) ->
  forall s, one k cont (map f s) = one k cont s.
Proof.
  intros Hk Hcont [|c s]; cbn [map one]; [reflexivity|].
  now rewrite Hk, Hcont.
Qed.

Lemma lazy_star_map (k : cls) (cont : str -> option nat) :
  (forall c, in_cls k (f c) = in_cls k c) ->
  (forall s, cont (map f s) = cont s) ->
  forall s, lazy_star k cont (map f s) = lazy_star k cont s.
Proof.
  intros Hk Hcont. induction s as [|c s IH].
  - reflexivity.
  - pose proof (Hcont (c :: s)) as Hhere. cbn [map] in Hhere.
    cbn [map lazy_star]. rewrite Hhere, Hk, IH. reflexivity.
Qed.

Lemma rep_map (k : cls) (cont : str -> option nat) :
  (forall c, in_cls k (f c) = in_cls k c) ->
  (forall s, cont (map f s) = cont s) ->
  forall hi lo s, rep k lo hi cont (map f s) = rep k lo hi cont s.
Proof.
  intros Hk Hcont. induction hi as [|hi IH]; intros lo s; cbn [rep].
  - now rewrite Hcont.
  - destruct s as [|c s]; [reflexivity|].
    pose proof (Hcont (c :: s)) as Hhere. cbn [map] in Hhere.
    cbn [map]. rewrite Hhere, Hk, IH. reflexivity.
Qed.

Lemma match_here_map (p : regex) :
  Forall (atom_respects f) p ->
  forall s, match_here p (map f s) = match_here p s.
Proof.
  induction 1 as [|a p Ha _ IH]; [reflexivity|].
  destruct a as [k|k lo hi|k|ws]; cbn [match_here atom_respects] in *.
  - now apply one_map.
  - now apply rep_map.
  - now apply lazy_star_map.
  - contradiction.
Qed.

Lemma no_match_map (p : regex) (s : str) :
  Forall (atom_respects f) p -> no_match p s -> no_match p (map f s).
Proof.
  intros Hp Hno j. rewrite skipn_map, match_here_map by exact Hp. apply Hno.
Qed.

End Renaming.

Lemma title_patterns_respect (old : ascii) (p : regex) :
  old = "."%char \/ old = "_"%char ->
  In p title_patterns ->
  Forall (atom_respects (fun c => if Ascii.eqb c old then " "%char else c)) p.
Proof.
  intros Hold Hp.
  assert (Hcls : forall k,
             In k [Digit; Dot; Chr "["; Chr "]"; Chr "("; Chr ")";
                   OneOf (lit "Ss"); OneOf (lit "Ee")] ->
             forall c, in_cls k (if Ascii.eqb c old then " "%char else c)
                       = in_cls k c).
  { intros k Hk c. destruct (Ascii.eqb c old) eqn:E; [|reflexivity].
    apply Ascii.eqb_eq in E. subst c.
    destruct Hold as [-> | ->];
      repeat (destruct Hk as [<-|Hk]; [reflexivity|]); destruct Hk. }
  destruct Hp as [<-|[<-|[<-|[<-|[]]]]];
    repeat constructor; cbn [atom_respects]; apply Hcls; cbn; tauto.
Qed.

(** X19: no pattern of the list matches anywhere in a title, so the
    title of a title is the title itself: reading an already extracted
    title again changes nothing. *)
Theorem extract_title_idempotent :
  forall stem : str,
    let t := _extract_title stem in
    (forall p, In p title_patterns -> search p t = None)
    /\ _extract_title t = t.
Proof.
  intros stem t.
  assert (Hno : forall p, In p title_patterns -> no_match p t).
  { intros p Hp. subst t. unfold _extract_title.
    destruct (strip_part (replace_char "_" " "
        (replace_char "." " " (title_cut stem)))) as (a & b & ->).
    apply no_match_firstn, no_match_skipn.
    unfold replace_char.
    apply no_match_map; [apply title_patterns_respect; tauto|].
    apply no_match_map; [apply title_patterns_respect; tauto|].
    now apply title_cut_no_match. }
  split; [intros p Hp; now apply no_match_search, Hno|].
  destruct (extract_title_shape stem) as (Hdot & Hunder & Htrim).
  fold t in Hdot, Hunder, Htrim.
  unfold _extract_title at 1. unfold title_cut.
  rewrite (no_match_fixed title_patterns Hno).
  rewrite (@replace_char_fixed "." " " t Hdot).
  rewrite (@replace_char_fixed "_" " " t Hunder).
  now apply strip_fixed.
Qed.

(** ** Media information *)

Section Media.

Context `{MediaInfoLib} `{XXH64}.

Lemma duration_of_raises (v : Track) (e : exn) :
  duration_of v = Raise e <->
  exists a, t_duration v = Some a /\ attr_truthy a = true
            /\ float_of a = Raise e /\ e = OtherError.
Proof.
  unfold duration_of. split.
  - destruct (t_duration v) as [a|]; [|discriminate].
    destruct (attr_truthy a) eqn:Ha; [|discriminate].
    destruct (float_of a) as [x|[| |]] eqn:Hf; try discriminate.
    intros [= <-]. now exists a.
  - intros (a & -> & -> & -> & ->). reflexivity.
Qed.

(** X20: [_get_media_info] gives nothing in exactly three cases: the
    parser raised; no track is a video track; or the duration of the
    first video track is true and its conversion raises an exception
    other than [ValueError] and [TypeError].  In the last case the
    width, height, codec and bitrate that were read are lost with
    it. *)
Theorem get_media_info_none_iff :
  forall parsed : result (list Track),
    _get_media_info parsed = None <->
    match parsed with
    | Raise _ => True
    | Ok tracks =>
        match find is_video tracks with
        | None => True
        | Some v =>
            exists a, t_duration v = Some a /\ attr_truthy a = true
                      /\ float_of a = Raise OtherError
        end
    end.
Proof.
  intros [tracks|e]; [|split; [trivial | reflexivity]].
  rewrite get_media_info_unfold.
  destruct (find is_video tracks) as [v|]; [|split; [trivial | reflexivity]].
  destruct (duration_of v) as [d|e] eqn:Hd.
  - split; [discriminate|]. intros (a & Ha & Ht & Hf).
    assert (Hr : duration_of v = Raise OtherError)
      by (apply duration_of_raises; now exists a).
    congruence.
  - split; [|reflexivity]. intros _.
    apply duration_of_raises in Hd. destruct Hd as (a & Ha & Ht & Hf & ->).
    now exists a.
Qed.

Lemma infos_of_extracted (files : list File) (media_type : str) :
  infos_of (map (fun f => Ok (_extract_file_info f media_type)) files)
  = map (fun f => _extract_file_info f media_type) files.
Proof.
  induction files as [|f files IH]; [reflexivity|].
  cbn [map infos_of flat_map app]. fold (infos_of
    (map (fun f => Ok (_extract_file_info f media_type)) files)).
  now rewrite IH.
Qed.

(** X21: a new file with a video track and an audio track cannot be
    stored.  When the media information of such a file is read, its
    dictionary carries the audio keys, so that the scan of a directory
    that holds the file, at a path that is not in the table, ends with
    an exception, and no row for the file is in the table afterwards.
    The exception is the [TypeError] of the constructor when the
    integers read from all files fit in 64 bits. *)
Theorem scan_aborts_on_new_file_with_audio_track :
  forall (now batch_size : Z) (store : table) (files : list File)
         (file : File) (media_type : str) (tracks : list Track)
         (v a : Track) (d : option float),
    NoDup (map (@path _) files) ->
    In file files ->
    parsed file = Ok tracks ->
    find is_video tracks = Some v ->
    duration_of v = Ok d ->
    find is_audio tracks = Some a ->
    ~ In (path file) (paths store) ->
    let futures :=
      map (fun f => Ok (_extract_file_info f media_type)) files in
    (exists e, snd (scan_path now batch_size store futures) = Some e)
    /\ ~ In (path file)
           (paths (fst (scan_path now batch_size store futures)))
    /\ ((forall f, In f files ->
                   storable (_extract_file_info f media_type) = true) ->
        snd (scan_path now batch_size store futures) = Some TypeError).
Proof.
  intros now batch_size store files file media_type tracks v a d
         Hnd Hin Hparsed Hv Hd Ha Hnot futures.
  set (info := _extract_file_info file media_type).
  assert (Hkeys : has_audio_keys info = true).
  { unfold has_audio_keys, info. cbn [info_media _extract_file_info].
    rewrite Hparsed, get_media_info_unfold, Hv, Hd, Ha. reflexivity. }
  change (path file) with (info_file_path info).
  unfold scan_path.
  change (fold_left (scan_step now batch_size) futures ?s)
    with (run now batch_size futures s).
  destruct (@audio_keys_abort_run _ now batch_size info (infos_of futures)
              futures Hkeys (start store)) as (e & He & Hpath & Hty).
  - exact Hnot.
  - now intros i Hi.
  - right. cbn [start batch app]. split; [reflexivity|].
    unfold futures. rewrite infos_of_extracted. split.
    + now apply (in_map (fun f => _extract_file_info f media_type)).
    + now rewrite map_map.
  - unfold start in He, Hpath. rewrite He.
    split; [now exists e|]. split; [exact Hpath|].
    intros Hfit. rewrite Hty; [reflexivity|].
    unfold futures. rewrite infos_of_extracted. intros i Hi.
    apply in_map_iff in Hi. destruct Hi as (f & <- & Hf). now apply Hfit.
Qed.

End Media.

(** ** Closed instance *)

(** A movie with a video and an audio track, scanned into an empty
    table. *)
Lemma scan_aborts_on_new_file_with_audio_track_witness :
  let files := [sample_file; sample_movie] in
  let futures :=
    map (fun f => Ok (@_extract_file_info digits_mediainfo chunk_list_hasher
                        f (lit "movie")))
        files in
  (exists e, snd (scan_path 100 5 [] futures) = Some e)
  /\ ~ In (path sample_movie) (paths (fst (scan_path 100 5 [] futures)))
  /\ ((forall f, In f files ->
                 storable (@_extract_file_info digits_mediainfo
                             chunk_list_hasher f (lit "movie")) = true) ->
      snd (scan_path 100 5 [] futures) = Some TypeError).
Proof.
  assert (Htracks : exists tracks v a,
             parsed sample_movie = Ok tracks
             /\ find is_video tracks = Some v
             /\ duration_of v = Ok None
             /\ find is_audio tracks = Some a)
    by (do 3 eexists; repeat split; reflexivity).
  destruct Htracks as (tracks & v & a & Hp & Hv & Hd & Ha).
  apply (@scan_aborts_on_new_file_with_audio_track digits_mediainfo
           chunk_list_hasher 100 5 [] [sample_file; sample_movie]
           sample_movie (lit "movie") tracks v a None);
    try assumption.
  - repeat constructor; simpl; intuition discriminate.
  - right. now left.
  - intros [].
Defined.

End ScannerMore.

(* ================================================================== *)
(** * More on the duplicate checks ([find_duplicates])                 *)
(* ================================================================== *)

Module AnalyzerMore.

Import Analyzer Notions MoreNotions AnalyzerSpec CliSpec WalkSpec.

(** ** Stable sorting by a key *)

Section Sorting.

Variables (A K : Type) (ltb : K -> K -> bool) (key : A -> K).

Hypothesis ltb_asym : forall a b, ltb a b = true -> ltb b a = false.
Hypothesis leb_trans :
  forall a b c, ltb b a = false -> ltb c b = false -> ltb c a = false.

Lemma insert_perm (x : A) (l : list A) :
  Permutation (insert_stable ltb key x l) (x :: l).
Proof.
  induction l as [|y l IH]; cbn [insert_stable]; [reflexivity|].
  destruct (ltb (key y) (key x)); [|reflexivity].
  rewrite IH. apply perm_swap.
Qed.

Lemma sort_stable_perm (l : list A) : Permutation (sort_stable ltb key l) l.
Proof.
  induction l as [|x l IH]; cbn [sort_stable]; [reflexivity|].
  rewrite insert_perm. now constructor.
Qed.

Lemma py_sort_perm (reverse : bool) (l : list A) :
  Permutation (py_sort ltb key reverse l) l.
Proof.
  unfold py_sort. destruct reverse; [|apply sort_stable_perm].
  rewrite <- Permutation_rev, sort_stable_perm. symmetry.
  apply Permutation_rev.
Qed.

Lemma insert_sorted (x : A) (l : list A) :
  StronglySorted (fun a b => ltb (key b) (key a) = false) l ->
  StronglySorted (fun a b => ltb (key b) (key a) = false)
                 (insert_stable ltb key x l).
Proof.
  induction 1 as [|y l Hs IH Hy]; cbn [insert_stable].
  - repeat constructor.
  - destruct (ltb (key y) (key x)) eqn:Hyx.
    + constructor; [assumption|].
      rewrite Forall_forall in *. intros z Hz.
      apply (Permutation_in _ (insert_perm x l)) in Hz.
      destruct Hz as [<-|Hz]; [now apply ltb_asym | now apply Hy].
    + constructor; [now constructor|].
      constructor; [assumption|].
      rewrite Forall_forall in *. intros z Hz.
      eapply leb_trans; [exact Hyx | now apply Hy].
Qed.

Lemma sort_stable_sorted (l : list A) :
  StronglySorted (fun a b => ltb (key b) (key a) = false)
                 (sort_stable ltb key l).
Proof.
  induction l as [|x l IH]; cbn [sort_stable];
    [constructor | now apply insert_sorted].
Qed.

Lemma sorted_last (R : A -> A -> Prop) (l : list A) (m : A) :
  StronglySorted R (l ++ [m]) -> Forall (fun z => R z m) l.
Proof.
  induction l as [|x l IH]; cbn [app]; intros Hs; [constructor|].
  inversion Hs as [|? ? Hs' Hx]; subst. constructor.
  - rewrite Forall_forall in Hx. apply Hx. apply in_or_app. right. now left.
  - now apply IH.
Qed.

(** After a descending sort the first element has the greatest key. *)
Lemma py_sort_reverse_head (l : list A) (best : A) (rest : list A) :
  py_sort ltb key true l = best :: rest ->
  forall z, In z l -> ltb (key best) (key z) = false.
Proof.
  unfold py_sort. intros Hsort z Hz.
  assert (Hrev : sort_stable ltb key (rev l) = rev rest ++ [best]).
  { rewrite <- (rev_involutive (sort_stable ltb key (rev l))), Hsort.
    reflexivity. }
  pose proof (sort_stable_sorted (rev l)) as Hs. rewrite Hrev in Hs.
  assert (Hin : In z (rev rest ++ [best])).
  { rewrite <- Hrev.
    apply (Permutation_in _ (Permutation_sym (sort_stable_perm (rev l)))).
    now apply in_rev in Hz. }
  apply in_app_or in Hin. destruct Hin as [Hin|[<-|[]]].
  - apply sorted_last in Hs. rewrite Forall_forall in Hs. now apply Hs.
  - destruct (ltb (key best) (key best)) eqn:E; [|reflexivity].
    now rewrite (ltb_asym E) in E.
Qed.

End Sorting.

Lemma key3_ltb_iff (a1 a2 a3 b1 b2 b3 : Z) :
  key3_ltb (a1, a2, a3) (b1, b2, b3) = true
  <-> (a1 < b1 \/ (a1 = b1 /\ (a2 < b2 \/ (a2 = b2 /\ a3 < b3))))%Z.
Proof.
  unfold key3_ltb.
  rewrite orb_true_iff, andb_true_iff, orb_true_iff, andb_true_iff.
  rewrite !Z.ltb_lt, !Z.eqb_eq. reflexivity.
Qed.

Lemma key3_ltb_false (a1 a2 a3 b1 b2 b3 : Z) :
  key3_ltb (a1, a2, a3) (b1, b2, b3) = false
  <-> (b1 < a1 \/ (a1 = b1 /\ (b2 < a2 \/ (a2 = b2 /\ b3 <= a3))))%Z.
Proof.
  rewrite <- not_true_iff_false, key3_ltb_iff. lia.
Qed.

Lemma key3_asym (a b : Z * Z * Z) :
  key3_ltb a b = true -> key3_ltb b a = false.
Proof.
  destruct a as [[a1 a2] a3], b as [[b1 b2] b3].
  rewrite key3_ltb_iff, key3_ltb_false. lia.
Qed.

Lemma key3_trans (a b c : Z * Z * Z) :
  key3_ltb b a = false -> key3_ltb c b = false -> key3_ltb c a = false.
Proof.
  destruct a as [[a1 a2] a3], b as [[b1 b2] b3], c as [[c1 c2] c3].
  rewrite !key3_ltb_false. lia.
Qed.

(** ** The groups of the exact pass *)

Section Exact.

Context {float : Type}.

Local Abbreviation MediaFile := (MediaFile float).

Lemma has_hash_true (h : str) (f : MediaFile) :
  has_hash h f = true <-> file_hash f = Some h.
Proof.
  unfold has_hash. destruct (file_hash f) as [k|]; [|split; discriminate].
  rewrite str_eqb_true. split; congruence.
Qed.

Lemma hash_groups_snoc (files : list MediaFile) (f : MediaFile) :
  hash_groups (files ++ [f])
  = match file_hash f with
    | Some h => if truthy_str (Some h)
                then group_append h f (hash_groups files)
                else hash_groups files
    | None => hash_groups files
    end.
Proof. unfold hash_groups. now rewrite fold_left_app. Qed.

Lemma group_append_keys (h : str) (f : MediaFile)
  (groups : list (str * list MediaFile)) (k : str) :
  In k (map fst (group_append h f groups))
  <-> In k (map fst groups) \/ k = h.
Proof.
  induction groups as [|[k' fs] groups IH]; cbn [group_append map In fst].
  - intuition.
  - destruct (str_eqb k' h) eqn:E; cbn [map In fst].
    + apply str_eqb_true in E. subst. intuition.
    + rewrite IH. intuition.
Qed.

Lemma group_append_nodup (h : str) (f : MediaFile)
  (groups : list (str * list MediaFile)) :
  NoDup (map fst groups) -> NoDup (map fst (group_append h f groups)).
Proof.
  induction groups as [|[k' fs] groups IH]; cbn [group_append map fst];
    intros Hnd.
  - repeat constructor. intros [].
  - inversion Hnd as [|? ? Hnot Hrest]; subst.
    destruct (str_eqb k' h) eqn:E; cbn [map fst]; [exact Hnd|].
    constructor; [|now apply IH].
    rewrite group_append_keys. intros [Hin| ->]; [contradiction|].
    apply str_eqb_false in E. congruence.
Qed.

Lemma group_append_in (h : str) (f : MediaFile)
  (groups : list (str * list MediaFile)) (k : str) (fs : list MediaFile) :
  NoDup (map fst groups) ->
  In (k, fs) (group_append h f groups) ->
  (k <> h /\ In (k, fs) groups)
  \/ (k = h /\ exists fs0, fs = fs0 ++ [f]
                           /\ (In (h, fs0) groups
                               \/ (fs0 = [] /\ ~ In h (map fst groups)))).
Proof.
  induction groups as [|[k' fs'] groups IH]; cbn [group_append In map fst];
    intros Hnd.
  - intros [[= <- <-]|[]]. right. split; [reflexivity|].
    exists []. split; [reflexivity|]. right. split; [reflexivity | tauto].
  - inversion Hnd as [|? ? Hnot Hrest]; subst.
    destruct (str_eqb k' h) eqn:E.
    + apply str_eqb_true in E. subst k'. intros [[= <- <-]|Hin].
      * right. split; [reflexivity|]. exists fs'. split; [reflexivity|].
        left. now left.
      * left. split; [|now right]. intros ->. apply Hnot.
        now apply (in_map fst) in Hin.
    + apply str_eqb_false in E. intros [[= <- <-]|Hin].
      * left. split; [exact E | now left].
      * destruct (IH Hrest Hin) as [(Hne & Hold)|(-> & fs0 & -> & Hcase)].
        -- left. split; [exact Hne | now right].
        -- right. split; [reflexivity|]. exists fs0. split; [reflexivity|].
           destruct Hcase as [Hold|(-> & Hnone)]; [left; now right|].
           right. split; [reflexivity|]. intros [Heq|Hin']; [congruence|].
           contradiction.
Qed.

(** The groups after the first loop: one group for each fingerprint
    that is neither NULL nor empty, with the records of that fingerprint
    in table order. *)
Lemma hash_groups_spec (files : list MediaFile) :
  NoDup (map fst (hash_groups files))
  /\ (forall k fs, In (k, fs) (hash_groups files) ->
                   k <> [] /\ fs <> [] /\ fs = filter (has_hash k) files)
  /\ (forall x h, In x files -> file_hash x = Some h -> h <> [] ->
                  In h (map fst (hash_groups files))).
Proof.
  induction files as [|f files (Hnd & Hgroups & Hkeys)] using rev_ind.
  - split; [constructor|]. split; [intros k fs [] | intros x h []].
  - rewrite hash_groups_snoc.
    assert (Hskip : (forall h, file_hash f = Some h -> h = []) ->
              NoDup (map fst (hash_groups files))
              /\ (forall k fs, In (k, fs) (hash_groups files) ->
                    k <> [] /\ fs <> []
                    /\ fs = filter (has_hash k) (files ++ [f]))
              /\ (forall x h, In x (files ++ [f]) -> file_hash x = Some h ->
                    h <> [] -> In h (map fst (hash_groups files)))).
    { intros Hf. split; [exact Hnd|]. split.
      - intros k fs Hin. destruct (Hgroups k fs Hin) as (Hk & Hne & ->).
        split; [exact Hk|]. split; [exact Hne|].
        rewrite filter_app. cbn [filter].
        destruct (has_hash k f) eqn:E; [|now rewrite app_nil_r].
        apply has_hash_true in E. apply Hf in E. contradiction.
      - intros x h Hx Hh Hne. apply in_app_or in Hx.
        destruct Hx as [Hx|[<-|[]]]; [now apply (Hkeys x)|].
        apply Hf in Hh. contradiction. }
    destruct (file_hash f) as [h|] eqn:Hf; [|apply Hskip; discriminate].
    destruct h as [|c h]; cbn [truthy_str];
      [apply Hskip; now intros ? [= <-]|].
    clear Hskip. set (k0 := c :: h) in *.
    split; [now apply group_append_nodup|]. split.
    + intros k fs Hin. apply group_append_in in Hin; [|exact Hnd].
      rewrite filter_app. cbn [filter].
      destruct Hin as [(Hne & Hold)|(-> & fs0 & -> & Hcase)].
      * destruct (Hgroups k fs Hold) as (Hk & Hfs & ->).
        split; [exact Hk|]. split; [exact Hfs|].
        destruct (has_hash k f) eqn:E; [|now rewrite app_nil_r].
        apply has_hash_true in E. congruence.
      * split; [discriminate|]. split; [now destruct fs0|].
        replace (has_hash k0 f) with true
          by (symmetry; now apply has_hash_true).
        f_equal. destruct Hcase as [Hold|(-> & Hnone)].
        -- now destruct (Hgroups k0 fs0 Hold) as (_ & _ & ->).
        -- destruct (filter (has_hash k0) files) as [|x l] eqn:Hfilter;
             [reflexivity|]. exfalso. apply Hnone.
           assert (Hx : In x (filter (has_hash k0) files))
             by (rewrite Hfilter; now left).
           apply filter_In in Hx. destruct Hx as (Hx & Hhash).
           apply has_hash_true in Hhash.
           apply (Hkeys x k0 Hx Hhash). discriminate.
    + intros x k Hx Hk Hne. apply group_append_keys.
      apply in_app_or in Hx. destruct Hx as [Hx|[<-|[]]].
      * left. now apply (Hkeys x).
      * right. congruence.
Qed.

Lemma group_issues_in (duplicates : list MediaFile) (i : MediaIssue) :
  In i (group_issues duplicates) ->
  exists best rest dup,
    sort_duplicates duplicates = best :: rest /\ In dup rest
    /\ i = {| media_file_id := id dup;
              issue_type := lit "duplicate";
              severity := lit "high";
              description := lit "Duplicate of " ++ file_name best;
              duplicate_of_id := Some (id best) |}.
Proof.
  unfold group_issues. destruct (1 <? List.length duplicates); [|intros []].
  destruct (sort_duplicates duplicates) as [|best rest]; [intros []|].
  intros Hin. apply in_map_iff in Hin. destruct Hin as (dup & <- & Hdup).
  now exists best, rest, dup.
Qed.

(** X22: in the exact pass every issue refers from one record to
    another record with the same fingerprint, which is neither NULL nor
    empty; and the record referred to is the one that the sort puts
    first: among all records with this fingerprint none has a smaller
    height.  With unique keys the two records differ. *)
Theorem exact_duplicates_refer_to_lowest :
  forall files : list MediaFile,
    Forall (refers_to_lowest files) (exact_duplicates files).
Proof.
  intros files. apply Forall_forall. intros i Hi.
  unfold exact_duplicates in Hi. apply in_flat_map in Hi.
  destruct Hi as ((k, fs) & Hg & Hi). cbn [snd] in Hi.
  destruct (hash_groups_spec files) as (_ & Hgroups & _).
  destruct (Hgroups k fs Hg) as (Hk & _ & Hfs).
  destruct (group_issues_in _ _ Hi) as (best & rest & dup & Hsort & Hdup & ->).
  assert (Hperm : Permutation (best :: rest) fs)
    by (rewrite <- Hsort; apply py_sort_perm).
  assert (Hmember : forall x, In x fs <-> In x files /\ file_hash x = Some k).
  { intros x. rewrite Hfs, filter_In, has_hash_true. reflexivity. }
  assert (Hbest : In best fs)
    by (apply (Permutation_in _ Hperm); now left).
  assert (Hdup' : In dup fs)
    by (apply (Permutation_in _ Hperm); now right).
  apply Hmember in Hbest, Hdup'.
  exists best, dup, k. cbn.
  repeat (split; [tauto|]). split.
  - intros Hnd Heq.
    assert (Hids : NoDup (map (@id float) (best :: rest))).
    { apply (Permutation_NoDup (Permutation_map _ (Permutation_sym Hperm))).
      rewrite Hfs. clear - Hnd.
      induction files as [|x l IH]; cbn [filter map]; [constructor|].
      inversion Hnd as [|? ? Hnot Hrest]; subst.
      destruct (has_hash k x); [|now apply IH]. cbn [map].
      constructor; [|now apply IH]. intros Hin. apply Hnot.
      apply in_map_iff in Hin. destruct Hin as (y & Hy & Hin).
      apply filter_In in Hin. rewrite <- Hy. apply in_map. tauto. }
    cbn [map] in Hids. inversion Hids as [|? ? Hnot _]; subst.
    apply Hnot. rewrite Heq. now apply in_map.
  - intros x Hx Hhash.
    assert (Hkey : key3_ltb (rank_key best) (rank_key x) = false).
    { eapply py_sort_reverse_head;
        [exact key3_asym | exact key3_trans | exact Hsort |].
      apply Hmember. now split. }
    split; [exact Hkey|].
    unfold rank_key in Hkey. apply key3_ltb_false in Hkey. lia.
Qed.





End Exact.

(** ** The near pass *)

Lemma sorted_pair_inj (a b c : Z) :
  sorted_pair a b = sorted_pair a c -> b = c.
Proof.
  unfold sorted_pair.
  destruct (Z.ltb_spec b a), (Z.ltb_spec c a); intros [= ]; lia.
Qed.

Lemma sorted_pair_has (a b : Z) :
  (fst (sorted_pair a b) = a /\ snd (sorted_pair a b) = b)
  \/ (fst (sorted_pair a b) = b /\ snd (sorted_pair a b) = a).
Proof. unfold sorted_pair. destruct (b <? a)%Z; cbn; tauto. Qed.

Lemma pair_eqb_true (p q : Z * Z) : pair_eqb p q = true <-> p = q.
Proof.
  destruct p as [p1 p2], q as [q1 q2]. unfold pair_eqb. cbn [fst snd].
  rewrite andb_true_iff, !Z.eqb_eq. split; [intros (-> & ->) | intros [= -> ->]];
    tauto.
Qed.

Lemma unchecked (pair : Z * Z) (checked : list (Z * Z)) :
  ~ In pair checked -> existsb (pair_eqb pair) checked = false.
Proof.
  intros Hnot. destruct (existsb _ checked) eqn:E; [|reflexivity].
  apply existsb_exists in E. destruct E as (q & Hq & E).
  apply pair_eqb_true in E. now subst.
Qed.

Section Near.

Context `{Difflib} {float : Type}.

Local Abbreviation MediaFile := (MediaFile float).

Variable config : Config.
Variable threshold : ratio_t.

Lemma similar_step_fresh (file1 file2 : MediaFile)
  (checked : list (Z * Z)) (issues : list MediaIssue) :
  ~ In (sorted_pair (id file1) (id file2)) checked ->
  similar_step config threshold file1 (checked, issues) file2
  = (sorted_pair (id file1) (id file2) :: checked,
     issues ++ pair_issues config threshold (file1, file2)).
Proof.
  intros Hnot. unfold pair_issues, similar_step. cbn [fst snd existsb].
  rewrite (unchecked _ _ Hnot).
  destruct (ratio_geb _ _); cbn [snd app]; [reflexivity|].
  now rewrite app_nil_r.
Qed.

Lemma inner_loop (file1 : MediaFile) (rest : list MediaFile) :
  forall (checked : list (Z * Z)) (issues : list MediaIssue),
    NoDup (map (@id float) rest) ->
    (forall x, In x rest ->
               ~ In (sorted_pair (id file1) (id x)) checked) ->
    fold_left (similar_step config threshold file1) rest (checked, issues)
    = (rev (map (fun x => sorted_pair (id file1) (id x)) rest) ++ checked,
       issues ++ flat_map (fun x => pair_issues config threshold (file1, x))
                          rest).
Proof.
  induction rest as [|x rest IH]; intros checked issues Hnd Hfresh.
  - cbn. now rewrite app_nil_r.
  - inversion Hnd as [|? ? Hnot Hrest]; subst.
    cbn [fold_left]. rewrite similar_step_fresh by (apply Hfresh; now left).
    rewrite IH.
    + cbn [map rev flat_map]. now rewrite <- !app_assoc.
    + exact Hrest.
    + intros y Hy [Heq|Hin].
      * apply sorted_pair_inj in Heq. apply Hnot. rewrite Heq.
        now apply in_map.
      * revert Hin. apply Hfresh. now right.
Qed.

Lemma outer_loop (files : list MediaFile) :
  forall (checked : list (Z * Z)) (issues : list MediaIssue),
    NoDup (map (@id float) files) ->
    (forall pr, In pr checked ->
                ~ In (fst pr) (map (@id float) files)
                \/ ~ In (snd pr) (map (@id float) files)) ->
    snd (similar_loop config threshold files (checked, issues))
    = issues ++ flat_map (pair_issues config threshold) (all_pairs files).
Proof.
  induction files as [|file1 rest IH]; intros checked issues Hnd Hold.
  - cbn. now rewrite app_nil_r.
  - inversion Hnd as [|? ? Hnot Hrest]; subst.
    cbn [similar_loop all_pairs]. rewrite inner_loop.
    + rewrite IH.
      * rewrite flat_map_app, <- app_assoc. do 2 f_equal.
        clear. induction rest as [|x rest IH]; [reflexivity|].
        cbn [map flat_map]. now rewrite IH.
      * exact Hrest.
      * intros pr Hpr. apply in_app_or in Hpr. destruct Hpr as [Hpr|Hpr].
        -- apply in_rev, in_map_iff in Hpr. destruct Hpr as (x & <- & Hx).
           destruct (sorted_pair_has (id file1) (id x)) as [(-> & _)|(_ & ->)];
             [now left | now right].
        -- destruct (Hold pr Hpr) as [Hout|Hout]; [left | right];
             intros Hin; apply Hout; now right.
    + exact Hrest.
    + intros x Hx Hin. cbn [map] in Hold.
      destruct (sorted_pair_has (id file1) (id x)) as [(H1 & H2)|(H1 & H2)];
        destruct (Hold _ Hin) as [Hout|Hout]; apply Hout;
        rewrite ?H1, ?H2; cbn [In];
        first [now left | right; now apply in_map].
Qed.

(** X24: with unique keys the set of checked pairs never holds a pair
    back: the near pass handles every pair of records once, the earlier
    record of the table first, in the order of the two loops, and its
    result is the concatenation of what the loop body yields for each
    pair. *)
Theorem find_similar_filenames_all_pairs :
  forall files : list MediaFile,
    NoDup (map (@id float) files) ->
    _find_similar_filenames config threshold files
    = flat_map (pair_issues config threshold) (all_pairs files).
Proof.
  intros files Hnd. unfold _find_similar_filenames.
  rewrite outer_loop; [reflexivity | exact Hnd | intros pr []].
Qed.

(** X25: with unique keys every issue of the near pass refers from one
    record of the table to a different one whose height, NULL counting
    as 0, is not smaller; it has the kind [duplicate] and the severity
    [medium]. *)
Theorem find_similar_filenames_refer_to_better :
  forall files : list MediaFile,
    NoDup (map (@id float) files) ->
    Forall (refers_to_better files)
           (_find_similar_filenames config threshold files).
Proof.
  intros files Hnd. now apply find_similar_filenames_refers.
Qed.

End Near.

(** ** The two passes together *)

Section Both.

Context `{Difflib} {float : Type}.

Local Abbreviation MediaFile := (MediaFile float).

Lemma same_id_same_row (files : list MediaFile) (x y : MediaFile) :
  NoDup (map (@id float) files) -> In x files -> In y files ->
  id x = id y -> x = y.
Proof.
  induction files as [|z files IH]; intros Hnd Hx Hy Heq; [destruct Hx|].
  inversion Hnd as [|? ? Hnot Hrest]; subst.
  destruct Hx as [->|Hx], Hy as [->|Hy].
  - reflexivity.
  - exfalso. apply Hnot. rewrite Heq. now apply in_map.
  - exfalso. apply Hnot. rewrite <- Heq. now apply in_map.
  - now apply IH.
Qed.

Lemma all_pairs_in (files : list MediaFile) (a b : MediaFile) :
  In a files -> In b files -> id a <> id b ->
  In (a, b) (all_pairs files) \/ In (b, a) (all_pairs files).
Proof.
  induction files as [|x files IH]; intros Ha Hb Hne; [destruct Ha|].
  cbn [all_pairs]. destruct Ha as [->|Ha], Hb as [->|Hb].
  - contradiction.
  - left. apply in_or_app. left. now apply in_map.
  - right. apply in_or_app. left. now apply in_map.
  - destruct (IH Ha Hb Hne) as [Hin|Hin]; [left | right];
      apply in_or_app; now right.
Qed.

(** X26: with the filename pass switched on, the two passes can
    contradict each other.  Take two records with the same fingerprint
    and names that are similar in both directions, the first of which
    has the smallest height of all records with this fingerprint.  The
    exact pass reports the second as a duplicate of the first, with
    severity [high], and the near pass reports the first as a duplicate
    of the second, with severity [medium]: each of the two is flagged
    as the duplicate of the other. *)
Theorem find_duplicates_flags_both_copies :
  forall (config : Config) (threshold : ratio_t) (files : list MediaFile)
         (a b : MediaFile) (h : str),
    NoDup (map (@id float) files) ->
    In a files -> In b files -> id a <> id b ->
    h <> [] -> file_hash a = Some h -> file_hash b = Some h ->
    (forall x, In x files -> file_hash x = Some h -> id x <> id a ->
               (or0 (resolution_height a) < or0 (resolution_height x))%Z) ->
    use_filename_similarity config = Some true ->
    ratio_geb (ratio (file_name a) (file_name b))
              (similarity_threshold config threshold) = true ->
    ratio_geb (ratio (file_name b) (file_name a))
              (similarity_threshold config threshold) = true ->
    let issues := find_duplicates config threshold files in
    (exists i, In i issues
               /\ media_file_id i = id b
               /\ duplicate_of_id i = Some (id a)
               /\ severity i = lit "high")
    /\ (exists i, In i issues
                  /\ media_file_id i = id a
                  /\ duplicate_of_id i = Some (id b)
                  /\ severity i = lit "medium").
Proof.
  intros config threshold files a b h Hnd Ha Hb Hne Hh Hha Hhb Hlow Hflag
         Hab Hba issues.
  assert (Hheight : (or0 (resolution_height a)
                     < or0 (resolution_height b))%Z)
    by (apply Hlow; auto).
  subst issues. unfold find_duplicates. rewrite Hflag. cbn [enabled].
  split.
  - (* the exact pass *)
    destruct (hash_groups_spec files) as (_ & Hgroups & Hkeys).
    pose proof (Hkeys a h Ha Hha Hh) as Hkey.
    apply in_map_iff in Hkey. destruct Hkey as ((k, fs) & Hk & Hg).
    cbn [fst] in Hk. subst k.
    destruct (Hgroups h fs Hg) as (_ & _ & Hfs).
    assert (Hmember : forall x, In x fs
                                <-> In x files /\ file_hash x = Some h).
    { intros x. rewrite Hfs, filter_In, has_hash_true. reflexivity. }
    pose proof (py_sort_perm key3_ltb rank_key true fs) as Hperm.
    fold (sort_duplicates fs) in Hperm.
    destruct (sort_duplicates fs) as [|best rest] eqn:Hsort.
    { apply Permutation_nil in Hperm.
      assert (Hin : In a fs) by (apply Hmember; now split).
      rewrite Hperm in Hin. destruct Hin. }
    assert (Hbest : In best fs)
      by (apply (Permutation_in _ Hperm); now left).
    assert (Hbest_a : best = a).
    { apply (same_id_same_row files); try assumption;
        [now apply Hmember in Hbest|].
      destruct (Z.eq_dec (id best) (id a)) as [Heq|Hdiff]; [exact Heq|].
      exfalso. apply Hmember in Hbest. destruct Hbest as (Hin & Hhash).
      pose proof (Hlow best Hin Hhash Hdiff) as Hlt.
      assert (Hmax : key3_ltb (rank_key best) (rank_key a) = false).
      { eapply py_sort_reverse_head;
          [exact key3_asym | exact key3_trans | exact Hsort |].
        apply Hmember. now split. }
      unfold rank_key in Hmax. apply key3_ltb_false in Hmax. lia. }
    subst best.
    assert (Hrest : In b rest).
    { assert (Hin : In b (a :: rest)).
      { apply (Permutation_in _ (Permutation_sym Hperm)).
        apply Hmember. now split. }
      destruct Hin as [Heq|Hin]; [|exact Hin]. subst. contradiction. }
    eexists. split.
    + apply in_or_app. left. unfold exact_duplicates. apply in_flat_map.
      exists (h, fs). split; [exact Hg|]. cbn [snd]. unfold group_issues.
      replace (1 <? List.length fs) with true.
      * rewrite Hsort. apply in_map_iff. exists b. split; [reflexivity|].
        exact Hrest.
      * symmetry. apply Nat.ltb_lt. apply Permutation_length in Hperm.
        rewrite <- Hperm. destruct rest; [destruct Hrest | cbn; lia].
    + cbn. repeat split.
  - (* the near pass *)
    assert (Hnear : exists i,
               In i (flat_map (pair_issues config threshold)
                              (all_pairs files))
               /\ media_file_id i = id a
               /\ duplicate_of_id i = Some (id b)
               /\ severity i = lit "medium").
    { destruct (all_pairs_in files a b Ha Hb Hne) as [Hin|Hin].
      - eexists. split.
        + apply in_flat_map. exists (a, b). split; [exact Hin|].
          unfold pair_issues, similar_step. cbn [fst snd existsb].
          rewrite Hab.
          replace (or0 (resolution_height a) >=? or0 (resolution_height b))%Z
            with false by (symmetry; rewrite Z.geb_leb; apply Z.leb_gt; lia).
          cbn [snd app]. now left.
        + cbn. repeat split.
      - eexists. split.
        + apply in_flat_map. exists (b, a). split; [exact Hin|].
          unfold pair_issues, similar_step. cbn [fst snd existsb].
          rewrite Hba.
          replace (or0 (resolution_height b) >=? or0 (resolution_height a))%Z
            with true by (symmetry; rewrite Z.geb_leb; apply Z.leb_le; lia).
          cbn [snd app]. now left.
        + cbn. repeat split. }
    destruct Hnear as (i & Hi & Hrest).
    exists i. split; [|exact Hrest].
    apply in_or_app. right. unfold _find_similar_filenames.
    rewrite outer_loop; [exact Hi | exact Hnd | intros pr []].
Qed.

End Both.

(** ** The codec check *)

Section Quality.

Context `{Difflib} {float : Type}.

Local Abbreviation MediaFile := (MediaFile float).

Lemma has_old_codec_spec (f : MediaFile) :
  has_old_codec f = true
  <-> exists c old, codec f = Some c /\ In old old_codecs
                    /\ occurs old (lower c).
Proof.
  unfold has_old_codec. split.
  - destruct (codec f) as [c|]; [|discriminate].
    intros Hc. apply andb_prop in Hc. destruct Hc as (_ & Hc).
    apply existsb_exists in Hc. destruct Hc as (old & Hold & Hocc).
    apply contains_spec in Hocc. now exists c, old.
  - intros (c & old & -> & Hold & Hocc).
    assert (Hex : existsb (fun old => contains old (lower c)) old_codecs
                  = true).
    { apply existsb_exists. exists old. split; [exact Hold|].
      now apply contains_spec. }
    rewrite Hex, andb_true_r.
    destruct c as [|x c]; [|reflexivity]. exfalso.
    destruct Hocc as (before & after & Hocc).
    destruct Hold as [<-|[<-|[<-|[]]]]; destruct before; discriminate.
Qed.

(** X27: the codec check is a substring test that is blind to case:
    with unique keys, a record of the table is the target of the issue
    [Old codec] exactly when its codec holds [xvid], [divx] or [mpeg2]
    somewhere, in any mix of cases; a record without a codec never
    is. *)
Theorem find_quality_issues_old_codec :
  forall (config : Config) (files : list MediaFile) (f : MediaFile),
    NoDup (map (@id float) files) ->
    In f files ->
    In (old_codec_issue f) (issues_for f (find_quality_issues config files))
    <-> exists c old, codec f = Some c /\ In old old_codecs
                      /\ occurs old (lower c).
Proof.
  intros config files f Hnd Hin. rewrite <- has_old_codec_spec.
  unfold find_quality_issues. rewrite issues_for_flat_map; try assumption.
  - unfold quality_issues_of. destruct (has_old_codec f).
    + split; [reflexivity|]. intros _. now left.
    + split; [|discriminate]. cbn [app].
      destruct (has_low_bitrate config f); [|intros []].
      intros [Heq|[]]. apply (f_equal description) in Heq.
      cbn in Heq. discriminate.
  - intros x i. unfold quality_issues_of.
    destruct (has_old_codec x), (has_low_bitrate config x); simpl;
      intuition; subst; reflexivity.
Qed.

End Quality.

(** ** Closed instances *)

(** Two rows with the same name and the heights 720 and 1080, compared
    by equality of the names. *)
Lemma find_similar_filenames_all_pairs_witness :
  let files : list (MediaFile unit) :=
    [row 1 (lit "a.mkv") 10 None (Some 720%Z) None None;
     row 2 (lit "a.mkv") 20 None (Some 1080%Z) None None] in
  let config := @default_config equality_difflib in
  let threshold : @ratio_t equality_difflib := true in
  _find_similar_filenames config threshold files
  = flat_map (pair_issues config threshold) (all_pairs files).
Proof.
  intros files config threshold.
  apply (@find_similar_filenames_all_pairs equality_difflib unit
           config threshold files).
  repeat constructor; simpl; intuition discriminate.
Defined.

Lemma find_similar_filenames_refer_to_better_witness :
  let files : list (MediaFile unit) :=
    [row 1 (lit "a.mkv") 10 None (Some 720%Z) None None;
     row 2 (lit "a.mkv") 20 None (Some 1080%Z) None None] in
  let config := @default_config equality_difflib in
  let threshold : @ratio_t equality_difflib := true in
  Forall (refers_to_better files)
         (_find_similar_filenames config threshold files).
Proof.
  intros files config threshold.
  apply (@find_similar_filenames_refer_to_better equality_difflib unit
           config threshold files).
  repeat constructor; simpl; intuition discriminate.
Defined.

(** The 720 copy and the two 1080 copies of one file, all three named
    alike under the comparison by equality. *)
Lemma find_duplicates_flags_both_copies_witness :
  let a : MediaFile unit :=
    row 1 (lit "film.mkv") 10 (Some (lit "H")) (Some 720%Z) None None in
  let b : MediaFile unit :=
    row 2 (lit "film.mkv") 20 (Some (lit "H")) (Some 1080%Z) None None in
  let config : @Config equality_difflib :=
    {| quality_min_resolution := None;
       quality_min_bitrate_1080p := None;
       similarity_threshold_key := None;
       use_filename_similarity := Some true;
       check_missing_episodes := None |} in
  let threshold : @ratio_t equality_difflib := true in
  let issues := find_duplicates config threshold [a; b] in
  (exists i, In i issues
             /\ media_file_id i = id b
             /\ duplicate_of_id i = Some (id a)
             /\ severity i = lit "high")
  /\ (exists i, In i issues
                /\ media_file_id i = id a
                /\ duplicate_of_id i = Some (id b)
                /\ severity i = lit "medium").
Proof.
  intros a b config threshold.
  apply (@find_duplicates_flags_both_copies equality_difflib unit
           config threshold [a; b] a b (lit "H")).
  - repeat constructor; simpl; intuition discriminate.
  - now left.
  - right. now left.
  - discriminate.
  - discriminate.
  - reflexivity.
  - reflexivity.
  - intros x [<-|[<-|[]]] _ Hid; [now contradiction Hid | cbn; lia].
  - reflexivity.
  - reflexivity.
  - reflexivity.
Defined.

(** A row whose codec is written [XviD]. *)
Lemma find_quality_issues_old_codec_witness :
  let f : MediaFile unit :=
    row 1 (lit "a.avi") 10 None (Some 480%Z) None (Some (lit "XviD")) in
  let config := @default_config equality_difflib in
  In (old_codec_issue f) (issues_for f (find_quality_issues config [f]))
  <-> exists c old, codec f = Some c /\ In old old_codecs
                    /\ occurs old (lower c).
Proof.
  intros f config.
  apply (@find_quality_issues_old_codec equality_difflib unit config [f] f).
  - repeat constructor. intros [].
  - now left.
Defined.

End AnalyzerMore.
